(** * Hook lifecycle orchestrator: lib/app/private/loadHooks.js

    A shallow embedding of [initializeHooks] and of the helpers it closes
    over ([prepareHook], [applyDefaults], [loadHook]), together with the
    host facilities they use (timers, the event bus, the log, the two
    [async] combinators), and the properties of the orchestrator that are
    checked against it.

    Layout:
    - [Js]       the JavaScript values the loader manipulates;
    - [Merge]    the defaults merge;
    - [Loader]   the state of one run, the helpers, the series of tasks and
                 the transition function driven by host events;
    - [Samples]  small applications to run the loader on;
    - [Props]    the vocabulary of the properties;
    - the theorems: dictionaries and the merge, the timeout interval,
      applyDefaults, the bootstrap tasks, what each helper and each step
      does to the state, the invariant of a run, and what follows from it. *)

From Stdlib Require Import List String Ascii ZArith Bool Lia DecimalString.
Import ListNotations.

#[local] Open Scope string_scope.
#[local] Open Scope list_scope.
#[local] Set Warnings "-register-all".

(* ===================================================================== *)
(** ** JavaScript values *)
(* ===================================================================== *)

Module Js.

(** Values that flow through the loader.  A function is an object: it has
    properties of its own ([configKey] on a hook factory, for instance);
    what calling it does is given by the [world] below, under the
    function's number.  Numbers are integers (no hook timeout or
    configuration key needs more). *)
Inductive jsval : Type :=
| JUndef
| JNull
| JBool (b : bool)
| JNum (z : Z)
| JStr (s : string)
| JArr (items : list jsval)
| JObj (fields : list (string * jsval))
| JFun (fn : nat) (props : list (string * jsval)).

Definition dict := list (string * jsval).

(** An induction principle that reaches below arrays and dictionaries. *)
Section JsvalInd.
Variable P : jsval -> Prop.
Hypothesis HUndef : P JUndef.
Hypothesis HNull : P JNull.
Hypothesis HBool : forall b, P (JBool b).
Hypothesis HNum : forall z, P (JNum z).
Hypothesis HStr : forall s, P (JStr s).
Hypothesis HArr : forall l, Forall P l -> P (JArr l).
Hypothesis HObj : forall fs, Forall (fun kv => P (snd kv)) fs -> P (JObj fs).
Hypothesis HFun : forall n ps, Forall (fun kv => P (snd kv)) ps -> P (JFun n ps).

Fixpoint jsval_deep_ind (v : jsval) : P v :=
  match v with
  | JUndef => HUndef
  | JNull => HNull
  | JBool b => HBool b
  | JNum z => HNum z
  | JStr s => HStr s
  | JArr l =>
      HArr l ((fix go (l : list jsval) : Forall P l :=
                 match l with
                 | [] => Forall_nil _
                 | x :: r => Forall_cons _ (jsval_deep_ind x) (go r)
                 end) l)
  | JObj fs =>
      HObj fs ((fix go (l : dict) : Forall (fun kv => P (snd kv)) l :=
                  match l with
                  | [] => Forall_nil _
                  | (k, x) :: r => Forall_cons (k, x) (jsval_deep_ind x) (go r)
                  end) fs)
  | JFun n ps =>
      HFun n ps ((fix go (l : dict) : Forall (fun kv => P (snd kv)) l :=
                    match l with
                    | [] => Forall_nil _
                    | (k, x) :: r => Forall_cons (k, x) (jsval_deep_ind x) (go r)
                    end) ps)
  end.
End JsvalInd.

(** *** Dictionaries: own properties in insertion order *)

Fixpoint lookup (k : string) (d : dict) : option jsval :=
  match d with
  | [] => None
  | (k', v) :: r => if String.eqb k k' then Some v else lookup k r
  end.

(** [d[k] = v]: an existing key keeps its place, a new one goes last. *)
Fixpoint assign (k : string) (v : jsval) (d : dict) : dict :=
  match d with
  | [] => [(k, v)]
  | (k', v') :: r =>
      if String.eqb k k' then (k', v) :: r else (k', v') :: assign k v r
  end.

(** [delete d[k]] *)
Fixpoint remove (k : string) (d : dict) : dict :=
  match d with
  | [] => []
  | (k', v') :: r =>
      if String.eqb k k' then remove k r else (k', v') :: remove k r
  end.

(** [_.keys(d)] *)
Definition keys (d : dict) : list string := map fst d.

(** [d[k]] on a dictionary: a missing key reads as [undefined]. *)
Definition read (d : dict) (k : string) : jsval :=
  match lookup k d with Some v => v | None => JUndef end.

(** *** Operators *)

(** ToBoolean *)
Definition truthy (v : jsval) : bool :=
  match v with
  | JUndef | JNull => false
  | JBool b => b
  | JNum z => negb (Z.eqb z 0)
  | JStr s => negb (String.eqb s "")
  | JArr _ | JObj _ | JFun _ _ => true
  end.

(** [a || b] *)
Definition js_or (a b : jsval) : jsval := if truthy a then a else b.

(** [v === false] and [v === 'false'] *)
Definition is_false (v : jsval) : bool :=
  match v with JBool false => true | _ => false end.
Definition is_false_string (v : jsval) : bool :=
  match v with JStr s => String.eqb s "false" | _ => false end.

(** lodash's [_.isObject], [_.isArray], [_.isFunction] *)
Definition isObject (v : jsval) : bool :=
  match v with JArr _ | JObj _ | JFun _ _ => true | _ => false end.
Definition isArray (v : jsval) : bool :=
  match v with JArr _ => true | _ => false end.
Definition isFunction (v : jsval) : bool :=
  match v with JFun _ _ => true | _ => false end.

(** [v.k]: [None] is the TypeError of reading a property of [undefined]
    or [null].  Primitives and arrays have none of the properties the
    loader asks for. *)
Definition get_prop (v : jsval) (k : string) : option jsval :=
  match v with
  | JUndef | JNull => None
  | JObj fs => Some (read fs k)
  | JFun _ ps => Some (read ps k)
  | _ => Some JUndef
  end.

(** [v.k = x]: on a primitive the assignment is dropped. *)
Definition set_prop (v : jsval) (k : string) (x : jsval) : option jsval :=
  match v with
  | JUndef | JNull => None
  | JObj fs => Some (JObj (assign k x fs))
  | JFun n ps => Some (JFun n (assign k x ps))
  | _ => Some v
  end.

(** [delete v.k] *)
Definition delete_prop (v : jsval) (k : string) : option jsval :=
  match v with
  | JUndef | JNull => None
  | JObj fs => Some (JObj (remove k fs))
  | JFun n ps => Some (JFun n (remove k ps))
  | _ => Some v
  end.

Definition string_of_Z (z : Z) : string :=
  NilZero.string_of_int (Z.to_int z).

(** ToString, as used for a computed property key and in messages.  The
    source text of a function is not modelled. *)
Fixpoint to_string (v : jsval) : string :=
  match v with
  | JUndef => "undefined"
  | JNull => "null"
  | JBool true => "true"
  | JBool false => "false"
  | JNum z => string_of_Z z
  | JStr s => s
  | JArr l =>
      String.concat ","
        (map (fun x => match x with
                       | JUndef | JNull => ""
                       | _ => to_string x
                       end) l)
  | JObj _ => "[object Object]"
  | JFun _ _ => "function"
  end.

(** [id.split('.')[0]] *)
Fixpoint split_head (s : string) : string :=
  match s with
  | EmptyString => EmptyString
  | String c r => if Ascii.eqb c "." then EmptyString else String c (split_head r)
  end.

(** [_.without(l, 'userconfig', 'moduleloader', 'userhooks')] *)
Definition bootstrap : list string := ["moduleloader"; "userconfig"; "userhooks"].

Definition is_bootstrap (id : string) : bool :=
  existsb (String.eqb id) bootstrap.

Definition without_bootstrap (l : list string) : list string :=
  filter (fun id => negb (is_bootstrap id)) l.

(** A JavaScript object has each key once, at every depth. *)
Fixpoint nodup_keys (l : list string) : bool :=
  match l with
  | [] => true
  | k :: r => negb (existsb (String.eqb k) r) && nodup_keys r
  end.

Fixpoint wf (v : jsval) : bool :=
  match v with
  | JArr l => forallb wf l
  | JObj fs =>
      nodup_keys (keys fs) &&
      (fix go (l : dict) : bool :=
         match l with [] => true | (_, x) :: r => wf x && go r end) fs
  | JFun _ ps =>
      nodup_keys (keys ps) &&
      (fix go (l : dict) : bool :=
         match l with [] => true | (_, x) :: r => wf x && go r end) ps
  | _ => true
  end.

End Js.
Import Js.

(* ===================================================================== *)
(** ** The defaults merge *)
(* ===================================================================== *)

Module Merge.

(** Modelled from the spec: [defaultsDeep], the function exported by the
    package [merge-defaults], whose code is not part of lib/.  The spec's
    words: the defaults object is deep-merged into shared configuration
    such that any key already present in shared configuration, at any
    depth, is left untouched; only missing keys are filled in.

    [defaultsDeep target defaults] is the target after the call.  Where
    both sides hold a dictionary under a key the merge goes down; a key
    the target lacks is added after the target's own keys. *)
Fixpoint defaultsDeep (target defaults : jsval) {struct defaults} : jsval :=
  match defaults, target with
  | JObj ds, JObj ts =>
      JObj ((fix fill (ds : dict) (ts : dict) {struct ds} : dict :=
               match ds with
               | [] => ts
               | (k, d) :: rest =>
                   fill rest
                     (match lookup k ts with
                      | None => assign k d ts
                      | Some t => assign k (defaultsDeep t d) ts
                      end)
               end) ds ts)
  | _, _ => target
  end.

(** The inner loop of [defaultsDeep], named. *)
Fixpoint fill (ds : dict) (ts : dict) {struct ds} : dict :=
  match ds with
  | [] => ts
  | (k, d) :: rest =>
      fill rest
        (match lookup k ts with
         | None => assign k d ts
         | Some t => assign k (defaultsDeep t d) ts
         end)
  end.

(** [v.k1.k2...kn], reading only through dictionaries. *)
Fixpoint get_path (p : list string) (v : jsval) : option jsval :=
  match p with
  | [] => Some v
  | k :: p' =>
      match v with
      | JObj fs => match lookup k fs with
                   | Some x => get_path p' x
                   | None => None
                   end
      | _ => None
      end
  end.

Definition is_dict (v : jsval) : bool :=
  match v with JObj _ => true | _ => false end.

(** The value found along a path survives the merge: a leaf unchanged, a
    dictionary as a dictionary that still sits there. *)
Definition kept (p : list string) (v : jsval) (t : jsval) : Prop :=
  exists v', get_path p t = Some v' /\
             (is_dict v = false -> v' = v) /\
             (is_dict v = true -> is_dict v' = true).

(** Every default of [ds] is already below the value [ts] has there. *)
Definition absorbed (ds ts : dict) : Prop :=
  Forall (fun kv => exists x, lookup (fst kv) ts = Some x /\
                              defaultsDeep x (snd kv) = x) ds.

End Merge.
Import Merge.

(* ===================================================================== *)
(** ** The loader *)
(* ===================================================================== *)

Module Loader.

(** The file uses two combinators of the package [async], which is not
    part of lib/.  They are taken as documented:
    - [async.series(tasks, done)] starts the tasks one after the other,
      each when the one before has invoked its callback without an
      error; the first error, or the end of the last task, goes to
      [done], once;
    - [async.each(ids, iteratee, done)] calls [iteratee] on every id in
      turn, in the order of the array, without waiting; [done] gets the
      first error, or is called when every iteratee has called back;
    - a callback made by either is to be invoked once: a second
      invocation throws.
    [process.nextTick(cb)] runs [cb] once the code that is running has
    returned, and before the host handles any timer or load completion.
    In the stages prepare, defaults and configure the deferred callbacks
    only tell async.each that an iteratee is done: the loop is over when
    they run and nothing of the loader or of the host comes between the
    loop and them, so the model ends the stage with the loop.  The
    callback that loadHook defers after a successful [load] is kept in a
    queue ([ticks]) and runs as a step of its own: when [load] calls back
    before it returns, the rest of the load loop comes first. *)

(** *** What the loader calls but does not define

    Hook modules are code of the application.  A function value carries a
    number; the [world] says what the function with that number does when
    the loader calls it in each of the three ways it calls functions.
    [inl] is a normal return, [inr] the value thrown. *)
Record world : Type := {
  (* [hookPrototype(sails)]: the hook definition the factory returns *)
  call_factory : nat -> jsval + jsval;
  (* [id.toLowerCase()], the host's case mapping *)
  toLowerCase : string -> string;
  (* [new Hook(def)], the constructor exported by lib/hooks: the Hook
     it makes, or what it throws *)
  new_Hook : jsval -> jsval + jsval;
  (* [hook.defaults(sails.config)] *)
  call_defaults : nat -> jsval -> jsval + jsval;
  (* [hook.configure()]: the configuration it leaves behind *)
  call_configure : nat -> jsval -> jsval + jsval
}.

(** Errors handed to callbacks or thrown. *)
Inductive error : Type :=
| InvalidConfiguration
    (* the string 'Invalid configuration:: Cannot use the `userconfig`
       hook w/o the `moduleloader` hook enabled!' *)
| HookTimeout (id : string) (key : string) (interval : jsval)
    (* an Error whose code is E_HOOK_TIMEOUT and whose message is
       [timeout_message id key interval] *)
| TypeError
| AlreadyCalled
    (* async: 'Callback was already called.' *)
| Raised (v : jsval).
    (* a value thrown by a hook, or passed by its load as first argument *)

Definition newline : string := String (ascii_of_nat 10) EmptyString.

(** The text of the E_HOOK_TIMEOUT error. *)
Definition timeout_message (id key : string) (interval : jsval) : string :=
  "The hook `" ++ id ++ "` is taking too long to load." ++ newline ++
  "Make sure it is triggering its `initialize()` callback, " ++
  "or else set `sails.config." ++ key ++
  "._hookTimeout to a higher value (currently " ++ to_string interval ++ ")".

Inductive halt : Type :=
| Uncaught (e : error)   (* an exception nobody catches *)
| Exit (code : Z).       (* process.exit(code) *)

(** The four operations a hook goes through. *)
Inductive op : Type := OpPrepare | OpDefaults | OpConfigure | OpLoad.

(** What a run does that can be observed, in the order it happens. *)
Inductive event : Type :=
| Call (o : op) (id : string)
    (* prepareHook(id), applyDefaults(hooks[id]), hooks[id].configure(),
       hooks[id].load(...) is entered *)
| Prepared (id : string)
    (* hooks[id] = new Hook(def) *)
| SetTimeout (h : nat) (id : string) (interval : jsval)
| Emit (name : string)
    (* sails.emit(name) *)
| Log (level : string) (msg : string)
| Cb (id : string) (err : option error)
    (* the callback the series task or the load stage made for this hook
       is invoked *)
| CallerCb (err : option error).
    (* the callback given to initializeHooks is invoked *)

Inductive timer_status : Type := Pending | Cleared | Fired.

Record timer : Type := {
  t_owner : string;
  t_interval : jsval;
  t_status : timer_status
}.

(** Where async.series stands. Tasks are numbered in the order of the
    keys of the object given to it: 0 moduleloader, 1 userconfig,
    2 userhooks, 3 validate, 4 prepare, 5 defaults, 6 configure, 7 load. *)
Inductive phase : Type :=
| Task (n : nat)      (* task n is the next to start *)
| Await (n : nat)     (* task n has started and not called back *)
| Loading (k : nat)   (* the load stage waits for k more callbacks *)
| Finished.           (* hooksReady has run *)

Record state : Type := {
  hooks : dict;               (* the registry, [hooks] *)
  config : jsval;             (* [sails.config] *)
  timers : list timer;        (* the host's timers; a handle is an index *)
  hookTimeouts : list nat;    (* the array [hookTimeouts] *)
  inflight : list (string * option nat);
    (* load calls that have not called back: id, and the timer that
       guards the call *)
  stage : phase;
  todo : list string;         (* ids the load stage has not started yet *)
  called : list string;       (* callbacks async has seen invoked *)
  ticks : list string;
    (* callbacks deferred with process.nextTick that have not run yet,
       by the id of their hook, oldest first *)
  halted : option halt;
  log : list event            (* newest first *)
}.

Definition trace (s : state) : list event := rev (log s).

Definition with_hooks (x : dict) (s : state) : state :=
  {| hooks := x; config := config s; timers := timers s;
     hookTimeouts := hookTimeouts s; inflight := inflight s; stage := stage s;
     todo := todo s; called := called s; ticks := ticks s; halted := halted s;
     log := log s |}.
Definition with_config (x : jsval) (s : state) : state :=
  {| hooks := hooks s; config := x; timers := timers s;
     hookTimeouts := hookTimeouts s; inflight := inflight s; stage := stage s;
     todo := todo s; called := called s; ticks := ticks s; halted := halted s;
     log := log s |}.
Definition with_timers (x : list timer) (s : state) : state :=
  {| hooks := hooks s; config := config s; timers := x;
     hookTimeouts := hookTimeouts s; inflight := inflight s; stage := stage s;
     todo := todo s; called := called s; ticks := ticks s; halted := halted s;
     log := log s |}.
Definition with_hookTimeouts (x : list nat) (s : state) : state :=
  {| hooks := hooks s; config := config s; timers := timers s;
     hookTimeouts := x; inflight := inflight s; stage := stage s;
     todo := todo s; called := called s; ticks := ticks s; halted := halted s;
     log := log s |}.
Definition with_inflight (x : list (string * option nat)) (s : state) : state :=
  {| hooks := hooks s; config := config s; timers := timers s;
     hookTimeouts := hookTimeouts s; inflight := x; stage := stage s;
     todo := todo s; called := called s; ticks := ticks s; halted := halted s;
     log := log s |}.
Definition with_stage (x : phase) (s : state) : state :=
  {| hooks := hooks s; config := config s; timers := timers s;
     hookTimeouts := hookTimeouts s; inflight := inflight s; stage := x;
     todo := todo s; called := called s; ticks := ticks s; halted := halted s;
     log := log s |}.
Definition with_todo (x : list string) (s : state) : state :=
  {| hooks := hooks s; config := config s; timers := timers s;
     hookTimeouts := hookTimeouts s; inflight := inflight s; stage := stage s;
     todo := x; called := called s; ticks := ticks s; halted := halted s;
     log := log s |}.
Definition with_called (x : list string) (s : state) : state :=
  {| hooks := hooks s; config := config s; timers := timers s;
     hookTimeouts := hookTimeouts s; inflight := inflight s; stage := stage s;
     todo := todo s; called := x; ticks := ticks s; halted := halted s;
     log := log s |}.
Definition with_ticks (x : list string) (s : state) : state :=
  {| hooks := hooks s; config := config s; timers := timers s;
     hookTimeouts := hookTimeouts s; inflight := inflight s; stage := stage s;
     todo := todo s; called := called s; ticks := x; halted := halted s;
     log := log s |}.
Definition with_halted (x : option halt) (s : state) : state :=
  {| hooks := hooks s; config := config s; timers := timers s;
     hookTimeouts := hookTimeouts s; inflight := inflight s; stage := stage s;
     todo := todo s; called := called s; ticks := ticks s; halted := x;
     log := log s |}.
Definition with_log (x : list event) (s : state) : state :=
  {| hooks := hooks s; config := config s; timers := timers s;
     hookTimeouts := hookTimeouts s; inflight := inflight s; stage := stage s;
     todo := todo s; called := called s; ticks := ticks s; halted := halted s;
     log := x |}.

(** *** A state monad with exceptions and process exit *)

Inductive result (A : Type) : Type :=
| Ok (a : A) (s : state)
| Halt (h : halt) (s : state).
Arguments Ok {A} a s.
Arguments Halt {A} h s.

Definition M (A : Type) : Type := state -> result A.

Definition ret {A} (a : A) : M A := fun s => Ok a s.

Definition bind {A B} (m : M A) (f : A -> M B) : M B :=
  fun s => match m s with
           | Ok a s' => f a s'
           | Halt h s' => Halt h s'
           end.

Declare Scope loader_scope.
Delimit Scope loader_scope with loader.
Notation "x <- m ;; k" := (bind m (fun x => k))
  (at level 61, m at next level, right associativity) : loader_scope.
Notation "m ;; k" := (bind m (fun _ => k))
  (at level 61, right associativity) : loader_scope.
#[local] Open Scope loader_scope.

Definition get : M state := fun s => Ok s s.
Definition modify (f : state -> state) : M unit := fun s => Ok tt (f s).
Definition throw {A} (e : error) : M A := fun s => Halt (Uncaught e) s.
Definition process_exit {A} (code : Z) : M A := fun s => Halt (Exit code) s.

(** [try { m } catch (e) { handler(e) }]: an exit is not an exception. *)
Definition try_catch (m : M unit) (handler : error -> M unit) : M unit :=
  fun s => match m s with
           | Halt (Uncaught e) s' => handler e s'
           | r => r
           end.

Definition tell (e : event) : M unit := modify (fun s => with_log (e :: log s) s).

(** A property read that throws a TypeError on [undefined] and [null]. *)
Definition getp (v : jsval) (k : string) : M jsval :=
  match get_prop v k with Some x => ret x | None => throw TypeError end.
Definition setp (v : jsval) (k : string) (x : jsval) : M jsval :=
  match set_prop v k x with Some v' => ret v' | None => throw TypeError end.
Definition delp (v : jsval) (k : string) : M jsval :=
  match delete_prop v k with Some v' => ret v' | None => throw TypeError end.

Definition returned (r : jsval + jsval) : M jsval :=
  match r with inl v => ret v | inr e => throw (Raised e) end.

Fixpoint for_each {A} (l : list A) (f : A -> M unit) : M unit :=
  match l with
  | [] => ret tt
  | x :: r => f x ;; for_each r f
  end.

(** [cb(err)], the callback of [initializeHooks]. *)
Definition caller_cb (err : option error) : M unit := tell (CallerCb err).

(** [hooksReady(err)]: the series is over. *)
Definition hooksReady (err : option error) : M unit :=
  caller_cb err ;; modify (with_stage Finished).

(** *** The helpers of initializeHooks *)

Section Helpers.

Variable w : world.

(** [prepareHook(id)] *)
Definition prepareHook (id : string) : M unit :=
  tell (Call OpPrepare id) ;;
  s <- get ;;
  let hookPrototype := read (hooks s) id in
  (* Allow disabling of hooks by setting them to "false" *)
  if is_false hookPrototype || is_false_string hookPrototype
     || is_false (read (hooks s) (split_head id))
  then modify (fun s => with_hooks (remove id (hooks s)) s)
  (* Check for invalid hook config *)
  else if truthy (read (hooks s) "userconfig")
          && negb (truthy (read (hooks s) "moduleloader"))
  then caller_cb (Some InvalidConfiguration)
  else
    (* Handle folder-defined modules (default to index.js) *)
    hookPrototype <-
      (if isObject hookPrototype && negb (isArray hookPrototype)
          && negb (isFunction hookPrototype)
       then getp hookPrototype "index"
       else ret hookPrototype) ;;
    match hookPrototype with
    | JFun fn props =>
        (* Instantiate the hook *)
        def <- returned (call_factory w fn) ;;
        (* Mix in an `identity` property to hook definition *)
        def <- setp def "identity" (JStr (toLowerCase w id)) ;;
        identity <- getp def "identity" ;;
        def <- setp def "configKey" (js_or (read props "configKey") identity) ;;
        (* New up an actual Hook instance *)
        hook <- returned (new_Hook w def) ;;
        modify (fun s => with_hooks (assign id hook (hooks s)) s) ;;
        tell (Prepared id)
    | _ =>
        tell (Log "error" ("Malformed hook! (" ++ id ++ ")")) ;;
        tell (Log "error" "Hooks should be a function with one argument (`sails`)") ;;
        process_exit 1
    end.

(** [applyDefaults(hooks[id])].  Every call site passes the registry
    entry of an id, and the function writes into the object it is given:
    the entry is read from the registry and the rewritten [defaults] is
    written back to it.  When [hook.defaults] is not a function the local
    [defaults] is the very object [hook.defaults], so the rewrite of the
    placeholder key shows in what is merged; when it is a function,
    [defaults] is the object the call returned and the rewrite does not
    reach it. *)
Definition applyDefaults (id : string) : M unit :=
  tell (Call OpDefaults id) ;;
  s <- get ;;
  let hook := read (hooks s) id in
  (* Get the hook defaults *)
  hook_defaults <- getp hook "defaults" ;;
  resolved <-
    match hook_defaults with
    | JFun fn _ => returned (call_defaults w fn (config s))
    | _ => ret hook_defaults
    end ;;
  let defaults := js_or resolved (JObj []) in
  (* Replace the special __configKey__ key with the actual config key *)
  placeholder <- getp hook_defaults "__configKey__" ;;
  configKey <- getp hook "configKey" ;;
  defaults <-
    (if truthy placeholder && truthy configKey then
       d <- setp hook_defaults (to_string configKey) placeholder ;;
       d <- delp d "__configKey__" ;;
       hook' <- setp hook "defaults" d ;;
       modify (fun s => with_hooks (assign id hook' (hooks s)) s) ;;
       ret (if isFunction hook_defaults then defaults else d)
     else ret defaults) ;;
  modify (fun s => with_config (defaultsDeep (config s) defaults) s).

(** [hooks[id].configure()] *)
Definition configure (id : string) : M unit :=
  tell (Call OpConfigure id) ;;
  s <- get ;;
  f <- getp (read (hooks s) id) "configure" ;;
  match f with
  | JFun fn _ =>
      match call_configure w fn (config s) with
      | inl c => modify (with_config c)
      | inr e => throw (Raised e)
      end
  | _ => throw TypeError
  end.

(** [hooks[id].configKey || id] *)
Definition config_key (hook : jsval) (id : string) : option jsval :=
  match get_prop hook "configKey" with
  | Some k => Some (js_or k (JStr id))
  | None => None
  end.

(** The first line of [loadHook]:
    [(sails.config[k] && sails.config[k]._hookTimeout)
     || sails.config.hookTimeout || 20000]
    with [k = hooks[id].configKey || id]. *)
Definition timeoutInterval (cfg hook : jsval) (id : string) : option jsval :=
  match config_key hook id with
  | None => None
  | Some k =>
      match get_prop cfg (to_string k) with
      | None => None
      | Some section =>
          match (if truthy section then get_prop section "_hookTimeout"
                 else Some section) with
          | None => None
          | Some own =>
              match get_prop cfg "hookTimeout" with
              | None => None
              | Some shared => Some (js_or (js_or own shared) (JNum 20000))
              end
          end
      end
  end.

(** [clearTimeout(h)] *)
Definition clear (h : nat) (ts : list timer) : list timer :=
  match nth_error ts h with
  | Some t =>
      match t_status t with
      | Pending =>
          firstn h ts ++
          {| t_owner := t_owner t; t_interval := t_interval t;
             t_status := Cleared |} :: skipn (S h) ts
      | _ => ts
      end
  | None => ts
  end.

Definition clearTimeout (h : nat) : M unit :=
  modify (fun s => with_timers (clear h (timers s)) s).

Definition fire (h : nat) (ts : list timer) : list timer :=
  match nth_error ts h with
  | Some t =>
      firstn h ts ++
      {| t_owner := t_owner t; t_interval := t_interval t;
         t_status := Fired |} :: skipn (S h) ts
  | None => ts
  end.

(** The series task that owns the callback made for [id]: the three
    bootstrap tasks each make one; every other id gets its callback from
    the load stage. *)
Definition task_of (id : string) : option nat :=
  if String.eqb id "moduleloader" then Some 0
  else if String.eqb id "userconfig" then Some 1
  else if String.eqb id "userhooks" then Some 2
  else None.

(** What async does when the callback it made for hook [id] is invoked.
    A second invocation throws.  A first one, when it is the callback of
    a bootstrap task, ends the series on an error and otherwise lets the
    next task start; when it is a callback of the load stage, it ends the
    series on the first error and on the last success, and is disregarded
    once the series has ended. *)
Definition hook_cb (id : string) (err : option error) : M unit :=
  tell (Cb id err) ;;
  s <- get ;;
  if existsb (String.eqb id) (called s) then throw AlreadyCalled
  else
    modify (fun s => with_called (id :: called s) s) ;;
    match task_of id, stage s with
    | Some n, Await m =>
        if Nat.eqb n m then
          match err with
          | None => modify (with_stage (Task (S n)))
          | Some e => hooksReady (Some e)
          end
        else ret tt
    | None, Loading k =>
        match err with
        | None =>
            if Nat.leb k 1 then hooksReady None
            else modify (with_stage (Loading (k - 1)))
        | Some e => hooksReady (Some e)
        end
    | _, _ => ret tt
    end.

(** [loadHook(id, cb)] up to the point where [hooks[id].load] has been
    called; what [load] does with the callback is up to the hook. *)
Definition loadHook (id : string) : M unit :=
  s <- get ;;
  let hook := read (hooks s) id in
  timeoutInterval <-
    match timeoutInterval (config s) hook id with
    | Some v => ret v
    | None => throw TypeError
    end ;;
  hookTimeout <-
    (if negb (String.eqb id "userhooks") then
       let h := List.length (timers s) in
       modify (fun s =>
         with_hookTimeouts (hookTimeouts s ++ [h])
           (with_timers (timers s ++ [{| t_owner := id;
                                         t_interval := timeoutInterval;
                                         t_status := Pending |}]) s)) ;;
       tell (SetTimeout h id timeoutInterval) ;;
       ret (Some h)
     else ret None) ;;
  load <- getp hook "load" ;;
  match load with
  | JFun _ _ =>
      tell (Call OpLoad id) ;;
      modify (fun s => with_inflight (inflight s ++ [(id, hookTimeout)]) s)
  | _ => throw TypeError
  end.

(** [tooLong], the function given to [setTimeout], for the timer [h] that
    [loadHook(id, cb)] created. *)
Definition tooLong (id : string) (interval : jsval) : M unit :=
  s <- get ;;
  match config_key (read (hooks s) id) id with
  | None => throw TypeError
  | Some k => hook_cb id (Some (HookTimeout id (to_string k) interval))
  end.

(** The function [loadHook(id, cb)] hands to [hooks[id].load], called
    with [err]; [hookTimeout] is the timer of that [loadHook] call. *)
Definition loaded (id : string) (hookTimeout : option nat) (err : jsval) : M unit :=
  (if negb (String.eqb id "userhooks") then
     match hookTimeout with Some h => clearTimeout h | None => ret tt end
   else ret tt) ;;
  if truthy err then
    (* Clear all hook timeouts so that the process doesn't hang because
       something is waiting for this failed hook to load. *)
    s <- get ;;
    for_each (hookTimeouts s) clearTimeout ;;
    (if negb (String.eqb id "userhooks") then
       tell (Log "error" ("A hook (`" ++ id ++ "`) failed to load!"))
     else ret tt) ;;
    tell (Emit ("hook:" ++ id ++ ":error")) ;;
    hook_cb id (Some (Raised err))
  else
    tell (Log "verbose" (id ++ " hook loaded successfully.")) ;;
    tell (Emit ("hook:" ++ id ++ ":loaded")) ;;
    (* Defer to next tick to allow other stuff to happen *)
    modify (fun s => with_ticks (ticks s ++ [id]) s).

(** The callback that [process.nextTick(cb)] deferred for [id] runs. *)
Definition tick (id : string) : M unit := hook_cb id None.

End Helpers.

(** *** The series of tasks *)

Section Series.

Variable w : world.

(** The three bootstrap tasks, [moduleloader], [userconfig] and
    [userhooks], are the same function of the id. *)
Definition bootTask (id : string) : M unit :=
  s <- get ;;
  if negb (truthy (read (hooks s) id)) then hook_cb id None
  else
    prepareHook w id ;;
    applyDefaults w id ;;
    configure w id ;;
    loadHook id.

Definition controllers_notice : list string :=
  [ "================================================================================="
  ; "Ignoring `controllers` hook:"
  ; "As of Sails v1, `controllers` can no longer be disabled/enabled as hooks."
  ; "Instead, Sails core now understands controller actions as first-class citizens."
  ; "See the Sails v1.0 upgrade guide: http://sailsjs.com/upgrading"
  ; "=================================================================================" ].

Definition validate : M unit :=
  s <- get ;;
  (if truthy (read (hooks s) "controllers") then
     for_each controllers_notice (fun l => tell (Log "debug" l)) ;;
     modify (fun s => with_hooks (remove "controllers" (hooks s)) s)
   else ret tt) ;;
  modify (with_stage (Task 4)).

(** [_.without(_.keys(hooks), 'userconfig', 'moduleloader', 'userhooks')] *)
Definition others (s : state) : list string := without_bootstrap (keys (hooks s)).

(** The stages [prepare] and [defaults]: async.each calls the iteratee on
    every id in turn; each iteratee runs its helper and defers its
    callback to the next tick, so the stage is over once the loop is. *)
Definition prepare : M unit :=
  s <- get ;;
  for_each (others s) (prepareHook w) ;;
  modify (with_stage (Task 5)).

Definition defaults : M unit :=
  s <- get ;;
  for_each (others s) (applyDefaults w) ;;
  modify (with_stage (Task 6)).

(** The stage [configure]: what a [configure] throws goes to the
    iteratee's callback.  The first such error ends the series; the loop
    goes on over the remaining ids all the same. *)
Definition configureAll : M unit :=
  s <- get ;;
  for_each (others s) (fun id =>
    try_catch (configure w id) (fun e =>
      s <- get ;;
      match stage s with
      | Finished => ret tt
      | _ => hooksReady (Some e)
      end)) ;;
  s <- get ;;
  match stage s with
  | Finished => ret tt
  | _ => modify (with_stage (Task 7))
  end.

(** The stage [load]: the loop over the ids is left in [todo], one
    [loadHook] per step, so that a [load] that calls back at once can be
    told from one that calls back later.  The steps of the host may come
    between two iterations here; the host itself lets the loop finish
    first, so every run of the host is a run of the model. *)
Definition loadAll : M unit :=
  s <- get ;;
  match others s with
  | [] => hooksReady None
  | ids => modify (fun s => with_todo ids (with_stage (Loading (List.length ids)) s))
  end.

Definition run_task (n : nat) : M unit :=
  match n with
  | 0 => modify (with_stage (Await 0)) ;; bootTask "moduleloader"
  | 1 => modify (with_stage (Await 1)) ;; bootTask "userconfig"
  | 2 => modify (with_stage (Await 2)) ;; bootTask "userhooks"
  | 3 => validate
  | 4 => prepare
  | 5 => defaults
  | 6 => configureAll
  | 7 => loadAll
  | _ => hooksReady None
  end.

(** *** Steps *)

(** What a hook's [load] may have done by the time it calls back: the
    error it reports ([undefined] for none), the hooks it has put into
    the registry (the [userhooks] hook does), the configuration it leaves
    (the [userconfig] hook writes it). *)
Record completion : Type := {
  c_err : jsval;
  c_hooks : dict;
  c_config : option jsval
}.

Inductive label : Type :=
| Advance
    (* the loader goes on: the next [loadHook] of the load stage if the
       loop is not over, the next task of the series otherwise *)
| TimerFires (h : nat)
    (* the host runs the function given to setTimeout *)
| LoadCalls (id : string) (c : completion)
    (* [hooks[id].load] invokes the callback it was given *)
| Tick.
    (* the host runs the oldest callback deferred with process.nextTick;
       it does so only when the code that was running has returned, so
       not while the load loop has ids to go.  The host runs it before
       it handles a timer or a completion; the steps here may come in
       any order, so that every run of the host is a run of the model *)

Fixpoint take_inflight (id : string) (l : list (string * option nat))
  : option (option nat * list (string * option nat)) :=
  match l with
  | [] => None
  | (id', h) :: r =>
      if String.eqb id id' then Some (h, r)
      else match take_inflight id r with
           | Some (h', r') => Some (h', (id', h) :: r')
           | None => None
           end
  end.

Definition settle (r : result unit) : state :=
  match r with
  | Ok _ s => s
  | Halt h s => with_halted (Some h) s
  end.

(** One step; [None] when the step cannot happen in this state. *)
Definition exec (l : label) (s : state) : option state :=
  match halted s with
  | Some _ => None
  | None =>
      match l with
      | Advance =>
          match todo s with
          | id :: rest =>
              Some (settle
                ((modify (with_todo rest) ;;
                  tell (Log "silly" ("Loading hook: " ++ id)) ;;
                  loadHook id) s))
          | [] =>
              match stage s with
              | Task n => Some (settle (run_task n s))
              | _ => None
              end
          end
      | TimerFires h =>
          match nth_error (timers s) h with
          | Some t =>
              match t_status t with
              | Pending =>
                  Some (settle
                    ((modify (fun s => with_timers (fire h (timers s)) s) ;;
                      tooLong (t_owner t) (t_interval t)) s))
              | _ => None
              end
          | None => None
          end
      | LoadCalls id c =>
          match take_inflight id (inflight s) with
          | Some (h, rest) =>
              Some (settle
                ((modify (fun s =>
                    with_inflight rest
                      (with_hooks
                         (fold_left (fun d kv => assign (fst kv) (snd kv) d)
                                    (c_hooks c) (hooks s))
                         (match c_config c with
                          | Some cfg => with_config cfg s
                          | None => s
                          end))) ;;
                  loaded id h (c_err c)) s))
          | None => None
          end
      | Tick =>
          match todo s, ticks s with
          | [], id :: rest =>
              Some (settle ((modify (with_ticks rest) ;; tick id) s))
          | _, _ => None
          end
      end
  end.

Fixpoint run (ls : list label) (s : state) : option state :=
  match ls with
  | [] => Some s
  | l :: r => match exec l s with
              | Some s' => run r s'
              | None => None
              end
  end.

End Series.

(** [initializeHooks(hooks, cb)] on a fresh [sails]. *)
Definition init (hs : dict) (cfg : jsval) : state :=
  {| hooks := hs; config := cfg; timers := []; hookTimeouts := [];
     inflight := []; stage := Task 0; todo := []; called := []; ticks := [];
     halted := None; log := [] |}.

End Loader.
Import Loader.

(* ===================================================================== *)
(** ** Sample applications *)
(* ===================================================================== *)

Module Samples.

(** A hook definition with the three members, as a factory returns it. *)
Definition definition (defaults : jsval) : jsval :=
  JObj [("defaults", defaults); ("configure", JFun 100 []); ("load", JFun 101 [])].

(** Lower case for the ids of the samples, which are ASCII. *)
Definition lower_ascii (c : ascii) : ascii :=
  let n := nat_of_ascii c in
  if andb (Nat.leb 65 n) (Nat.leb n 90) then ascii_of_nat (n + 32) else c.

Fixpoint lower (s : string) : string :=
  match s with
  | EmptyString => EmptyString
  | String c r => String (lower_ascii c) (lower r)
  end.

(** An application whose factories all return a definition with empty
    defaults and whose [configure] leaves the configuration alone.  The
    function numbered 7, called for defaults, returns a dictionary that
    uses the placeholder key.

    Modelled from the spec: the Hook constructor of lib/hooks, whose code
    is not in this file.  The spec's words: a Hook is the normalized
    entity [{identity, configKey, defaults, configure, load, state}]; the
    constructor here keeps those members of the definition as they are. *)
Definition app : world := {|
  call_factory := fun _ => inl (definition (JObj []));
  toLowerCase := lower;
  new_Hook := fun def => inl def;
  call_defaults := fun fn _ =>
    inl (if Nat.eqb fn 7
         then JObj [("__configKey__", JObj [("a", JNum 1)])]
         else JObj []);
  call_configure := fun _ cfg => inl cfg
|}.

(** A [load] that calls back without an error, and one that reports
    the error ['boom']. *)
Definition done : completion :=
  {| c_err := JUndef; c_hooks := []; c_config := None |}.
Definition failed : completion :=
  {| c_err := JStr "boom"; c_hooks := []; c_config := None |}.

Definition factory : jsval := JFun 1 [].

(** A prepared hook as [app] makes it. *)
Definition hook (id : string) (defaults : jsval) : jsval :=
  JObj [("defaults", defaults); ("configure", JFun 100 []);
        ("load", JFun 101 []); ("identity", JStr id); ("configKey", JStr id)].

Definition advance (n : nat) : list label := repeat Advance n.

(** The final state of a run, or the initial one if some step of the
    run cannot happen. *)
Definition final (w : world) (ls : list label) (hs : dict) (cfg : jsval) : state :=
  match run w ls (init hs cfg) with
  | Some s => s
  | None => init hs cfg
  end.

(** A configuration that gives the hook [foo] 50 time units to load. *)
Definition fifty : jsval := JObj [("foo", JObj [("_hookTimeout", JNum 50)])].

(** The run of the registry [{foo: factory}] up to the point where
    [load] of [foo] has been called and has not called back. *)
Definition foo_loading : state :=
  final app (advance 9) [("foo", factory)] fifty.

(** The run of the registry [{a: factory, b: factory}] up to the point
    where both loads have been called and neither has called back. *)
Definition both_loading : list label := advance 10.
Definition two_hooks : dict := [("a", factory); ("b", factory)].

(** A registry with the three bootstrap hooks and one more, and a run
    of it in which every load calls back without an error. *)
Definition full_registry : dict :=
  [("a", factory); ("userhooks", factory); ("userconfig", factory);
   ("moduleloader", factory)].

Definition full_run : list label :=
  [Advance; LoadCalls "moduleloader" done; Tick;
   Advance; LoadCalls "userconfig" done; Tick;
   Advance; LoadCalls "userhooks" done; Tick]
  ++ advance 6 ++ [LoadCalls "a" done; Tick].

End Samples.

(* ===================================================================== *)
(** ** Vocabulary of the properties *)
(* ===================================================================== *)

Module Props.

(** The hook's own timeout setting, [sails.config[key]._hookTimeout],
    read as [undefined] when there is no section to read it from. *)
Definition own_timeout (cfg : dict) (key : string) : jsval :=
  match get_prop (read cfg key) "_hookTimeout" with
  | Some v => v
  | None => JUndef
  end.

(** The state a computation leaves, however it ends. *)
Definition state_of {A} (r : result A) : state :=
  match r with Ok _ s => s | Halt _ s => s end.

(** The id an event is about, when it is a step in the life of a hook. *)
Definition touches (e : event) : option string :=
  match e with
  | Call _ id => Some id
  | Prepared id => Some id
  | SetTimeout _ id _ => Some id
  | _ => None
  end.

(** The number of bootstrap tasks that come before anything is done to
    [id]: none for [moduleloader], one for [userconfig], two for
    [userhooks], all three for every other hook. *)
Definition rank (id : string) : nat :=
  match task_of id with Some n => n | None => 3 end.

Definition boot (n : nat) : string := nth n bootstrap "".

Definition loaded_event (id : string) : event := Emit ("hook:" ++ id ++ ":loaded").

(** An error that says hook [id] took too long. *)
Definition is_timeout_of (id : string) (e : option error) : Prop :=
  exists key interval, e = Some (HookTimeout id key interval).

(** *** What a computation does to the state *)

(** The log grows by events that all satisfy [R]. *)
Definition adds (R : event -> Prop) (s s' : state) : Prop :=
  exists evs, log s' = evs ++ log s /\ Forall R evs.

(** The series, the load loop, the timers, the loads that have not
    called back and the deferred callbacks are where they were. *)
Definition same_control (s s' : state) : Prop :=
  stage s' = stage s /\ todo s' = todo s /\ timers s' = timers s /\
  inflight s' = inflight s /\ ticks s' = ticks s.

(** A relation between the state a computation starts in and the state
    it leaves, whether it returns, throws or exits. *)
Definition effect (Rel : state -> state -> Prop) {A} (m : M A) : Prop :=
  forall s, Rel s (state_of (m s)).

Definition quiet_rel (R : event -> Prop) (s s' : state) : Prop :=
  same_control s s' /\ adds R s s'.

(** A computation that only writes the registry, the configuration and
    events satisfying [R]. *)
Definition quiet (R : event -> Prop) {A} (m : M A) : Prop :=
  effect (quiet_rel R) m.

(** The events of prepareHook, applyDefaults and configure for [id]. *)
Definition quiet_event (id : string) (e : event) : Prop :=
  match e with
  | Call o id' => id' = id /\ o <> OpLoad
  | Prepared id' => id' = id
  | Log _ _ => True
  | CallerCb (Some InvalidConfiguration) => True
  | _ => False
  end.

(** What prepareHook, applyDefaults and configure log for [id] after the
    call itself. *)
Definition silent (id : string) (e : event) : Prop :=
  match e with
  | Prepared id' => id' = id
  | Log _ _ => True
  | CallerCb (Some InvalidConfiguration) => True
  | _ => False
  end.

(** The events of loadHook for [id]. *)
Definition load_event (id : string) (e : event) : Prop :=
  match e with
  | Call OpLoad id' => id' = id
  | SetTimeout _ id' _ => id' = id /\ id <> "userhooks"
  | _ => False
  end.

(** The events around the invocation, with [err], of the callback made
    for [id]. *)
Definition callback_event (id : string) (err : option error) (e : event) : Prop :=
  match e with
  | Log _ _ | Emit _ => True
  | Cb id' err' => id' = id /\ err' = err
  | CallerCb err' => err' = err
  | _ => False
  end.

(** How the invocation, with [err], of the callback made for [id] moves
    the series. *)
Definition stage_move (id : string) (err : option error) (p p' : phase) : Prop :=
  p' = p \/ p' = Finished \/
  (exists n, task_of id = Some n /\ err = None /\ p = Await n /\ p' = Task (S n)) \/
  (exists k k', task_of id = None /\ p = Loading k /\ p' = Loading k').

(** The events of a step all belong to the hooks of one rank. *)
Definition level (r : nat) (e : event) : Prop :=
  match touches e with Some id => rank id = r | None => True end.

(** An exception of the kind a hook's code or a property read throws. *)
Definition plain_error (e : error) : Prop :=
  match e with
  | TypeError | Raised _ => True
  | _ => False
  end.

(** Clearing timers changes no owner, no stage, no event. *)
Definition clears (s s' : state) : Prop :=
  stage s' = stage s /\ todo s' = todo s /\ log s' = log s /\
  called s' = called s /\ inflight s' = inflight s /\
  map t_owner (timers s') = map t_owner (timers s).

(** New timers, none of them for [userhooks]. *)
Definition grows (s s' : state) : Prop :=
  exists ts, timers s' = timers s ++ ts /\
             Forall (fun t => t_owner t <> "userhooks") ts.

(** A stretch of work inside one task: the series stays where it is. *)
Definition batch (R : event -> Prop) (s s' : state) : Prop :=
  stage s' = stage s /\ todo s' = todo s /\ grows s s' /\ adds R s s'.

(** A stage that runs to its end in one go: the series stays where it
    is or moves to a phase satisfying [P]. *)
Definition staged (P : phase -> Prop) (R : event -> Prop) (s s' : state) : Prop :=
  (stage s' = stage s \/ P (stage s')) /\
  todo s' = todo s /\ timers s' = timers s /\ adds R s s'.

(** The events of the stages that go over the hooks other than the
    bootstrap ones. *)
Definition stage_event (e : event) : Prop :=
  (exists id, task_of id = None /\ quiet_event id e) \/
  (exists err, plain_error err /\ e = CallerCb (Some err)).

(** *** The order of the bootstrap tasks, on the log (newest first) *)

(** Bootstrap task [k] is over and was not a failure: its callback was
    invoked without an error; if the hook's [load] had been called, the
    hook has been announced as loaded; and the hook has gone through all
    of prepareHook, applyDefaults, configure and load, or through none
    of them. *)
Definition resolved (k : nat) (l : list event) : Prop :=
  In (Cb (boot k) None) l /\
  (In (Call OpLoad (boot k)) l -> In (loaded_event (boot k)) l) /\
  (forall o, In (Call o (boot k)) l -> forall o', In (Call o' (boot k)) l).

(** Bootstrap task [k] has not done anything to its hook. *)
Definition fresh (k : nat) (l : list event) : Prop :=
  forall o, ~ In (Call o (boot k)) l.

(** Whatever is done to a hook is done after every bootstrap task that
    comes before it is resolved. *)
Fixpoint ordered (l : list event) : Prop :=
  match l with
  | [] => True
  | e :: older =>
      ordered older /\
      forall id, touches e = Some id ->
        forall k, k < rank id -> resolved k older
  end.

(** No timer is set for [userhooks] and no error says it took too long. *)
Definition no_userhooks_timeout (e : event) : Prop :=
  match e with
  | SetTimeout _ id _ => id <> "userhooks"
  | Cb _ (Some (HookTimeout id _ _)) => id <> "userhooks"
  | CallerCb (Some (HookTimeout id _ _)) => id <> "userhooks"
  | _ => True
  end.

Definition no_userhooks_error (err : option error) : Prop :=
  match err with
  | Some (HookTimeout id _ _) => id <> "userhooks"
  | _ => True
  end.

(** The series has left the bootstrap tasks behind for good. *)
Definition past_boot (p : phase) : Prop :=
  match p with Loading _ | Finished => True | _ => False end.

(** The calls a list of events makes, in the order of the list. *)
Definition calls (l : list event) : list (op * string) :=
  flat_map (fun e => match e with Call o id => [(o, id)] | _ => [] end) l.

(** Those of them that are made for [id]. *)
Definition calls_of (id : string) (l : list event) : list (op * string) :=
  filter (fun c => String.eqb (snd c) id) (calls l).

(** The four calls of a bootstrap task, in the order bootTask makes
    them. *)
Definition sequence_of (id : string) : list (op * string) :=
  [(OpPrepare, id); (OpDefaults, id); (OpConfigure, id); (OpLoad, id)].

(** On a log (newest first), the calls made for [id] so far are the
    first ones of that sequence. *)
Definition in_sequence (id : string) (l : list event) : Prop :=
  exists rest, calls_of id (rev l) ++ rest = sequence_of id.

(** No number is followed by a larger one. *)
Fixpoint descending (l : list nat) : Prop :=
  match l with
  | [] => True
  | r :: older => Forall (fun r' => r' <= r) older /\ descending older
  end.

(** The ranks of the hooks a list of events touches, in the order of
    the list. *)
Definition touch_ranks (l : list event) : list nat :=
  flat_map (fun e => match touches e with
                     | Some id => [rank id]
                     | None => []
                     end) l.

(** On a log (newest first), the hooks are touched in the order of
    their ranks, none of a rank above [n]. *)
Definition lined_up (n : nat) (l : list event) : Prop :=
  Forall (fun r => r <= n) (touch_ranks l) /\ descending (touch_ranks l).

(** The highest rank the series has had to do with in phase [p]. *)
Definition reach (p : phase) : nat :=
  match p with
  | Task n | Await n => Nat.min n 3
  | Loading _ | Finished => 3
  end.

(** What holds of every state a run reaches. *)
Record invariant (s : state) : Prop := {
  inv_timers : Forall (fun t => t_owner t <> "userhooks") (timers s);
  inv_events : Forall no_userhooks_timeout (log s);
  inv_ordered : ordered (log s);
  inv_resolved :
    forall k, k < 3 ->
      match stage s with
      | Task n | Await n => k < n -> resolved k (log s)
      | Loading _ => resolved k (log s)
      | Finished => True
      end;
  inv_fresh :
    forall k, k < 3 ->
      match stage s with
      | Task n => n <= k -> fresh k (log s)
      | Await n => n < k -> fresh k (log s)
      | _ => True
      end;
  inv_todo :
    todo s = [] \/
    (past_boot (stage s) /\
     Forall (fun id => task_of id = None) (todo s) /\
     forall k, k < 3 -> resolved k (log s));
  inv_line : lined_up (reach (stage s)) (log s);
  inv_calls : forall k, k < 3 -> in_sequence (boot k) (log s)
}.

(** The [load] of [id] has been called, after the three other
    operations if the hook is a bootstrap hook. *)
Definition launched (id : string) (l : list event) : Prop :=
  In (Call OpLoad id) l /\
  (is_bootstrap id = true -> forall o, In (Call o id) l).

(** What is known of the loads that have not called back and of the
    callbacks that wait for the next tick. *)
Record pending (s : state) : Prop := {
  pend_flights :
    forall id h, In (id, h) (inflight s) -> launched id (log s);
  pend_ticks :
    forall id, In id (ticks s) ->
      launched id (log s) /\ In (loaded_event id) (log s)
}.

(** The timer with handle [h] is not pending (or there is none). *)
Definition settled (ts : list timer) (h : nat) : Prop :=
  forall t, nth_error ts h = Some t -> t_status t <> Pending.

(** Late completions as the specification words them, on a trace: once the callback of
    [id] has been invoked with a timeout error, the hook is not announced
    as loaded and its callback is not invoked again. *)
Definition completion_ignored_after_timeout (tr : list event) (id : string) : Prop :=
  forall pre post err,
    tr = pre ++ Cb id err :: post -> is_timeout_of id err ->
    ~ In (loaded_event id) post /\ forall err', ~ In (Cb id err') post.

End Props.
Import Props.

(* ===================================================================== *)
(** ** Vocabulary of the further properties *)
(* ===================================================================== *)

Module More.

(** The test of prepareHook that makes it delete [id]. *)
Definition disabled (hs : dict) (id : string) : bool :=
  is_false (read hs id) || is_false_string (read hs id)
  || is_false (read hs (split_head id)).

(** The test of prepareHook that makes it report a configuration error. *)
Definition invalid_configuration (hs : dict) : bool :=
  truthy (read hs "userconfig") && negb (truthy (read hs "moduleloader")).

(** The definition prepareHook goes on with: the [index] member of a
    plain object (a folder-defined module), the definition itself
    otherwise. *)
Definition effective (v : jsval) : jsval :=
  match v with
  | JObj fs => read fs "index"
  | _ => v
  end.

(** The definition prepareHook hands to the Hook constructor for [id],
    made from the object [def] the factory returned and the properties
    [props] of the factory. *)
Definition stamped (w : world) (id : string) (props def : dict) : dict :=
  assign "configKey" (js_or (read props "configKey") (JStr (toLowerCase w id)))
    (assign "identity" (JStr (toLowerCase w id)) def).

(** The two lines prepareHook logs for a malformed hook. *)
Definition malformed_log (id : string) : list event :=
  [ Log "error" "Hooks should be a function with one argument (`sails`)";
    Log "error" ("Malformed hook! (" ++ id ++ ")") ].

(** The lines the validate task logs, newest first. *)
Definition controllers_log : list event :=
  rev (map (Log "debug") controllers_notice).

(** A result of the series handed to the caller: success, or the error
    of a hook.  The configuration error, which prepareHook hands over
    itself, is not one. *)
Definition is_report (e : event) : bool :=
  match e with
  | CallerCb (Some InvalidConfiguration) => false
  | CallerCb _ => true
  | _ => false
  end.

Definition reports (l : list event) : nat := List.length (filter is_report l).

(** The series has reported at most once, and is over if it has. *)
Definition reported_once (s : state) : Prop :=
  reports (log s) = 0 \/ (reports (log s) = 1 /\ stage s = Finished).

(** Every timer of the host is in [hookTimeouts], in the order it was
    set. *)
Definition tracked (s : state) : Prop :=
  hookTimeouts s = seq 0 (List.length (timers s)).

(** The ids whose [load] (resp. [configure]) a list of events calls. *)
Definition loads (l : list event) : list string :=
  flat_map (fun e => match e with Call OpLoad id => [id] | _ => [] end) l.

Definition configures (l : list event) : list string :=
  flat_map (fun e => match e with Call OpConfigure id => [id] | _ => [] end) l.

(** A property of states that a computation keeps, whether it returns,
    throws or exits. *)
Definition keeps (I : state -> Prop) {A} (m : M A) : Prop :=
  forall s, I s -> I (state_of (m s)).

(** No timer is pending. *)
Definition all_settled (s : state) : Prop :=
  forall h, settled (timers s) h.

(** [_.each(hookTimeouts, clearTimeout)] on the host's timers. *)
Definition clear_all (hs : list nat) (ts : list timer) : list timer :=
  fold_left (fun ts h => clear h ts) hs ts.

(** The timers once the load callback of [id] has cleared the timer
    [h] that guards the call. *)
Definition own_cleared (id : string) (h : option nat) (ts : list timer) : list timer :=
  if negb (String.eqb id "userhooks")
  then match h with Some h0 => clear h0 ts | None => ts end
  else ts.

(** What the load callback passes on for the error it was called with. *)
Definition outcome (err : jsval) : option error :=
  if truthy err then Some (Raised err) else None.

(** What the load callback of [id] logs and emits, newest first. *)
Definition announcement (id : string) (err : jsval) : list event :=
  if truthy err then
    Emit ("hook:" ++ id ++ ":error")
    :: (if negb (String.eqb id "userhooks")
        then [Log "error" ("A hook (`" ++ id ++ "`) failed to load!")]
        else [])
  else
    [ Emit ("hook:" ++ id ++ ":loaded");
      Log "verbose" (id ++ " hook loaded successfully.") ].

(** The state the load callback of [id] leaves when it has cleared the
    timers and logged and emitted the outcome: the state in which it
    invokes the callback made for [id] with an error, or defers it. *)
Definition after_completion (id : string) (h : option nat) (err : jsval)
    (s : state) : state :=
  with_log (announcement id err ++ log s)
    (with_timers
       (if truthy err
        then clear_all (hookTimeouts s) (own_cleared id h (timers s))
        else own_cleared id h (timers s)) s).

(** The registry and the configuration a completion leaves behind. *)
Definition completed (c : completion) (rest : list (string * option nat))
    (s : state) : state :=
  with_inflight rest
    (with_hooks
       (fold_left (fun d kv => assign (fst kv) (snd kv) d) (c_hooks c) (hooks s))
       (match c_config c with
        | Some cfg => with_config cfg s
        | None => s
        end)).

(** The iteratee of the configure stage. *)
Definition configure_iteratee (w : world) (id : string) : M unit :=
  try_catch (configure w id) (fun e =>
    bind get (fun s =>
      match stage s with
      | Finished => ret tt
      | _ => hooksReady (Some e)
      end)).


(** The registry and the timers are where they were. *)
Definition same_hooks_and_timers (s s' : state) : Prop :=
  hooks s' = hooks s /\ timers s' = timers s /\ hookTimeouts s' = hookTimeouts s /\
  inflight s' = inflight s /\ todo s' = todo s.

(** The new events [evs] (newest first) of a configure stage that
    reported the error [e] of the hook [id]: the report comes right
    after the call, and is the only one. *)
Definition one_report (evs : list event) : Prop :=
  exists pre post id e,
    evs = post ++ CallerCb (Some e) :: Call OpConfigure id :: pre /\
    reports post = 0 /\ reports pre = 0 /\ plain_error e.

(** The series has reported [n] times and is in phase [p]. *)
Definition reported (n : nat) (p : phase) (s : state) : Prop :=
  reports (log s) = n /\ stage s = p.

Definition unreported (s : state) : Prop := reports (log s) = 0.

(** The registry has no new key, and the entries of the ids in [X] are
    what they were. *)
Definition spares (X : string -> Prop) (s s' : state) : Prop :=
  incl (keys (hooks s')) (keys (hooks s)) /\
  forall x, X x -> read (hooks s') x = read (hooks s) x.

(** The ids whose registry entry task [n] of the series has no business
    with: every id but its own for a bootstrap task, the bootstrap ids
    for the later ones. *)
Definition out_of_reach (n : nat) (x : string) : Prop :=
  if Nat.ltb n 3 then x <> boot n else is_bootstrap x = true.

(** The ids other than the bootstrap ones whose [load] a list of
    events calls. *)
Definition nb_loads (l : list event) : list string :=
  flat_map (fun e => match e with
                     | Call OpLoad id => if is_bootstrap id then [] else [id]
                     | _ => []
                     end) l.

(** An event that is neither such a call nor the report of success. *)
Definition inert (e : event) : Prop :=
  match e with
  | Call OpLoad id => is_bootstrap id = true
  | CallerCb None => False
  | _ => True
  end.

(** Nothing of the load stage has happened. *)
Definition before_loads (s : state) : Prop :=
  todo s = [] /\ nb_loads (log s) = [] /\ ~ In (CallerCb None) (log s).

(** Where the series stands with the hooks other than the bootstrap
    ones.  In the load stage the counter of outstanding callbacks covers
    the ids still to start and the loads called, less the hooks [done]
    whose callback came back without an error; once success has been
    reported, every load that was called is among them. *)
Definition on_course (s : state) : Prop :=
  match stage s with
  | Task _ | Await _ => before_loads s
  | Loading k =>
      ~ In (CallerCb None) (log s) /\
      Forall (fun id => is_bootstrap id = false) (todo s) /\
      exists done,
        NoDup done /\ incl done (called s) /\ incl done (nb_loads (log s)) /\
        Forall (fun id => In (Cb id None) (log s)) done /\
        List.length (todo s) + List.length (nb_loads (log s))
          <= k + List.length done
  | Finished =>
      In (CallerCb None) (log s) ->
      todo s = [] /\
      (forall id, In id (nb_loads (log s)) -> In (Cb id None) (log s)) /\
      (forall k, k < 3 -> In (Cb (boot k) None) (log s))
  end.

(** The loads called so far are [L] and the ids still to load [T]. *)
Definition loaded_as (L T : list string) (s : state) : Prop :=
  loads (log s) = L /\ todo s = T.

(** The registry is a JavaScript object: no key twice. *)
Definition unique_keys (s : state) : Prop := NoDup (keys (hooks s)).

(** No [load] was called twice, and none that was called is still to
    be called. *)
Definition no_reload (s : state) : Prop := NoDup (todo s ++ loads (log s)).

(** The place in the series of the stage that makes a call: prepare,
    defaults, configure, load. *)
Definition op_rank (o : op) : nat :=
  match o with
  | OpPrepare => 4
  | OpDefaults => 5
  | OpConfigure => 6
  | OpLoad => 7
  end.

(** The stages of the calls made for hooks other than the bootstrap
    ones, newest first. *)
Definition stage_ranks (l : list event) : list nat :=
  flat_map (fun e => match e with
                     | Call o id => if is_bootstrap id then [] else [op_rank o]
                     | _ => []
                     end) l.

(** The calls made so far belong to the stages up to [n], in the order
    of the stages. *)
Definition in_step (n : nat) (s : state) : Prop :=
  Forall (fun r => r <= n) (stage_ranks (log s)) /\
  descending (stage_ranks (log s)).

(** The stage the series has reached. *)
Definition bound (p : phase) : nat :=
  match p with
  | Task n | Await n => Nat.min n 7
  | Loading _ | Finished => 7
  end.

End More.
Import More.

(* ===================================================================== *)
(** ** Dictionaries *)
(* ===================================================================== *)

Section DictFacts.

Lemma lookup_assign (k k' : string) (v : jsval) (d : dict) :
  lookup k (assign k' v d) = if String.eqb k k' then Some v else lookup k d.
Proof.
  induction d as [|[k0 v0] r IH]; simpl.
  - destruct (String.eqb_spec k k'); reflexivity.
  - destruct (String.eqb_spec k' k0) as [->|Hne]; simpl.
    + destruct (String.eqb_spec k k0); reflexivity.
    + destruct (String.eqb_spec k k0) as [->|Hne'].
      * destruct (String.eqb_spec k0 k'); [congruence|reflexivity].
      * exact IH.
Qed.

Lemma assign_same (k : string) (v : jsval) (d : dict) :
  lookup k d = Some v -> assign k v d = d.
Proof.
  induction d as [|[k0 v0] r IH]; simpl; [discriminate|].
  destruct (String.eqb_spec k k0) as [->|Hne]; intros H.
  - congruence.
  - now rewrite IH.
Qed.

Lemma lookup_remove (k k' : string) (d : dict) :
  lookup k (remove k' d) = if String.eqb k k' then None else lookup k d.
Proof.
  induction d as [|[k0 v0] r IH]; simpl.
  - now destruct (String.eqb k k').
  - destruct (String.eqb_spec k' k0) as [->|Hne]; simpl.
    + rewrite IH. destruct (String.eqb_spec k k0); reflexivity.
    + destruct (String.eqb_spec k k0) as [->|Hne'].
      * destruct (String.eqb_spec k0 k'); [congruence|reflexivity].
      * exact IH.
Qed.

Lemma lookup_in_keys (k : string) (d : dict) :
  lookup k d <> None <-> In k (keys d).
Proof.
  induction d as [|[k0 v0] r IH]; simpl.
  - split; [congruence|tauto].
  - destruct (String.eqb_spec k k0) as [->|Hne].
    + split; [auto|congruence].
    + rewrite IH. split; [auto|]. intros [E|H]; [congruence|exact H].
Qed.

Lemma existsb_eqb_In (k : string) (l : list string) :
  existsb (String.eqb k) l = true <-> In k l.
Proof.
  rewrite existsb_exists. split.
  - intros (x & Hx & E). apply String.eqb_eq in E. now subst.
  - intros H. exists k. split; [exact H|apply String.eqb_refl].
Qed.

Lemma nodup_keys_lookup (d : dict) (k : string) (v : jsval) :
  nodup_keys (keys d) = true -> In (k, v) d -> lookup k d = Some v.
Proof.
  induction d as [|[k0 v0] r IH]; simpl; [tauto|].
  intros Hnd [E|Hin].
  - inversion E; subst. now rewrite String.eqb_refl.
  - apply andb_prop in Hnd as [Hk0 Hr].
    destruct (String.eqb_spec k k0) as [->|Hne].
    + exfalso. apply negb_true_iff in Hk0.
      assert (existsb (String.eqb k0) (keys r) = true) as Hex.
      { apply existsb_eqb_In. change (In (fst (k0, v)) (map fst r)).
        now apply in_map. }
      congruence.
    + now apply IH.
Qed.

Lemma wf_dict_unfold (fs : dict) :
  wf (JObj fs) = nodup_keys (keys fs) && forallb (fun kv => wf (snd kv)) fs.
Proof.
  simpl. f_equal. induction fs as [|[k v] r IH]; simpl; [reflexivity|].
  now rewrite IH.
Qed.

End DictFacts.

(* ===================================================================== *)
(** ** The defaults merge never overwrites and is idempotent *)
(* ===================================================================== *)

Section MergeFacts.

Lemma defaultsDeep_dict (ts ds : dict) :
  defaultsDeep (JObj ts) (JObj ds) = JObj (fill ds ts).
Proof.
  revert ts. induction ds as [|[k d] rest IH]; intros ts; [reflexivity|].
  simpl in IH |- *.
  destruct (lookup k ts); apply IH.
Qed.

Lemma defaultsDeep_leaf_defaults (t d : jsval) :
  is_dict d = false -> defaultsDeep t d = t.
Proof. destruct d; simpl; congruence || reflexivity. Qed.

(** A key the loop does not mention keeps its value. *)
Lemma lookup_fill_other (k : string) (ds ts : dict) :
  ~ In k (keys ds) -> lookup k (fill ds ts) = lookup k ts.
Proof.
  revert ts. induction ds as [|[k0 d] rest IH]; intros ts Hk; simpl; [reflexivity|].
  simpl in Hk. rewrite IH by tauto.
  assert (String.eqb k k0 = false) as Hne.
  { apply String.eqb_neq. intros ->. tauto. }
  destruct (lookup k0 ts); rewrite lookup_assign, Hne; reflexivity.
Qed.

(** What the loop does to a key the target already has: every default
    met under that key is merged below the value, one after the other. *)
Lemma lookup_fill_present (Q : jsval -> Prop) (k : string) (ds ts : dict) (x : jsval) :
  Forall (fun kv => forall t, Q t -> Q (defaultsDeep t (snd kv))) ds ->
  lookup k ts = Some x -> Q x ->
  exists x', lookup k (fill ds ts) = Some x' /\ Q x'.
Proof.
  intros Hds. revert ts x.
  induction Hds as [|[k0 d] rest Hd _ IH]; intros ts x Hx HQ; simpl.
  - eauto.
  - destruct (String.eqb_spec k k0) as [->|Hne].
    + rewrite Hx. apply (IH _ (defaultsDeep x d)).
      * now rewrite lookup_assign, String.eqb_refl.
      * now apply Hd.
    + apply (IH _ x); [|exact HQ].
      apply String.eqb_neq in Hne.
      destruct (lookup k0 ts); now rewrite lookup_assign, Hne.
Qed.

Lemma defaultsDeep_keeps (d : jsval) :
  forall p v t, kept p v t -> kept p v (defaultsDeep t d).
Proof.
  induction d as [ | | | | | | ds IH | ] using jsval_deep_ind;
    intros p v t Hk;
    try (rewrite defaultsDeep_leaf_defaults by reflexivity; exact Hk).
  destruct t as [ | | | | | | ts | ]; try exact Hk.
  rewrite defaultsDeep_dict.
  destruct Hk as (v' & Hv' & Hleaf & Hdict).
  destruct p as [|k p'].
  - simpl in Hv'. inversion Hv'; subst v'.
    eexists. split; [reflexivity|]. split; [|reflexivity].
    intros Ev. specialize (Hleaf Ev). subst v. discriminate.
  - simpl in Hv'.
    destruct (lookup k ts) as [x|] eqn:Ex; [|discriminate].
    destruct (lookup_fill_present (kept p' v) k ds ts x) as (x' & Hx' & Hkept).
    + eapply Forall_impl; [|exact IH]. intros [k0 d0] H t0. simpl. apply H.
    + exact Ex.
    + exists v'. auto.
    + destruct Hkept as (v'' & Hv'' & Hrest).
      exists v''. split; [|exact Hrest]. simpl. now rewrite Hx'.
Qed.

Lemma fill_absorbed (ds ts : dict) : absorbed ds ts -> fill ds ts = ts.
Proof.
  intros H. induction H as [|[k d] rest (x & Hx & Hd) _ IH]; simpl; [reflexivity|].
  simpl in Hx, Hd. rewrite Hx, Hd, (assign_same _ _ _ Hx). exact IH.
Qed.

Lemma defaultsDeep_self (d : jsval) : wf d = true -> defaultsDeep d d = d.
Proof.
  induction d as [ | | | | | | ds IH | ] using jsval_deep_ind;
    intros Hwf; try reflexivity.
  rewrite defaultsDeep_dict. f_equal. apply fill_absorbed.
  rewrite wf_dict_unfold in Hwf. apply andb_prop in Hwf as [Hnd Hall].
  rewrite forallb_forall in Hall. rewrite Forall_forall in IH.
  apply Forall_forall. intros [k d] Hin. simpl.
  exists d. split.
  - now apply nodup_keys_lookup.
  - apply (IH _ Hin). apply (Hall _ Hin).
Qed.

Lemma fill_absorbs (ds : dict) :
  nodup_keys (keys ds) = true ->
  Forall (fun kv => wf (snd kv) = true /\
                    forall t, defaultsDeep (defaultsDeep t (snd kv)) (snd kv)
                              = defaultsDeep t (snd kv)) ds ->
  forall ts, absorbed ds (fill ds ts).
Proof.
  intros Hnd Hds. induction Hds as [|[k d] rest [Hwf Hidem] _ IH]; intros ts.
  - constructor.
  - simpl in Hnd. apply andb_prop in Hnd as [Hk Hrest].
    simpl in Hwf, Hidem. constructor; [|apply IH; assumption].
    simpl. rewrite lookup_fill_other.
    2:{ intros Hin. apply existsb_eqb_In in Hin.
        apply negb_true_iff in Hk. congruence. }
    destruct (lookup k ts) as [t|]; rewrite lookup_assign, String.eqb_refl.
    + eexists. split; [reflexivity|apply Hidem].
    + eexists. split; [reflexivity|now apply defaultsDeep_self].
Qed.

Lemma defaultsDeep_idem (d : jsval) :
  wf d = true ->
  forall t, defaultsDeep (defaultsDeep t d) d = defaultsDeep t d.
Proof.
  induction d as [ | | | | | | ds IH | ] using jsval_deep_ind;
    intros Hwf t; try (now rewrite !defaultsDeep_leaf_defaults).
  destruct t as [ | | | | | | ts | ]; try reflexivity.
  rewrite !defaultsDeep_dict. f_equal. apply fill_absorbed.
  rewrite wf_dict_unfold in Hwf. apply andb_prop in Hwf as [Hnd Hall].
  apply fill_absorbs; [exact Hnd|].
  rewrite forallb_forall in Hall. rewrite Forall_forall in IH |- *.
  intros kv Hin. split; [now apply Hall|]. apply (IH _ Hin). now apply Hall.
Qed.

(** C6.  The defaults merge fills in missing keys only.  Whatever shared
    configuration holds along a path before the merge is still there
    after it (a value that is not a dictionary unchanged, a dictionary as
    a dictionary); merging the defaults [{a: 2, b: 3}] into [{a: 1}]
    yields [{a: 1, b: 3}]; and merging the same defaults a second time
    changes nothing.  Defaults are a JavaScript object, so their keys are
    unique at every depth. *)
Theorem defaultsDeep_fills_missing_only (defaults config : jsval)
    (Hwf : wf defaults = true) :
  (forall p v, get_path p config = Some v ->
     exists v', get_path p (defaultsDeep config defaults) = Some v' /\
                (is_dict v = false -> v' = v) /\
                (is_dict v = true -> is_dict v' = true)) /\
  defaultsDeep (JObj [("a", JNum 1)]) (JObj [("a", JNum 2); ("b", JNum 3)])
    = JObj [("a", JNum 1); ("b", JNum 3)] /\
  defaultsDeep (defaultsDeep config defaults) defaults
    = defaultsDeep config defaults.
Proof.
  split; [|split].
  - intros p v Hv.
    apply (defaultsDeep_keeps defaults p v config).
    exists v. auto.
  - reflexivity.
  - now apply defaultsDeep_idem.
Qed.

Lemma defaultsDeep_fills_missing_only_witness :
  let defaults := JObj [("a", JNum 2); ("b", JObj [("c", JNum 3); ("d", JNum 4)])] in
  let config := JObj [("a", JNum 1); ("b", JObj [("c", JNum 0)])] in
  defaultsDeep config defaults
    = JObj [("a", JNum 1); ("b", JObj [("c", JNum 0); ("d", JNum 4)])] /\
  defaultsDeep (defaultsDeep config defaults) defaults = defaultsDeep config defaults.
Proof.
  split; [reflexivity|].
  exact (proj2 (proj2 (defaultsDeep_fills_missing_only
           (JObj [("a", JNum 2); ("b", JObj [("c", JNum 3); ("d", JNum 4)])])
           (JObj [("a", JNum 1); ("b", JObj [("c", JNum 0)])]) eq_refl))).
Defined.

End MergeFacts.

(* ===================================================================== *)
(** ** The timeout interval *)
(* ===================================================================== *)

Section TimeoutInterval.

Lemma truthy_get_prop (v : jsval) (k : string) :
  truthy v = true -> exists x, get_prop v k = Some x.
Proof. destruct v; simpl; try discriminate; eauto. Qed.

(** C8, as amended.  The interval is the hook's own [_hookTimeout] when
    the hook's section of the configuration and that setting are both
    truthy; else the shared [hookTimeout] when it is truthy; else 20000.
    The section is looked up under the hook's [configKey], or under the
    id when the hook has no truthy [configKey]. *)
Theorem timeoutInterval_first_truthy
    (cfg : dict) (hook configKey : jsval) (id : string)
    (Hkey : get_prop hook "configKey" = Some configKey) :
  let key := to_string (js_or configKey (JStr id)) in
  timeoutInterval (JObj cfg) hook id =
    Some (if truthy (read cfg key) && truthy (own_timeout cfg key)
          then own_timeout cfg key
          else if truthy (read cfg "hookTimeout")
               then read cfg "hookTimeout"
               else JNum 20000).
Proof.
  intros key. unfold timeoutInterval, config_key. rewrite Hkey. simpl get_prop.
  fold key. unfold own_timeout.
  destruct (truthy (read cfg key)) eqn:Hsec.
  - destruct (truthy_get_prop _ "_hookTimeout" Hsec) as [own Hown].
    rewrite Hown. simpl. unfold js_or.
    destruct (truthy own) eqn:Ho; simpl.
    + now rewrite Ho.
    + destruct (truthy (read cfg "hookTimeout")) eqn:Hs; simpl; now rewrite ?Hs.
  - simpl. unfold js_or. rewrite Hsec.
    destruct (truthy (read cfg "hookTimeout")) eqn:Hs; simpl; now rewrite ?Hs.
Qed.

Lemma timeoutInterval_first_truthy_witness :
  timeoutInterval (JObj [("foo", JObj [("_hookTimeout", JNum 50)])])
                  (Samples.hook "foo" (JObj [])) "foo" = Some (JNum 50).
Proof.
  exact (timeoutInterval_first_truthy
           [("foo", JObj [("_hookTimeout", JNum 50)])]
           (Samples.hook "foo" (JObj [])) (JStr "foo") "foo" eq_refl).
Defined.

(** C8, as stated, fails: the hook's own [_hookTimeout] exists and is 0,
    and the interval is the shared [hookTimeout], 5. *)
Lemma timeoutInterval_skips_existing_zero :
  let cfg := JObj [("foo", JObj [("_hookTimeout", JNum 0)]); ("hookTimeout", JNum 5)] in
  get_path ["foo"; "_hookTimeout"] cfg = Some (JNum 0) /\
  timeoutInterval cfg (Samples.hook "foo" (JObj [])) "foo" = Some (JNum 5) /\
  timeoutInterval cfg (Samples.hook "foo" (JObj [])) "foo" <> Some (JNum 0).
Proof. repeat split. discriminate. Qed.

End TimeoutInterval.

(* ===================================================================== *)
(** ** applyDefaults and the placeholder key *)
(* ===================================================================== *)

Section ApplyDefaults.

(** C5.  A hook whose [defaults] is a function that returns
    [{__configKey__: {a: 1}}], with [configKey] ['foo'], applied to an
    empty configuration: the placeholder is looked for on the function,
    not on the object it returned, so the configuration receives the key
    [__configKey__] itself and no key [foo].  The same dictionary given
    directly as [defaults] is rewritten and lands under [foo].  A hook
    object that has no [defaults] at all makes the same test throw a
    TypeError. *)
Theorem applyDefaults_function_placeholder_not_rewritten :
  let returned := JObj [("__configKey__", JObj [("a", JNum 1)])] in
  let bare := JObj [("identity", JStr "foo"); ("configKey", JStr "foo")] in
  call_defaults Samples.app 7 (JObj []) = inl returned /\
  config (state_of (applyDefaults Samples.app "foo"
            (init [("foo", Samples.hook "foo" (JFun 7 []))] (JObj []))))
    = JObj [("__configKey__", JObj [("a", JNum 1)])] /\
  config (state_of (applyDefaults Samples.app "foo"
            (init [("foo", Samples.hook "foo" returned)] (JObj []))))
    = JObj [("foo", JObj [("a", JNum 1)])] /\
  applyDefaults Samples.app "foo" (init [("foo", bare)] (JObj []))
    = Halt (Uncaught TypeError)
        (with_log [Call OpDefaults "foo"] (init [("foo", bare)] (JObj []))).
Proof. cbv zeta. repeat apply conj; vm_compute; reflexivity. Qed.

End ApplyDefaults.

(* ===================================================================== *)
(** ** Bootstrap tasks on odd registries *)
(* ===================================================================== *)

Section BootTask.

Variable w : world.

(** C10.  A bootstrap id registered as the string ['false'] passes the
    presence check of its task, since the string is truthy.  prepareHook
    then deletes the id and returns without making a Hook, and
    applyDefaults, called on the registry entry that is no longer there,
    throws a TypeError that nothing catches. *)
Theorem bootTask_false_string_crashes (id : string) (s : state)
    (Hboot : In id bootstrap)
    (Hdef : read (hooks s) id = JStr "false") :
  let s1 := with_hooks (remove id (hooks s))
              (with_log (Call OpPrepare id :: log s) s) in
  let s2 := with_log (Call OpDefaults id :: log s1) s1 in
  truthy (read (hooks s) id) = true /\
  prepareHook w id s = Ok tt s1 /\
  lookup id (hooks s1) = None /\
  applyDefaults w id s1 = Halt (Uncaught TypeError) s2 /\
  bootTask w id s = Halt (Uncaught TypeError) s2.
Proof.
  intros s1 s2.
  assert (Hprep : prepareHook w id s = Ok tt s1).
  { unfold prepareHook, bind, tell, modify, get. simpl. rewrite Hdef. reflexivity. }
  assert (Hgone : lookup id (hooks s1) = None).
  { simpl. rewrite lookup_remove. now rewrite String.eqb_refl. }
  assert (Happ : applyDefaults w id s1 = Halt (Uncaught TypeError) s2).
  { unfold applyDefaults, bind, tell, modify, get. cbn [hooks with_log].
    unfold read. replace (hooks s1) with (remove id (hooks s)) by reflexivity.
    simpl in Hgone. rewrite Hgone. reflexivity. }
  repeat split; try assumption.
  - now rewrite Hdef.
  - unfold bootTask. unfold bind at 1. unfold get. rewrite Hdef.
    change (negb (truthy (JStr "false"))) with false. cbv iota.
    unfold bind at 1. rewrite Hprep. unfold bind at 1. rewrite Happ.
    reflexivity.
Qed.

End BootTask.

Lemma bootTask_false_string_crashes_witness :
  halted (Samples.final Samples.app [Advance]
            [("moduleloader", JStr "false")] (JObj []))
    = Some (Uncaught TypeError) /\
  bootTask Samples.app "moduleloader"
    (with_stage (Await 0) (init [("moduleloader", JStr "false")] (JObj [])))
    = Halt (Uncaught TypeError)
        {| hooks := []; config := JObj []; timers := []; hookTimeouts := [];
           inflight := []; stage := Await 0; todo := []; called := [];
           ticks := []; halted := None;
           log := [Call OpDefaults "moduleloader"; Call OpPrepare "moduleloader"] |}.
Proof.
  split; [vm_compute; reflexivity|].
  apply (bootTask_false_string_crashes Samples.app "moduleloader"
           (with_stage (Await 0) (init [("moduleloader", JStr "false")] (JObj [])))).
  - left. reflexivity.
  - reflexivity.
Defined.

Section InvalidConfiguration.

(** C2.  The registry [{userconfig: factory}], without [moduleloader]:
    the [moduleloader] task is skipped, prepareHook('userconfig') hands
    the configuration error to the caller and returns, and the task goes
    on to applyDefaults on the raw factory, which throws a TypeError that
    nothing catches.  When the factory carries a [defaults] dictionary
    that dictionary is merged into the configuration after the error was
    reported. *)
Theorem userconfig_without_moduleloader_goes_on :
  let s := Samples.final Samples.app (Samples.advance 2)
             [("userconfig", Samples.factory)] (JObj []) in
  let s' := Samples.final Samples.app (Samples.advance 2)
              [("userconfig", JFun 1 [("defaults", JObj [("a", JNum 1)])])]
              (JObj []) in
  trace s = [ Cb "moduleloader" None;
              Call OpPrepare "userconfig";
              CallerCb (Some InvalidConfiguration);
              Call OpDefaults "userconfig" ] /\
  halted s = Some (Uncaught TypeError) /\
  trace s' = [ Cb "moduleloader" None;
               Call OpPrepare "userconfig";
               CallerCb (Some InvalidConfiguration);
               Call OpDefaults "userconfig";
               Call OpConfigure "userconfig" ] /\
  config s' = JObj [("a", JNum 1)] /\
  halted s' = Some (Uncaught TypeError).
Proof. cbv zeta. repeat apply conj; vm_compute; reflexivity. Qed.

End InvalidConfiguration.

(* ===================================================================== *)
(** ** Properties of states that a computation keeps *)
(* ===================================================================== *)

Section Keeps.

Variable I : state -> Prop.

Lemma keeps_ret {A} (a : A) : keeps I (ret a).
Proof. intros s H. exact H. Qed.

Lemma keeps_get : keeps I get.
Proof. intros s H. exact H. Qed.

Lemma keeps_throw {A} (e : error) : keeps I (@throw A e).
Proof. intros s H. exact H. Qed.

Lemma keeps_exit {A} (c : Z) : keeps I (@process_exit A c).
Proof. intros s H. exact H. Qed.

Lemma keeps_bind {A B} (m : M A) (f : A -> M B) :
  keeps I m -> (forall a, keeps I (f a)) -> keeps I (bind m f).
Proof.
  intros Hm Hf s Hs. unfold bind. specialize (Hm s Hs).
  destruct (m s) as [a s1|h s1]; simpl in Hm.
  - now apply Hf.
  - exact Hm.
Qed.

Lemma keeps_for_each {A} (l : list A) (f : A -> M unit) :
  (forall a, keeps I (f a)) -> keeps I (for_each l f).
Proof.
  intros Hf. induction l as [|x r IH]; simpl.
  - apply keeps_ret.
  - apply keeps_bind; [apply Hf|]. intros _. exact IH.
Qed.

Lemma keeps_try_catch (m : M unit) (handler : error -> M unit) :
  keeps I m -> (forall e, keeps I (handler e)) -> keeps I (try_catch m handler).
Proof.
  intros Hm Hh s Hs. unfold try_catch. specialize (Hm s Hs).
  destruct (m s) as [a s1|[e|c] s1]; simpl in Hm; try exact Hm.
  now apply Hh.
Qed.

Lemma keeps_modify (f : state -> state) :
  (forall s, I s -> I (f s)) -> keeps I (modify f).
Proof. intros Hf s Hs. now apply Hf. Qed.

Lemma keeps_getp (v : jsval) (k : string) : keeps I (getp v k).
Proof. unfold getp. destruct (get_prop v k); [apply keeps_ret|apply keeps_throw]. Qed.

Lemma keeps_setp (v : jsval) (k : string) (x : jsval) : keeps I (setp v k x).
Proof. unfold setp. destruct (set_prop v k x); [apply keeps_ret|apply keeps_throw]. Qed.

Lemma keeps_delp (v : jsval) (k : string) : keeps I (delp v k).
Proof. unfold delp. destruct (delete_prop v k); [apply keeps_ret|apply keeps_throw]. Qed.

Lemma keeps_returned (r : jsval + jsval) : keeps I (returned r).
Proof. destruct r; [apply keeps_ret|apply keeps_throw]. Qed.

End Keeps.

(** One step through a computation; [leaf] proves that a write to the
    state keeps the property. *)
Ltac keeps_step leaf :=
  match goal with
  | |- keeps _ (bind _ _) => apply keeps_bind; [|intros ?]
  | |- keeps _ (ret _) => apply keeps_ret
  | |- keeps _ get => apply keeps_get
  | |- keeps _ (throw _) => apply keeps_throw
  | |- keeps _ (process_exit _) => apply keeps_exit
  | |- keeps _ (getp _ _) => apply keeps_getp
  | |- keeps _ (setp _ _ _) => apply keeps_setp
  | |- keeps _ (delp _ _) => apply keeps_delp
  | |- keeps _ (returned _) => apply keeps_returned
  | |- keeps _ (hooksReady _) => unfold hooksReady
  | |- keeps _ (caller_cb _) => unfold caller_cb
  | |- keeps _ (clearTimeout _) => unfold clearTimeout
  | |- keeps _ (tell _) => unfold tell
  | |- keeps _ (modify _) => apply keeps_modify; leaf
  | |- keeps _ (for_each _ _) => apply keeps_for_each; intros ?
  | |- keeps _ (try_catch _ _) => apply keeps_try_catch; [|intros ?]
  | |- keeps _ (if ?c then _ else _) => destruct c
  | |- keeps _ (match ?x with _ => _ end) => destruct x
  end.


(* ===================================================================== *)
(** ** What each helper does to the state *)
(* ===================================================================== *)

Section Effects.

Lemma adds_refl (R : event -> Prop) (s : state) : adds R s s.
Proof. exists []. split; [reflexivity|constructor]. Qed.

Lemma adds_trans (R : event -> Prop) (s1 s2 s3 : state) :
  adds R s1 s2 -> adds R s2 s3 -> adds R s1 s3.
Proof.
  intros (e1 & H1 & F1) (e2 & H2 & F2). exists (e2 ++ e1). split.
  - now rewrite H2, H1, app_assoc.
  - apply Forall_app. split; assumption.
Qed.

Lemma adds_weaken (R R' : event -> Prop) (s s' : state) :
  (forall e, R e -> R' e) -> adds R s s' -> adds R' s s'.
Proof.
  intros HR (evs & H & F). exists evs. split; [exact H|].
  eapply Forall_impl; eauto.
Qed.

Lemma same_control_refl (s : state) : same_control s s.
Proof. repeat split. Qed.

Lemma same_control_trans (s1 s2 s3 : state) :
  same_control s1 s2 -> same_control s2 s3 -> same_control s1 s3.
Proof.
  intros (A1 & B1 & C1 & D1 & E1) (A2 & B2 & C2 & D2 & E2). repeat split; congruence.
Qed.

(** *** Effects compose *)

Section Compose.

Variable Rel : state -> state -> Prop.
Hypothesis Rel_refl : forall s, Rel s s.
Hypothesis Rel_trans : forall s1 s2 s3, Rel s1 s2 -> Rel s2 s3 -> Rel s1 s3.

Lemma effect_ret {A} (a : A) : effect Rel (ret a).
Proof. intros s. apply Rel_refl. Qed.

Lemma effect_get : effect Rel get.
Proof. intros s. apply Rel_refl. Qed.

Lemma effect_throw {A} (e : error) : effect Rel (@throw A e).
Proof. intros s. apply Rel_refl. Qed.

Lemma effect_exit {A} (c : Z) : effect Rel (@process_exit A c).
Proof. intros s. apply Rel_refl. Qed.

Lemma effect_bind {A B} (m : M A) (f : A -> M B) :
  effect Rel m -> (forall a, effect Rel (f a)) -> effect Rel (bind m f).
Proof.
  intros Hm Hf s. unfold bind. specialize (Hm s).
  destruct (m s) as [a s1|h s1]; simpl in Hm.
  - eapply Rel_trans; [exact Hm|apply Hf].
  - exact Hm.
Qed.

Lemma effect_for_each {A} (l : list A) (f : A -> M unit) :
  (forall a, In a l -> effect Rel (f a)) -> effect Rel (for_each l f).
Proof.
  induction l as [|x r IH]; intros Hf; simpl.
  - apply effect_ret.
  - apply effect_bind; [apply Hf; now left|]. intros _. apply IH.
    intros a Ha. apply Hf. now right.
Qed.

Lemma effect_try_catch (m : M unit) (handler : error -> M unit)
    (P : error -> Prop) :
  effect Rel m ->
  (forall s e s', m s = Halt (Uncaught e) s' -> P e) ->
  (forall e, P e -> effect Rel (handler e)) ->
  effect Rel (try_catch m handler).
Proof.
  intros Hm HP Hh s. unfold try_catch. specialize (Hm s).
  destruct (m s) as [a s1|[e|c] s1] eqn:E; simpl in Hm; try exact Hm.
  eapply Rel_trans; [exact Hm|]. apply Hh. eapply HP. exact E.
Qed.

End Compose.

Lemma effect_weaken (Rel Rel' : state -> state -> Prop) {A} (m : M A) :
  (forall s s', Rel s s' -> Rel' s s') -> effect Rel m -> effect Rel' m.
Proof. intros H Hm s. apply H, Hm. Qed.

Lemma quiet_rel_refl (R : event -> Prop) (s : state) : quiet_rel R s s.
Proof. split; [apply same_control_refl|apply adds_refl]. Qed.

Lemma quiet_rel_trans (R : event -> Prop) (s1 s2 s3 : state) :
  quiet_rel R s1 s2 -> quiet_rel R s2 s3 -> quiet_rel R s1 s3.
Proof.
  intros [C1 A1] [C2 A2].
  split; [eapply same_control_trans|eapply adds_trans]; eauto.
Qed.

Lemma quiet_ret (R : event -> Prop) {A} (a : A) : quiet R (ret a).
Proof. apply effect_ret, quiet_rel_refl. Qed.

Lemma quiet_get (R : event -> Prop) : quiet R get.
Proof. apply effect_get, quiet_rel_refl. Qed.

Lemma quiet_throw (R : event -> Prop) {A} (e : error) : quiet R (@throw A e).
Proof. apply effect_throw, quiet_rel_refl. Qed.

Lemma quiet_exit (R : event -> Prop) {A} (c : Z) : quiet R (@process_exit A c).
Proof. apply effect_exit, quiet_rel_refl. Qed.

Lemma quiet_bind (R : event -> Prop) {A B} (m : M A) (f : A -> M B) :
  quiet R m -> (forall a, quiet R (f a)) -> quiet R (bind m f).
Proof. apply effect_bind, quiet_rel_trans. Qed.

Lemma quiet_tell (R : event -> Prop) (e : event) : R e -> quiet R (tell e).
Proof.
  intros He s. split; [repeat split|].
  exists [e]. split; [reflexivity|]. now constructor.
Qed.

Lemma quiet_modify (R : event -> Prop) (f : state -> state) :
  (forall s, same_control s (f s) /\ log (f s) = log s) -> quiet R (modify f).
Proof.
  intros Hf s. destruct (Hf s) as [Hc Hl]. split; [exact Hc|].
  exists []. split; [exact Hl|constructor].
Qed.

Lemma quiet_getp (R : event -> Prop) (v : jsval) (k : string) : quiet R (getp v k).
Proof. unfold getp. destruct (get_prop v k); [apply quiet_ret|apply quiet_throw]. Qed.

Lemma quiet_setp (R : event -> Prop) (v : jsval) (k : string) (x : jsval) :
  quiet R (setp v k x).
Proof. unfold setp. destruct (set_prop v k x); [apply quiet_ret|apply quiet_throw]. Qed.

Lemma quiet_delp (R : event -> Prop) (v : jsval) (k : string) : quiet R (delp v k).
Proof. unfold delp. destruct (delete_prop v k); [apply quiet_ret|apply quiet_throw]. Qed.

Lemma quiet_returned (R : event -> Prop) (r : jsval + jsval) : quiet R (returned r).
Proof. destruct r; [apply quiet_ret|apply quiet_throw]. Qed.

Ltac quiet_step :=
  match goal with
  | |- quiet _ (bind _ _) => apply quiet_bind; [|intros ?]
  | |- quiet _ (ret _) => apply quiet_ret
  | |- quiet _ get => apply quiet_get
  | |- quiet _ (throw _) => apply quiet_throw
  | |- quiet _ (process_exit _) => apply quiet_exit
  | |- quiet _ (getp _ _) => apply quiet_getp
  | |- quiet _ (setp _ _ _) => apply quiet_setp
  | |- quiet _ (delp _ _) => apply quiet_delp
  | |- quiet _ (returned _) => apply quiet_returned
  | |- quiet _ (caller_cb _) => apply quiet_tell; exact I
  | |- quiet _ (tell _) =>
      apply quiet_tell; simpl;
      first [exact I | reflexivity | split; [reflexivity|discriminate]]
  | |- quiet _ (modify _) => apply quiet_modify; intros ?; repeat split
  | |- quiet _ (if ?c then _ else _) => destruct c
  | |- quiet _ (match ?x with _ => _ end) => destruct x
  end.

Variable w : world.

Lemma prepareHook_quiet (id : string) : quiet (quiet_event id) (prepareHook w id).
Proof. unfold prepareHook. repeat quiet_step. Qed.

Lemma applyDefaults_quiet (id : string) : quiet (quiet_event id) (applyDefaults w id).
Proof. unfold applyDefaults. repeat quiet_step. Qed.

Lemma configure_quiet (id : string) : quiet (quiet_event id) (configure w id).
Proof. unfold configure. repeat quiet_step. Qed.

Lemma bind_tell {A} (e : event) (f : unit -> M A) (s : state) :
  bind (tell e) f s = f tt (with_log (e :: log s) s).
Proof. reflexivity. Qed.

Ltac after_call id :=
  rewrite bind_tell; cbv beta;
  match goal with
  | |- context [state_of (?m (with_log ?l ?s))] =>
      let H := fresh "H" in
      assert (H : quiet (silent id) m) by (repeat quiet_step);
      destruct (H (with_log l s)) as (? & ? & ? & ?)
  end;
  split; [assumption|eexists; split; eassumption].

(** Each of the three makes its call first, and no other call. *)
Lemma prepareHook_calls (id : string) (s : state) :
  let s' := state_of (prepareHook w id s) in
  same_control s s' /\
  exists evs, log s' = evs ++ Call OpPrepare id :: log s /\ Forall (silent id) evs.
Proof. cbv zeta. unfold prepareHook. after_call id. Qed.

Lemma applyDefaults_calls (id : string) (s : state) :
  let s' := state_of (applyDefaults w id s) in
  same_control s s' /\
  exists evs, log s' = evs ++ Call OpDefaults id :: log s /\ Forall (silent id) evs.
Proof. cbv zeta. unfold applyDefaults. after_call id. Qed.

Lemma configure_calls (id : string) (s : state) :
  let s' := state_of (configure w id s) in
  same_control s s' /\
  exists evs, log s' = evs ++ Call OpConfigure id :: log s /\ Forall (silent id) evs.
Proof. cbv zeta. unfold configure. after_call id. Qed.

(** What [configure] throws is a TypeError or a value of the hook's. *)
Lemma configure_throws (id : string) (s s' : state) (e : error) :
  configure w id s = Halt (Uncaught e) s' -> plain_error e.
Proof.
  unfold configure, bind, tell, modify, get, getp, throw, ret.
  cbn [hooks config with_log].
  destruct (get_prop (read (hooks s) id) "configure") as [f|].
  - destruct f; try (intros H; inversion H; exact I).
    destruct (call_configure w fn _); intros H; inversion H; exact I.
  - intros H; inversion H; exact I.
Qed.

End Effects.

(* ===================================================================== *)
(** ** What each step does to the state *)
(* ===================================================================== *)

Section Steps.

Variable w : world.

Ltac run_monad :=
  unfold bind, get, ret, throw, tell, modify, getp, hooksReady, caller_cb,
    clearTimeout;
  cbn [hooks config timers hookTimeouts inflight stage todo called halted log
       with_hooks with_config with_timers with_hookTimeouts with_inflight
       with_stage with_todo with_called with_halted with_log state_of].

Lemma adds_one (R : event -> Prop) (s s' : state) (e : event) :
  log s' = e :: log s -> R e -> adds R s s'.
Proof. intros H He. exists [e]. split; [exact H|]. now constructor. Qed.

Lemma adds_two (R : event -> Prop) (s s' : state) (e1 e2 : event) :
  log s' = e2 :: e1 :: log s -> R e1 -> R e2 -> adds R s s'.
Proof. intros H H1 H2. exists [e2; e1]. split; [exact H|]. now repeat constructor. Qed.

Lemma loadHook_effect (id : string) (s : state) :
  let s' := state_of (loadHook id s) in
  stage s' = stage s /\ todo s' = todo s /\
  (timers s' = timers s \/
   (id <> "userhooks" /\
    exists iv, timers s' = timers s ++ [{| t_owner := id; t_interval := iv;
                                           t_status := Pending |}])) /\
  adds (load_event id) s s'.
Proof.
  unfold loadHook. run_monad.
  destruct (timeoutInterval (config s) (read (hooks s) id) id) as [iv|]; run_monad.
  2:{ repeat split; [now left|apply adds_refl]. }
  destruct (String.eqb_spec id "userhooks") as [E|E]; run_monad;
    destruct (get_prop (read (hooks s) id) "load") as [ld|]; run_monad;
    try destruct ld; run_monad;
    repeat split;
    try (now left);
    try (right; split; [exact E|eexists; reflexivity]);
    try apply adds_refl;
    try (eapply adds_one; [reflexivity|simpl; auto]);
    try (eapply adds_two; [reflexivity|simpl; auto|simpl; auto]).
Qed.

Lemma hook_cb_effect (id : string) (err : option error) (s : state) :
  let s' := state_of (hook_cb id err s) in
  todo s' = todo s /\ timers s' = timers s /\
  stage_move id err (stage s) (stage s') /\
  exists evs, log s' = evs ++ Cb id err :: log s /\
              Forall (fun e => e = CallerCb err) evs.
Proof.
  unfold hook_cb, stage_move. run_monad.
  destruct (existsb (String.eqb id) (called s)); run_monad.
  { repeat split; [now left|]. exists []. split; [reflexivity|constructor]. }
  destruct (task_of id) as [n|] eqn:Et, (stage s) as [m|m|k|] eqn:Es; run_monad;
    try (repeat split; [now left|exists []; split; [reflexivity|constructor]]).
  - destruct (Nat.eqb_spec n m) as [->|Hne]; run_monad.
    + destruct err as [e|]; run_monad; repeat split.
      * right; now left.
      * exists [CallerCb (Some e)]. split; [reflexivity|]. now repeat constructor.
      * right; right; left. now exists m.
      * exists []. split; [reflexivity|constructor].
    + repeat split; [now left|exists []; split; [reflexivity|constructor]].
  - destruct err as [e|]; run_monad.
    + repeat split; [right; now left|].
      exists [CallerCb (Some e)]. split; [reflexivity|]. now repeat constructor.
    + destruct (Nat.leb k 1); run_monad; repeat split.
      * right; now left.
      * exists [CallerCb None]. split; [reflexivity|]. now repeat constructor.
      * right; right; right. now exists k, (k - 1).
      * exists []. split; [reflexivity|constructor].
Qed.

(** The callback's effect, with the events it is part of. *)
Lemma hook_cb_callback (id : string) (err : option error) (s : state) :
  let s' := state_of (hook_cb id err s) in
  todo s' = todo s /\ timers s' = timers s /\
  stage_move id err (stage s) (stage s') /\
  In (Cb id err) (log s') /\
  adds (callback_event id err) s s'.
Proof.
  destruct (hook_cb_effect id err s) as (Ht & Hti & Hm & evs & Hl & Hevs).
  cbv zeta. repeat split; try assumption.
  - rewrite Hl. apply in_or_app. right. now left.
  - exists (evs ++ [Cb id err]). split.
    + now rewrite Hl, <- app_assoc.
    + apply Forall_app. split.
      * eapply Forall_impl; [|exact Hevs]. intros e ->. reflexivity.
      * repeat constructor.
Qed.

Lemma nth_error_split {A} (l : list A) (n : nat) (x : A) :
  nth_error l n = Some x -> l = firstn n l ++ x :: skipn (S n) l.
Proof.
  revert l. induction n as [|n IH]; intros [|y r] E; simpl in *; try discriminate.
  - now inversion E.
  - f_equal. now apply IH.
Qed.

Lemma owners_clear (h : nat) (ts : list timer) :
  map t_owner (clear h ts) = map t_owner ts.
Proof.
  unfold clear. destruct (nth_error ts h) as [t|] eqn:E; [|reflexivity].
  destruct (t_status t); try reflexivity.
  transitivity (map t_owner (firstn h ts ++ t :: skipn (S h) ts)).
  - now rewrite !map_app.
  - f_equal. symmetry. now apply nth_error_split.
Qed.

Lemma owners_fire (h : nat) (ts : list timer) :
  map t_owner (fire h ts) = map t_owner ts.
Proof.
  unfold fire. destruct (nth_error ts h) as [t|] eqn:E; [|reflexivity].
  transitivity (map t_owner (firstn h ts ++ t :: skipn (S h) ts)).
  - now rewrite !map_app.
  - f_equal. symmetry. now apply nth_error_split.
Qed.

Lemma clearTimeout_clears (h : nat) : effect clears (clearTimeout h).
Proof.
  intros s. unfold clearTimeout. run_monad. repeat split. apply owners_clear.
Qed.

Lemma clear_all_ok (hs : list nat) (s : state) :
  exists s1, for_each hs clearTimeout s = Ok tt s1 /\ clears s s1.
Proof.
  revert s. induction hs as [|h r IH]; intros s; simpl.
  - exists s. split; [reflexivity|repeat split].
  - unfold bind at 1. unfold clearTimeout at 1, modify.
    destruct (IH (with_timers (clear h (timers s)) s)) as (s1 & E & C).
    exists s1. split; [exact E|].
    destruct C as (A & B & C & D & F & G). simpl in *.
    repeat split; try assumption. rewrite G. apply owners_clear.
Qed.

Lemma task_of_bootstrap (id : string) :
  task_of id = None <-> is_bootstrap id = false.
Proof.
  unfold task_of, is_bootstrap, bootstrap. simpl.
  destruct (id =? "moduleloader")%string; [split; discriminate|].
  destruct (id =? "userconfig")%string; [split; discriminate|].
  destruct (id =? "userhooks")%string; [split; discriminate|].
  split; reflexivity.
Qed.

(** What the callback made for a hook does, case by case. *)
Lemma hook_cb_cases (id : string) (err : option error) (s : state) :
  let s' := state_of (hook_cb id err s) in
  todo s' = todo s /\ inflight s' = inflight s /\ incl (called s) (called s') /\
  ((log s' = Cb id err :: log s /\ stage s' = stage s) \/
   (log s' = Cb id err :: log s /\
    exists n, stage s = Await n /\ stage s' = Task (S n)) \/
   (err = None /\ log s' = Cb id None :: log s /\ is_bootstrap id = false /\
    ~ In id (called s) /\ In id (called s') /\
    exists k, stage s = Loading k /\ stage s' = Loading (k - 1)) \/
   (exists e, err = Some e /\ log s' = CallerCb (Some e) :: Cb id err :: log s /\
              stage s <> Finished /\ stage s' = Finished) \/
   (err = None /\ log s' = CallerCb None :: Cb id None :: log s /\
    is_bootstrap id = false /\ ~ In id (called s) /\ In id (called s') /\
    exists k, stage s = Loading k /\ k <= 1 /\ stage s' = Finished)).
Proof.
  unfold hook_cb, bind, tell, modify, get, hooksReady, caller_cb, ret, throw.
  cbn [called stage with_log with_called].
  destruct (existsb (String.eqb id) (called s)) eqn:Ec.
  { repeat split; [apply incl_refl|]. left. now split. }
  assert (Hnew : ~ In id (called s)).
  { intros Hin. apply existsb_eqb_In in Hin. congruence. }
  destruct (task_of id) as [n|] eqn:Et.
  - destruct (stage s) as [m|m|k|] eqn:Es;
      try (repeat split; [apply incl_tl, incl_refl|]; left; now split).
    destruct (Nat.eqb n m) eqn:En.
    + apply Nat.eqb_eq in En. subst m. destruct err as [e|].
      * repeat split; [apply incl_tl, incl_refl|]. right; right; right; left.
        exists e. repeat split. congruence.
      * repeat split; [apply incl_tl, incl_refl|]. right; left.
        split; [reflexivity|]. exists n. now split.
    + repeat split; [apply incl_tl, incl_refl|]. left. now split.
  - apply task_of_bootstrap in Et.
    destruct (stage s) as [m|m|k|] eqn:Es;
      try (repeat split; [apply incl_tl, incl_refl|]; left; now split).
    destruct err as [e|].
    + repeat split; [apply incl_tl, incl_refl|]. right; right; right; left.
      exists e. repeat split. congruence.
    + destruct (Nat.leb k 1) eqn:Ek.
      * repeat split; [apply incl_tl, incl_refl|]. right; right; right; right.
        apply Nat.leb_le in Ek. repeat split; auto; [now left|].
        exists k. now repeat split.
      * repeat split; [apply incl_tl, incl_refl|]. right; right; left.
        repeat split; auto; [now left|]. exists k. now split.
Qed.

(** What loadHook logs and leaves in flight. *)
Lemma loadHook_cases (id : string) (s : state) :
  let s' := state_of (loadHook id s) in
  stage s' = stage s /\ todo s' = todo s /\ called s' = called s /\
  exists evs, Forall (fun e => exists h iv, e = SetTimeout h id iv) evs /\
    ((inflight s' = inflight s /\ log s' = evs ++ log s) \/
     (exists h, inflight s' = inflight s ++ [(id, h)] /\
                log s' = Call OpLoad id :: evs ++ log s)).
Proof.
  unfold loadHook, bind, get, ret, throw, tell, modify, getp.
  destruct (timeoutInterval (config s) (read (hooks s) id) id) as [iv|].
  2:{ repeat split. exists []. split; [constructor|]. left. now split. }
  destruct (negb (id =? "userhooks")%string);
    destruct (get_prop (read (hooks s) id) "load") as [ld|];
    try destruct ld; simpl; repeat split;
    first [ exists []; split; [constructor|];
            first [ left; split; reflexivity
                  | right; eexists; split; reflexivity ]
          | eexists [_]; split; [constructor; [eexists; eexists; reflexivity|constructor]|];
            first [ left; split; reflexivity
                  | right; eexists; split; reflexivity ] ].
Qed.

(** The callback made for a hook, case by case: it reports to the
    caller at most once, and only while the series is not over. *)
Lemma hook_cb_report (id : string) (err : option error) (s : state) :
  let s' := state_of (hook_cb id err s) in
  hooks s' = hooks s /\ config s' = config s /\ timers s' = timers s /\
  hookTimeouts s' = hookTimeouts s /\ inflight s' = inflight s /\
  todo s' = todo s /\
  ((log s' = Cb id err :: log s /\
    (stage s' = stage s \/
     (exists n, stage s = Await n /\ stage s' = Task (S n)) \/
     (exists k, stage s = Loading k /\ stage s' = Loading (k - 1)))) \/
   (log s' = CallerCb err :: Cb id err :: log s /\
    stage s' = Finished /\ stage s <> Finished)).
Proof.
  unfold hook_cb, bind, tell, modify, get, hooksReady, caller_cb, ret, throw.
  cbn [called stage with_log with_called].
  destruct (existsb (String.eqb id) (called s)).
  { repeat apply conj; try reflexivity. left. split; [reflexivity|now left]. }
  destruct (task_of id) as [n|], (stage s) as [m|m|k|] eqn:Es;
    try (repeat apply conj; try reflexivity; left; split; [reflexivity|left; exact Es]).
  - destruct (Nat.eqb_spec n m) as [->|Hne]; [destruct err as [e|]|];
      repeat apply conj; try reflexivity.
    + right. repeat split. congruence.
    + left. split; [reflexivity|]. right; left. exists m. split; [reflexivity|reflexivity].
    + left. split; [reflexivity|left; exact Es].
  - destruct err as [e|]; [|destruct (Nat.leb k 1)];
      repeat apply conj; try reflexivity.
    + right. repeat split. congruence.
    + right. repeat split. congruence.
    + left. split; [reflexivity|]. right; right. exists k. split; reflexivity.
Qed.

Lemma clear_all_for_each (hs : list nat) (s : state) :
  for_each hs clearTimeout s = Ok tt (with_timers (clear_all hs (timers s)) s).
Proof.
  revert s. induction hs as [|h r IH]; intros s; simpl.
  - now destruct s.
  - unfold bind at 1. unfold clearTimeout at 1, modify. rewrite IH. reflexivity.
Qed.

Lemma owners_clear_all (hs : list nat) (ts : list timer) :
  map t_owner (clear_all hs ts) = map t_owner ts.
Proof.
  revert ts. induction hs as [|h r IH]; intros ts; simpl; [reflexivity|].
  unfold clear_all in IH. rewrite IH. apply owners_clear.
Qed.

(** What the load callback does before it invokes or defers the
    callback made for the hook. *)
Lemma after_completion_same (id : string) (h : option nat) (err : jsval) (s : state) :
  let s2 := after_completion id h err s in
  stage s2 = stage s /\ todo s2 = todo s /\ called s2 = called s /\
  inflight s2 = inflight s /\ ticks s2 = ticks s /\ hooks s2 = hooks s /\
  config s2 = config s /\ hookTimeouts s2 = hookTimeouts s /\
  halted s2 = halted s /\
  log s2 = announcement id err ++ log s /\
  map t_owner (timers s2) = map t_owner (timers s).
Proof.
  cbv zeta. unfold after_completion. repeat split.
  cbn [timers with_log with_timers]. unfold own_cleared.
  destruct (truthy err), (negb (id =? "userhooks")%string), h;
    rewrite ?owners_clear_all, ?owners_clear; reflexivity.
Qed.

(** The load callback, once the timers are cleared and the outcome is
    logged and emitted: an error goes to the callback made for the hook
    at once, a success is deferred to the next tick. *)
Lemma loaded_unfold (id : string) (h : option nat) (err : jsval) (s : state) :
  loaded id h err s =
    if truthy err
    then hook_cb id (Some (Raised err)) (after_completion id h err s)
    else Ok tt (with_ticks (ticks s ++ [id]) (after_completion id h err s)).
Proof.
  unfold loaded, after_completion, announcement, own_cleared.
  unfold bind at 1.
  destruct (negb (id =? "userhooks")%string) eqn:Eu.
  - destruct h as [h0|].
    + unfold clearTimeout at 1, modify.
      destruct (truthy err).
      * unfold bind at 1. unfold get. unfold bind at 1. rewrite clear_all_for_each.
        unfold bind at 1. unfold tell at 1, modify. unfold bind at 1.
        unfold tell at 1, modify. reflexivity.
      * unfold bind at 1. unfold tell at 1, modify. unfold bind at 1.
        unfold tell at 1, modify. reflexivity.
    + unfold ret at 1.
      destruct (truthy err).
      * unfold bind at 1. unfold get. unfold bind at 1. rewrite clear_all_for_each.
        unfold bind at 1. unfold tell at 1, modify. unfold bind at 1.
        unfold tell at 1, modify. reflexivity.
      * unfold bind at 1. unfold tell at 1, modify. unfold bind at 1.
        unfold tell at 1, modify. now destruct s.
  - unfold ret at 1.
    destruct (truthy err).
    + unfold bind at 1. unfold get. unfold bind at 1. rewrite clear_all_for_each.
      unfold bind at 1. unfold ret at 1. unfold bind at 1.
      unfold tell at 1, modify. reflexivity.
    + unfold bind at 1. unfold tell at 1, modify. unfold bind at 1.
      unfold tell at 1, modify. now destruct s.
Qed.

Lemma tooLong_effect (id : string) (iv : jsval) (s : state) :
  let s' := state_of (tooLong id iv s) in
  exists key,
    let x := Some (HookTimeout id key iv) in
    todo s' = todo s /\ timers s' = timers s /\
    stage_move id x (stage s) (stage s') /\
    adds (callback_event id x) s s'.
Proof.
  cbv zeta. unfold tooLong. unfold bind, get.
  destruct (config_key (read (hooks s) id) id) as [k|].
  - exists (to_string k).
    destruct (hook_cb_callback id (Some (HookTimeout id (to_string k) iv)) s)
      as (Ht & Hti & Hm & _ & Ha).
    repeat split; assumption.
  - exists "". repeat split; [now left|apply adds_refl].
Qed.

(** *** The tasks of the series *)

Lemma grows_refl (s : state) : grows s s.
Proof. exists []. split; [now rewrite app_nil_r|constructor]. Qed.

Lemma grows_trans (s1 s2 s3 : state) : grows s1 s2 -> grows s2 s3 -> grows s1 s3.
Proof.
  intros (t1 & H1 & F1) (t2 & H2 & F2). exists (t1 ++ t2). split.
  - now rewrite H2, H1, app_assoc.
  - apply Forall_app. now split.
Qed.

Lemma batch_trans (R : event -> Prop) (s1 s2 s3 : state) :
  batch R s1 s2 -> batch R s2 s3 -> batch R s1 s3.
Proof.
  intros (A1 & B1 & C1 & D1) (A2 & B2 & C2 & D2). repeat split; try congruence.
  - eapply grows_trans; eauto.
  - eapply adds_trans; eauto.
Qed.

Lemma quiet_batch (R R' : event -> Prop) {A} (m : M A) :
  (forall e, R e -> R' e) -> quiet R m -> effect (batch R') m.
Proof.
  intros HR Hm s. destruct (Hm s) as ((A1 & B1 & C1 & _) & D1).
  repeat split; try assumption.
  - exists []. rewrite app_nil_r. split; [exact C1|constructor].
  - eapply adds_weaken; eauto.
Qed.

Lemma loadHook_batch (R : event -> Prop) (id : string) :
  (forall e, load_event id e -> R e) -> effect (batch R) (loadHook id).
Proof.
  intros HR s. destruct (loadHook_effect id s) as (A1 & B1 & C1 & D1).
  repeat split; try assumption.
  - destruct C1 as [C1|(Hne & iv & C1)].
    + exists []. rewrite app_nil_r. split; [exact C1|constructor].
    + eexists. split; [exact C1|]. now repeat constructor.
  - eapply adds_weaken; eauto.
Qed.

Lemma bootTask_effect (id : string) (s : state) :
  (truthy (read (hooks s) id) = false /\ bootTask w id s = hook_cb id None s) \/
  batch (fun e => quiet_event id e \/ load_event id e) s (state_of (bootTask w id s)).
Proof.
  assert (H : effect (batch (fun e => quiet_event id e \/ load_event id e))
                (prepareHook w id ;; applyDefaults w id ;; configure w id ;;
                 loadHook id)%loader).
  { apply effect_bind;
      [apply batch_trans
      |eapply quiet_batch; [|apply prepareHook_quiet]; auto|intros _].
    apply effect_bind;
      [apply batch_trans
      |eapply quiet_batch; [|apply applyDefaults_quiet]; auto|intros _].
    apply effect_bind;
      [apply batch_trans
      |eapply quiet_batch; [|apply configure_quiet]; auto|intros _].
    apply loadHook_batch. auto. }
  assert (E : bootTask w id s =
              if negb (truthy (read (hooks s) id)) then hook_cb id None s
              else (prepareHook w id ;; applyDefaults w id ;; configure w id ;;
                    loadHook id)%loader s).
  { unfold bootTask. unfold bind at 1. unfold get.
    now destruct (negb (truthy (read (hooks s) id))). }
  rewrite E. destruct (truthy (read (hooks s) id)); simpl negb; cbv iota.
  - right. exact (H s).
  - left. split; reflexivity.
Qed.

Lemma staged_refl (P : phase -> Prop) (R : event -> Prop) (s : state) :
  staged P R s s.
Proof. repeat split; [now left|apply adds_refl]. Qed.

Lemma staged_trans (P : phase -> Prop) (R : event -> Prop) (s1 s2 s3 : state) :
  staged P R s1 s2 -> staged P R s2 s3 -> staged P R s1 s3.
Proof.
  intros (A1 & B1 & C1 & D1) (A2 & B2 & C2 & D2). repeat split; try congruence.
  - destruct A2 as [A2|A2]; [|now right].
    destruct A1 as [A1|A1]; [left; congruence|right; congruence].
  - eapply adds_trans; eauto.
Qed.

Lemma quiet_staged (P : phase -> Prop) (R R' : event -> Prop) {A} (m : M A) :
  (forall e, R e -> R' e) -> quiet R m -> effect (staged P R') m.
Proof.
  intros HR Hm s. destruct (Hm s) as ((A1 & B1 & C1 & _) & D1).
  repeat split; try assumption; [now left|].
  eapply adds_weaken; eauto.
Qed.

Lemma move_staged (P : phase -> Prop) (R : event -> Prop) (p : phase) :
  P p -> effect (staged P R) (modify (with_stage p)).
Proof.
  intros Hp s. repeat split; [now right|].
  exists []. split; [reflexivity|constructor].
Qed.

Lemma others_nonboot (s : state) (id : string) :
  In id (others s) -> task_of id = None.
Proof.
  unfold others, without_bootstrap. rewrite filter_In. intros [_ H].
  unfold is_bootstrap, bootstrap in H. simpl in H. unfold task_of.
  destruct (id =? "moduleloader")%string; [discriminate|].
  destruct (id =? "userconfig")%string; [discriminate|].
  destruct (id =? "userhooks")%string; [discriminate|reflexivity].
Qed.

Lemma validate_effect :
  effect (staged (eq (Task 4)) stage_event) validate.
Proof.
  unfold validate.
  apply effect_bind; [apply staged_trans|apply effect_get, staged_refl|intros s0].
  apply effect_bind; [apply staged_trans| |intros _; now apply move_staged].
  destruct (truthy (read (hooks s0) "controllers")).
  - apply effect_bind; [apply staged_trans| |intros _].
    + apply effect_for_each; [apply staged_refl|apply staged_trans|].
      intros l _. eapply quiet_staged; [|apply (quiet_tell (quiet_event "controllers")); exact I].
      intros e He. left. exists "controllers". split; [reflexivity|exact He].
    + eapply quiet_staged; [|apply (quiet_modify (fun _ => False))].
      * intros e [].
      * intros s. repeat split.
  - apply effect_ret, staged_refl.
Qed.

Lemma prepare_effect : effect (staged (eq (Task 5)) stage_event) (prepare w).
Proof.
  unfold prepare.
  apply effect_bind; [apply staged_trans|apply effect_get, staged_refl|intros s0].
  apply effect_bind; [apply staged_trans| |intros _; now apply move_staged].
  apply effect_for_each; [apply staged_refl|apply staged_trans|].
  intros id Hid. eapply quiet_staged; [|apply prepareHook_quiet].
  intros e He. left. exists id. split; [eapply others_nonboot; eauto|exact He].
Qed.

Lemma defaults_effect : effect (staged (eq (Task 6)) stage_event) (defaults w).
Proof.
  unfold defaults.
  apply effect_bind; [apply staged_trans|apply effect_get, staged_refl|intros s0].
  apply effect_bind; [apply staged_trans| |intros _; now apply move_staged].
  apply effect_for_each; [apply staged_refl|apply staged_trans|].
  intros id Hid. eapply quiet_staged; [|apply applyDefaults_quiet].
  intros e He. left. exists id. split; [eapply others_nonboot; eauto|exact He].
Qed.

Lemma hooksReady_staged (P : phase -> Prop) (err : error) :
  P Finished -> plain_error err ->
  effect (staged P stage_event) (hooksReady (Some err)).
Proof.
  intros HP He s. unfold hooksReady. run_monad. repeat split; [now right|].
  eapply adds_one; [reflexivity|]. right. now exists err.
Qed.

Lemma configureAll_effect :
  effect (staged (fun p => p = Task 7 \/ p = Finished) stage_event) (configureAll w).
Proof.
  unfold configureAll.
  apply effect_bind; [apply staged_trans|apply effect_get, staged_refl|intros s0].
  apply effect_bind; [apply staged_trans| |intros _].
  - apply effect_for_each; [apply staged_refl|apply staged_trans|].
    intros id Hid.
    apply (effect_try_catch _ (staged_trans _ _) _ _ plain_error).
    + eapply quiet_staged; [|apply configure_quiet].
      intros e He. left. exists id. split; [eapply others_nonboot; eauto|exact He].
    + intros s e s'. apply configure_throws.
    + intros e He.
      apply effect_bind; [apply staged_trans|apply effect_get, staged_refl|intros s1].
      destruct (stage s1); try (apply hooksReady_staged; [now right|exact He]).
      apply effect_ret, staged_refl.
  - apply effect_bind; [apply staged_trans|apply effect_get, staged_refl|intros s1].
    destruct (stage s1); try (apply move_staged; now left).
    apply effect_ret, staged_refl.
Qed.

Lemma loadAll_effect (s : state) :
  let s' := state_of (loadAll s) in
  timers s' = timers s /\
  ((others s = [] /\ stage s' = Finished /\ todo s' = todo s /\
    log s' = CallerCb None :: log s) \/
   (todo s' = others s /\ log s' = log s /\ exists k, stage s' = Loading k)).
Proof.
  unfold loadAll. run_monad. destruct (others s) as [|id r] eqn:E; run_monad.
  - split; [reflexivity|]. left. repeat split.
  - split; [reflexivity|]. right. repeat split. eexists. reflexivity.
Qed.

(** *** The calls of a bootstrap task *)

Lemma hook_cb_ticks (id : string) (err : option error) (s : state) :
  ticks (state_of (hook_cb id err s)) = ticks s.
Proof.
  unfold hook_cb, bind, tell, modify, get, hooksReady, caller_cb, ret, throw.
  cbn [called stage with_log with_called].
  repeat match goal with
         | |- context [match ?x with _ => _ end] =>
             lazymatch x with
             | context [match _ with _ => _ end] => fail
             | _ => destruct x
             end
         end; reflexivity.
Qed.

(** loadHook returns when it has called [load], and only then is the
    call in flight. *)
Lemma loadHook_result (id : string) (s : state) :
  ticks (state_of (loadHook id s)) = ticks s /\
  exists evs, Forall (fun e => exists h iv, e = SetTimeout h id iv) evs /\
    match loadHook id s with
    | Ok _ s' =>
        exists h, inflight s' = inflight s ++ [(id, h)] /\
                  log s' = Call OpLoad id :: evs ++ log s
    | Halt _ s' => inflight s' = inflight s /\ log s' = evs ++ log s
    end.
Proof.
  unfold loadHook, bind, get, ret, throw, tell, modify, getp.
  destruct (timeoutInterval (config s) (read (hooks s) id) id) as [iv|].
  2:{ split; [reflexivity|]. exists []. split; [constructor|]. now split. }
  destruct (negb (id =? "userhooks")%string);
    destruct (get_prop (read (hooks s) id) "load") as [ld|];
    try destruct ld; simpl; (split; [reflexivity|]);
    first [ exists []; split; [constructor|];
            first [ split; reflexivity | eexists; split; reflexivity ]
          | eexists [_]; split; [constructor; [eexists; eexists; reflexivity|constructor]|];
            first [ split; reflexivity | eexists; split; reflexivity ] ].
Qed.

Lemma calls_app (a b : list event) : calls (a ++ b) = calls a ++ calls b.
Proof. unfold calls. apply flat_map_app. Qed.

Lemma calls_rev (l : list event) : calls (rev l) = rev (calls l).
Proof.
  induction l as [|e r IH]; [reflexivity|].
  simpl rev. rewrite calls_app, IH.
  destruct e; simpl; rewrite ?app_nil_r; reflexivity.
Qed.

Lemma calls_silent (id : string) (evs : list event) :
  Forall (silent id) evs -> calls evs = [].
Proof.
  induction 1 as [|e r He _ IH]; [reflexivity|].
  change (e :: r) with ([e] ++ r). rewrite calls_app, IH, app_nil_r.
  destruct e; simpl in *; try reflexivity; contradiction.
Qed.

Lemma calls_timeouts (id : string) (evs : list event) :
  Forall (fun e => exists h iv, e = SetTimeout h id iv) evs -> calls evs = [].
Proof.
  induction 1 as [|e r (h & iv & ->) _ IH]; [reflexivity|]. exact IH.
Qed.

Lemma bootTask_unfold (id : string) (s : state) :
  bootTask w id s =
    if truthy (read (hooks s) id)
    then (prepareHook w id ;; applyDefaults w id ;; configure w id ;;
          loadHook id)%loader s
    else hook_cb id None s.
Proof.
  unfold bootTask. unfold bind at 1. unfold get.
  now destruct (truthy (read (hooks s) id)).
Qed.

(** A bootstrap task whose hook is in the registry: the log it leaves,
    and the call in flight when it returns. *)
Lemma bootTask_flights (id : string) (s : state) :
  truthy (read (hooks s) id) = true ->
  let s' := state_of (bootTask w id s) in
  stage s' = stage s /\ ticks s' = ticks s /\
  exists evs, log s' = evs ++ log s /\
    match bootTask w id s with
    | Ok _ _ =>
        calls (rev evs) = sequence_of id /\
        exists h, inflight s' = inflight s ++ [(id, h)]
    | Halt _ _ =>
        inflight s' = inflight s /\
        exists rest, calls (rev evs) ++ rest = sequence_of id
    end.
Proof.
  intros Ht. cbv zeta. rewrite bootTask_unfold, Ht.
  unfold bind.
  pose proof (prepareHook_calls w id s) as HH. cbv zeta in HH.
  destruct HH as ((A1 & _ & _ & A4 & A5) & e1 & L1 & S1).
  apply (calls_silent id) in S1.
  destruct (prepareHook w id s) as [[] s1|h1 s1]; cbn [state_of] in *.
  2:{ repeat split; auto. exists (e1 ++ [Call OpPrepare id]).
      split; [now rewrite <- app_assoc|]. split; [exact A4|].
      eexists. rewrite calls_rev, calls_app, S1. reflexivity. }
  pose proof (applyDefaults_calls w id s1) as HH. cbv zeta in HH.
  destruct HH as ((B1 & _ & _ & B4 & B5) & e2 & L2 & S2).
  apply (calls_silent id) in S2.
  destruct (applyDefaults w id s1) as [[] s2|h2 s2]; cbn [state_of] in *.
  2:{ repeat split; try congruence.
      exists ((e2 ++ [Call OpDefaults id]) ++ e1 ++ [Call OpPrepare id]).
      split; [|split; [congruence|]].
      - rewrite L2, L1, <- !app_assoc. reflexivity.
      - eexists. rewrite calls_rev, !calls_app, S1, S2. reflexivity. }
  pose proof (configure_calls w id s2) as HH. cbv zeta in HH.
  destruct HH as ((C1 & _ & _ & C4 & C5) & e3 & L3 & S3).
  apply (calls_silent id) in S3.
  destruct (configure w id s2) as [[] s3|h3 s3]; cbn [state_of] in *.
  2:{ repeat split; try congruence.
      exists ((e3 ++ [Call OpConfigure id]) ++ (e2 ++ [Call OpDefaults id])
                ++ e1 ++ [Call OpPrepare id]).
      split; [|split; [congruence|]].
      - rewrite L3, L2, L1, <- !app_assoc. reflexivity.
      - eexists. rewrite calls_rev, !calls_app, S1, S2, S3. reflexivity. }
  destruct (loadHook_result id s3) as (D5 & e4 & S4 & D).
  apply (calls_timeouts id) in S4.
  destruct (loadHook_cases id s3) as (D1 & _). cbv zeta in D1.
  destruct (loadHook id s3) as [[] s4|h4 s4]; cbn [state_of] in *.
  - destruct D as (h & Hfl & L4). repeat split; try congruence.
    exists (([Call OpLoad id] ++ e4) ++ (e3 ++ [Call OpConfigure id])
              ++ (e2 ++ [Call OpDefaults id]) ++ e1 ++ [Call OpPrepare id]).
    split; [|split].
    + rewrite L4, L3, L2, L1, <- !app_assoc. reflexivity.
    + rewrite calls_rev, !calls_app, S1, S2, S3, S4. reflexivity.
    + exists h. congruence.
  - destruct D as (Hfl & L4). repeat split; try congruence.
    exists (e4 ++ (e3 ++ [Call OpConfigure id])
              ++ (e2 ++ [Call OpDefaults id]) ++ e1 ++ [Call OpPrepare id]).
    split; [|split; [congruence|]].
    + rewrite L4, L3, L2, L1, <- !app_assoc. reflexivity.
    + eexists. rewrite calls_rev, !calls_app, S1, S2, S3, S4. reflexivity.
Qed.

(** *** Properties the load callback and the next tick keep *)

Lemma loaded_keeps (I : state -> Prop) (id : string) (h : option nat) (err : jsval)
    (s : state) :
  (forall e, keeps I (hook_cb id e)) ->
  (forall t s0, I s0 -> I (with_ticks t s0)) ->
  I (after_completion id h err s) -> I (state_of (loaded id h err s)).
Proof.
  intros Hcb Hti H2. rewrite loaded_unfold. destruct (truthy err).
  - now apply Hcb.
  - cbn [state_of]. now apply Hti.
Qed.

Lemma tick_keeps (I : state -> Prop) (id : string) (rest : list string) :
  (forall e, keeps I (hook_cb id e)) ->
  (forall t s0, I s0 -> I (with_ticks t s0)) ->
  keeps I (modify (with_ticks rest) ;; tick id)%loader.
Proof.
  intros Hcb Hti s Hs. unfold bind, modify, tick. apply Hcb. now apply Hti.
Qed.

End Steps.

(* ===================================================================== *)
(** ** The invariant of a run *)
(* ===================================================================== *)

Section Invariant.

Variable w : world.

Lemma task_of_boot (k : nat) : k < 3 -> task_of (boot k) = Some k.
Proof.
  intros H. destruct k as [|[|[|k]]]; try reflexivity. lia.
Qed.

Lemma task_of_eq (id : string) (n : nat) : task_of id = Some n -> id = boot n /\ n < 3.
Proof.
  unfold task_of.
  destruct (String.eqb_spec id "moduleloader") as [->|_];
    [intros H; inversion H; split; [reflexivity|lia]|].
  destruct (String.eqb_spec id "userconfig") as [->|_];
    [intros H; inversion H; split; [reflexivity|lia]|].
  destruct (String.eqb_spec id "userhooks") as [->|_];
    [intros H; inversion H; split; [reflexivity|lia]|].
  discriminate.
Qed.

Lemma rank_le (id : string) : rank id <= 3.
Proof.
  unfold rank. destruct (task_of id) as [n|] eqn:E; [|lia].
  apply task_of_eq in E. lia.
Qed.

Lemma rank_boot (k : nat) : k < 3 -> rank (boot k) = k.
Proof. intros H. unfold rank. now rewrite task_of_boot. Qed.

Lemma level_not_call (r k : nat) (e : event) (o : op) :
  level r e -> k < 3 -> k <> r -> e <> Call o (boot k).
Proof.
  intros Hl Hk Hne ->. unfold level in Hl. simpl in Hl.
  rewrite rank_boot in Hl by exact Hk. congruence.
Qed.

Lemma level_quiet (id : string) (e : event) : quiet_event id e -> level (rank id) e.
Proof.
  destruct e as [o i|i| | | |i x|x]; simpl; unfold level; simpl; try tauto.
  - intros [-> _]. reflexivity.
  - intros ->. reflexivity.
Qed.

Lemma level_load (id : string) (e : event) : load_event id e -> level (rank id) e.
Proof.
  destruct e as [o i|i|h i iv| | |i x|x]; simpl; unfold level; simpl; try tauto.
  - destruct o; try tauto. intros ->. reflexivity.
  - intros [-> _]. reflexivity.
Qed.

Lemma level_callback (r : nat) (id : string) (x : option error) (e : event) :
  callback_event id x e -> level r e.
Proof. destruct e; simpl; unfold level; simpl; tauto. Qed.

Lemma level_stage (e : event) : stage_event e -> level 3 e.
Proof.
  intros [(id & Hid & He)|(err & _ & ->)]; [|exact I].
  apply level_quiet in He. unfold rank in He. now rewrite Hid in He.
Qed.

Lemma safe_quiet (id : string) (e : event) : quiet_event id e -> no_userhooks_timeout e.
Proof.
  destruct e as [o i|i|h i iv| | |i x|[[]|]]; simpl; tauto.
Qed.

Lemma safe_load (id : string) (e : event) : load_event id e -> no_userhooks_timeout e.
Proof.
  destruct e as [o i|i|h i iv| | |i x|x]; simpl; try tauto.
  intros [-> H]. exact H.
Qed.

Lemma safe_callback (id : string) (x : option error) (e : event) :
  no_userhooks_error x -> callback_event id x e -> no_userhooks_timeout e.
Proof.
  intros Hx. destruct e as [o i|i|h i iv| | |i y|y]; simpl; try tauto.
  - intros [_ ->]. exact Hx.
  - intros ->. exact Hx.
Qed.

Lemma safe_stage (e : event) : stage_event e -> no_userhooks_timeout e.
Proof.
  intros [(id & _ & He)|(err & Herr & ->)]; [now apply safe_quiet in He|].
  destruct err; simpl in *; tauto.
Qed.

Lemma resolved_app (k r : nat) (evs l : list event) :
  k < 3 -> k <> r -> Forall (level r) evs ->
  resolved k l -> resolved k (evs ++ l).
Proof.
  intros Hk Hne Hevs (Hcb & Himp & Hall).
  assert (Hold : forall o, In (Call o (boot k)) (evs ++ l) -> In (Call o (boot k)) l).
  { intros o Hin. apply in_app_or in Hin as [Hin|Hin]; [|exact Hin].
    exfalso. rewrite Forall_forall in Hevs.
    exact (level_not_call r k _ o (Hevs _ Hin) Hk Hne eq_refl). }
  split; [|split].
  - apply in_or_app. now right.
  - intros Hin. apply in_or_app. right. apply Himp. now apply Hold.
  - intros o Hin o'. apply in_or_app. right. apply (Hall o). now apply Hold.
Qed.

Lemma fresh_app (k r : nat) (evs l : list event) :
  k < 3 -> k <> r -> Forall (level r) evs ->
  fresh k l -> fresh k (evs ++ l).
Proof.
  intros Hk Hne Hevs Hf o Hin.
  apply in_app_or in Hin as [Hin|Hin]; [|exact (Hf o Hin)].
  rewrite Forall_forall in Hevs.
  exact (level_not_call r k _ o (Hevs _ Hin) Hk Hne eq_refl).
Qed.

Lemma ordered_app (r : nat) (evs l : list event) :
  Forall (level r) evs ->
  (forall k, k < 3 -> k < r -> resolved k l) ->
  ordered l -> ordered (evs ++ l).
Proof.
  intros Hevs Hres Hord. induction Hevs as [|e evs He Hevs IH]; [exact Hord|].
  simpl. split; [exact IH|].
  intros id Hid k Hk. unfold level in He. rewrite Hid in He. subst r.
  assert (k < 3) by (pose proof (rank_le id); lia).
  apply (resolved_app k (rank id)); auto. lia.
Qed.

(** *** The order of the ranks *)

Lemma touch_ranks_app (a b : list event) :
  touch_ranks (a ++ b) = touch_ranks a ++ touch_ranks b.
Proof. unfold touch_ranks. apply flat_map_app. Qed.

Lemma touch_level (r : nat) (evs : list event) :
  Forall (level r) evs -> Forall (fun x => x = Nat.min r 3) (touch_ranks evs).
Proof.
  induction 1 as [|e l He _ IH]; [constructor|].
  change (e :: l) with ([e] ++ l). rewrite touch_ranks_app.
  apply Forall_app. split; [|exact IH].
  unfold level in He. unfold touch_ranks. simpl.
  destruct (touches e) as [id|]; [|constructor].
  constructor; [|constructor]. pose proof (rank_le id). lia.
Qed.

Lemma descending_more (n : nat) (new old : list nat) :
  Forall (fun r => r = n) new -> Forall (fun r => r <= n) old -> descending old ->
  Forall (fun r => r <= n) (new ++ old) /\ descending (new ++ old).
Proof.
  intros Hnew Hold Hd. induction Hnew as [|r rest -> _ IH]; simpl; [now split|].
  destruct IH as [IH1 IH2]. split; [constructor; [lia|exact IH1]|].
  split; [exact IH1|exact IH2].
Qed.

Lemma descending_app_r (a b : list nat) : descending (a ++ b) -> descending b.
Proof. induction a as [|x r IH]; simpl; [auto|]. intros [_ H]. now apply IH. Qed.

Lemma lined_up_app (r : nat) (evs l : list event) :
  Forall (level r) evs -> lined_up (Nat.min r 3) l -> lined_up (Nat.min r 3) (evs ++ l).
Proof.
  intros Hevs [H1 H2]. unfold lined_up. rewrite touch_ranks_app.
  apply descending_more; auto. now apply touch_level.
Qed.

Lemma lined_up_le (n m : nat) (l : list event) :
  n <= m -> lined_up n l -> lined_up m l.
Proof.
  intros Hle [H1 H2]. split; [|exact H2].
  eapply Forall_impl; [|exact H1]. intros r Hr. simpl in Hr. lia.
Qed.

Lemma lined_up_callback (n : nat) (id : string) (x : option error) (evs l : list event) :
  Forall (callback_event id x) evs -> lined_up n l -> lined_up n (evs ++ l).
Proof.
  intros Hevs Hl. unfold lined_up. rewrite touch_ranks_app.
  assert (E : touch_ranks evs = []).
  { induction Hevs as [|e r He _ IH]; [reflexivity|].
    change (e :: r) with ([e] ++ r). rewrite touch_ranks_app, IH, app_nil_r.
    destruct e; simpl in He; try contradiction; reflexivity. }
  rewrite E. exact Hl.
Qed.

Lemma reach_le (p : phase) : reach p <= 3.
Proof. destruct p; simpl; lia. Qed.

(** *** The calls of the bootstrap tasks *)

Lemma calls_of_app (id : string) (a b : list event) :
  calls_of id (a ++ b) = calls_of id a ++ calls_of id b.
Proof. unfold calls_of. now rewrite calls_app, filter_app. Qed.

Lemma calls_of_none (id : string) (l : list event) :
  (forall o, ~ In (Call o id) l) -> calls_of id l = [].
Proof.
  induction l as [|e r IH]; intros H; [reflexivity|].
  change (e :: r) with ([e] ++ r). rewrite calls_of_app, IH.
  - rewrite app_nil_r. destruct e as [o id'| | | | | |]; try reflexivity.
    unfold calls_of. simpl. destruct (String.eqb_spec id' id) as [->|]; [|reflexivity].
    exfalso. apply (H o). now left.
  - intros o Hin. apply (H o). now right.
Qed.

Lemma calls_of_level (r k : nat) (evs : list event) :
  Forall (level r) evs -> k < 3 -> k <> r -> calls_of (boot k) evs = [].
Proof.
  intros Hevs Hk Hne. apply calls_of_none. intros o Hin.
  rewrite Forall_forall in Hevs.
  exact (level_not_call r k _ o (Hevs _ Hin) Hk Hne eq_refl).
Qed.

Lemma calls_of_callback (id0 id : string) (x : option error) (evs : list event) :
  Forall (callback_event id0 x) evs -> calls_of id evs = [].
Proof.
  intros Hevs. apply calls_of_none. intros o Hin.
  rewrite Forall_forall in Hevs. exact (Hevs _ Hin).
Qed.

Lemma in_sequence_app (id : string) (evs l : list event) :
  calls_of id (rev evs) = [] -> in_sequence id l -> in_sequence id (evs ++ l).
Proof.
  intros He (rest & H). exists rest.
  now rewrite rev_app_distr, calls_of_app, He, app_nil_r.
Qed.

Lemma in_sequence_level (r k : nat) (evs l : list event) :
  Forall (level r) evs -> k < 3 -> k <> r ->
  in_sequence (boot k) l -> in_sequence (boot k) (evs ++ l).
Proof.
  intros Hevs Hk Hne. apply in_sequence_app.
  apply (calls_of_level r); auto. now apply Forall_rev.
Qed.

Lemma in_sequence_callback (id0 id : string) (x : option error) (evs l : list event) :
  Forall (callback_event id0 x) evs ->
  in_sequence id l -> in_sequence id (evs ++ l).
Proof.
  intros Hevs. apply in_sequence_app.
  apply (calls_of_callback id0 id x). now apply Forall_rev.
Qed.

Lemma filter_all {A} (f : A -> bool) (l : list A) :
  Forall (fun x => f x = true) l -> filter f l = l.
Proof.
  induction 1 as [|x r Hx _ IH]; [reflexivity|]. simpl. now rewrite Hx, IH.
Qed.

(** The calls of a bootstrap task that starts on an untouched hook. *)
Lemma in_sequence_first (k : nat) (evs l : list event) (rest : list (op * string)) :
  fresh k l -> calls (rev evs) ++ rest = sequence_of (boot k) ->
  in_sequence (boot k) (evs ++ l).
Proof.
  intros Hf Hc. exists rest.
  rewrite rev_app_distr, calls_of_app.
  rewrite (calls_of_none (boot k) (rev l)).
  2:{ intros o Hin. apply in_rev in Hin. exact (Hf o Hin). }
  simpl. unfold calls_of. rewrite filter_all; [exact Hc|].
  assert (Hall : Forall (fun c => (snd c =? boot k)%string = true)
                   (calls (rev evs) ++ rest)).
  { rewrite Hc. unfold sequence_of. repeat constructor; apply String.eqb_refl. }
  apply Forall_app in Hall. exact (proj1 Hall).
Qed.

Lemma owners_ok (l l' : list timer) :
  map t_owner l' = map t_owner l ->
  Forall (fun t => t_owner t <> "userhooks") l ->
  Forall (fun t => t_owner t <> "userhooks") l'.
Proof.
  intros E H.
  apply (Forall_map t_owner (fun o => o <> "userhooks")).
  rewrite E. now apply (Forall_map t_owner (fun o => o <> "userhooks")).
Qed.

Lemma Forall_events (R : event -> Prop) (evs l : list event) :
  (forall e, R e -> no_userhooks_timeout e) ->
  Forall R evs -> Forall no_userhooks_timeout l ->
  Forall no_userhooks_timeout (evs ++ l).
Proof.
  intros HR Hevs Hl. apply Forall_app. split; [|exact Hl].
  eapply Forall_impl; eauto.
Qed.

(** Work inside a task, at the rank of the hook the task is for, or on
    the other hooks once every bootstrap task is resolved. *)
Lemma inv_batch (R : event -> Prop) (r : nat) (s s' : state) :
  invariant s -> batch R s s' ->
  (forall e, R e -> level r e /\ no_userhooks_timeout e) ->
  stage s = Await r \/
  (r = 3 /\ reach (stage s) = 3 /\ forall k, k < 3 -> resolved k (log s)) ->
  (r < 3 -> in_sequence (boot r) (log s')) ->
  invariant s'.
Proof.
  intros [Ht He Ho Hr Hf Htodo Hline Hseq]
    (Hst & Htd & (ts & Hts & Hown) & (evs & Hl & Hevs)) HR Hcase Hown_seq.
  assert (Hlev : Forall (level r) evs).
  { eapply Forall_impl; [|exact Hevs]. intros e H. now apply HR. }
  assert (Htodo' : stage s = Await r -> todo s = []).
  { intros E. destruct Htodo as [H|(H & _)]; [exact H|]. rewrite E in H. contradiction. }
  constructor.
  - rewrite Hts. apply Forall_app. now split.
  - rewrite Hl. eapply Forall_events; [|exact Hevs|exact He]. intros e H. now apply HR.
  - rewrite Hl. apply (ordered_app r); auto.
    intros k Hk Hkr. destruct Hcase as [E|(_ & _ & H)]; [|now apply H].
    specialize (Hr k Hk). rewrite E in Hr. now apply Hr.
  - intros k Hk. specialize (Hr k Hk). rewrite Hst, Hl.
    destruct (stage s) as [n|n|n|] eqn:Es; auto.
    + intros Hkn. apply (resolved_app k r); auto.
      destruct Hcase as [E|(-> & _)]; [discriminate|lia].
    + intros Hkn. apply (resolved_app k r); auto.
      destruct Hcase as [E|(-> & _)]; [inversion E; lia|lia].
    + apply (resolved_app k r); auto.
      destruct Hcase as [E|(-> & _)]; [discriminate|lia].
  - intros k Hk. specialize (Hf k Hk). rewrite Hst, Hl.
    destruct (stage s) as [n|n|n|] eqn:Es; auto.
    + intros Hkn. apply (fresh_app k r); auto.
      destruct Hcase as [E|(-> & _)]; [discriminate|lia].
    + intros Hkn. apply (fresh_app k r); auto.
      destruct Hcase as [E|(-> & _)]; [inversion E; lia|lia].
  - rewrite Htd, Hst, Hl. destruct Htodo as [H|(Hp & Hn & Hres)]; [now left|].
    right. split; [exact Hp|]. split; [exact Hn|].
    intros k Hk. apply (resolved_app k r); auto.
    destruct Hcase as [E|(-> & _)]; [|lia]. rewrite E in Hp. contradiction.
  - rewrite Hst, Hl.
    assert (E : reach (stage s) = Nat.min r 3).
    { destruct Hcase as [E|(-> & E & _)]; [now rewrite E|exact E]. }
    rewrite E in *. now apply lined_up_app.
  - intros k Hk. destruct (Nat.eq_dec k r) as [->|Hne]; [now apply Hown_seq|].
    rewrite Hl. apply (in_sequence_level r); auto.
Qed.

(** The callback made for a hook is invoked. *)
Lemma inv_callback (id : string) (x : option error) (s s' : state) :
  invariant s ->
  todo s' = todo s ->
  map t_owner (timers s') = map t_owner (timers s) ->
  stage_move id x (stage s) (stage s') ->
  adds (callback_event id x) s s' ->
  no_userhooks_error x ->
  (forall n, task_of id = Some n -> x = None -> stage s = Await n ->
             stage s' = Task (S n) -> resolved n (log s')) ->
  invariant s'.
Proof.
  intros [Ht He Ho Hr Hf Htodo Hline Hseq] Htd Hown Hmove (evs & Hl & Hevs) Hx Hnew.
  assert (Hlev : forall r, Forall (level r) evs).
  { intros r. eapply Forall_impl; [|exact Hevs]. intros e. apply level_callback. }
  assert (Hres : forall k, k < 3 -> resolved k (log s) -> resolved k (log s')).
  { intros k Hk H. rewrite Hl. apply (resolved_app k 3); auto. lia. }
  assert (Hfr : forall k, k < 3 -> fresh k (log s) -> fresh k (log s')).
  { intros k Hk H. rewrite Hl. apply (fresh_app k 3); auto. lia. }
  constructor.
  - eapply owners_ok; eauto.
  - rewrite Hl. eapply Forall_events; [|exact Hevs|exact He].
    intros e. now apply safe_callback.
  - rewrite Hl. apply (ordered_app 0); auto. intros k _ Hk. lia.
  - intros k Hk. specialize (Hr k Hk).
    destruct Hmove as [E|[E|[(n & Hid & Hnone & Es & Es')|(j & j' & Hid & Es & Es')]]].
    + rewrite E, Hl. destruct (stage s); auto; try intros Hkn;
        apply (resolved_app k 3); auto; lia.
    + rewrite E. exact I.
    + rewrite Es'. rewrite Es in Hr. intros Hkn.
      destruct (Nat.eq_dec k n) as [->|Hne]; [now apply Hnew|].
      apply Hres; auto. apply Hr. lia.
    + rewrite Es'. rewrite Es in Hr. auto.
  - intros k Hk. specialize (Hf k Hk).
    destruct Hmove as [E|[E|[(n & Hid & Hnone & Es & Es')|(j & j' & Hid & Es & Es')]]].
    + rewrite E. destruct (stage s); auto.
    + rewrite E. exact I.
    + rewrite Es'. rewrite Es in Hf. intros Hkn. apply Hfr; auto.
    + rewrite Es'. exact I.
  - rewrite Htd. destruct Htodo as [H|(Hp & Hn & Hall)]; [now left|].
    right. split; [|split; [exact Hn|auto]].
    destruct Hmove as [E|[E|[(n & Hid & Hnone & Es & Es')|(j & j' & Hid & Es & Es')]]].
    + now rewrite E.
    + rewrite E. exact I.
    + rewrite Es in Hp. contradiction.
    + rewrite Es'. exact I.
  - rewrite Hl. apply (lined_up_callback _ id x); [exact Hevs|].
    apply (lined_up_le (reach (stage s))); [|exact Hline].
    destruct Hmove as [E|[E|[(n & Hid & Hnone & Es & Es')|(j & j' & Hid & Es & Es')]]].
    + rewrite E. lia.
    + rewrite E. apply reach_le.
    + rewrite Es, Es'. simpl. lia.
    + rewrite Es, Es'. simpl. lia.
  - intros k Hk. rewrite Hl. apply (in_sequence_callback id _ x); auto.
Qed.

(** A stage over the other hooks runs to its end. *)
Lemma inv_staged (P : phase -> Prop) (n : nat) (s s' : state) :
  invariant s -> stage s = Task n -> 3 <= n ->
  staged P stage_event s s' ->
  (forall p, P p -> p = Finished \/ exists m, p = Task m /\ 3 <= m) ->
  invariant s'.
Proof.
  intros [Ht He Ho Hr Hf Htodo Hline Hseq] Es Hn (Hst & Htd & Hti & (evs & Hl & Hevs)) HP.
  assert (Hlev : Forall (level 3) evs).
  { eapply Forall_impl; [|exact Hevs]. intros e. apply level_stage. }
  assert (Hall : forall k, k < 3 -> resolved k (log s)).
  { intros k Hk. specialize (Hr k Hk). rewrite Es in Hr. apply Hr. lia. }
  assert (Hall' : forall k, k < 3 -> resolved k (log s')).
  { intros k Hk. rewrite Hl. apply (resolved_app k 3); auto. lia. }
  constructor.
  - now rewrite Hti.
  - rewrite Hl. eapply Forall_events; [|exact Hevs|exact He]. apply safe_stage.
  - rewrite Hl. apply (ordered_app 3); auto.
  - intros k Hk. destruct (stage s'); auto.
  - intros k Hk.
    destruct Hst as [E|HPs].
    + rewrite E, Es. intros. lia.
    + destruct (HP _ HPs) as [->|(m & -> & Hm)]; [exact I|]. intros. lia.
  - rewrite Htd. destruct Htodo as [H|(Hp & _)]; [now left|].
    rewrite Es in Hp. contradiction.
  - assert (E : reach (stage s') = Nat.min 3 3).
    { destruct Hst as [E|HPs]; [rewrite E, Es; simpl; lia|].
      destruct (HP _ HPs) as [->|(m & -> & Hm)]; simpl; lia. }
    rewrite E, Hl. apply lined_up_app; [exact Hlev|].
    rewrite Es in Hline. simpl in *. replace (Nat.min n 3) with 3 in Hline by lia.
    exact Hline.
  - intros k Hk. rewrite Hl. apply (in_sequence_level 3); auto. lia.
Qed.

Lemma inv_await (n : nat) (s : state) :
  invariant s -> stage s = Task n -> invariant (with_stage (Await n) s).
Proof.
  intros [Ht He Ho Hr Hf Htodo Hline Hseq] Es. constructor; simpl; auto.
  - intros k Hk. specialize (Hr k Hk). now rewrite Es in Hr.
  - intros k Hk Hnk. specialize (Hf k Hk). rewrite Es in Hf. apply Hf. lia.
  - destruct Htodo as [H|(Hp & _)]; [now left|]. rewrite Es in Hp. contradiction.
  - now rewrite Es in Hline.
Qed.

Lemma inv_settle (r : result unit) : invariant (state_of r) -> invariant (settle r).
Proof. destruct r; intros [? ? ? ? ? ? ? ?]; constructor; assumption. Qed.

(** The invariant reads the timers' owners, the log, the phase of the
    series and the load loop, and nothing else. *)
Lemma inv_ext (s s' : state) :
  map t_owner (timers s') = map t_owner (timers s) -> log s' = log s ->
  stage s' = stage s -> todo s' = todo s ->
  invariant s -> invariant s'.
Proof.
  intros Ht Hl Hs Htd [? ? ? ? ? ? ? ?]. constructor; rewrite ?Hl, ?Hs, ?Htd; auto.
  eapply owners_ok; eauto.
Qed.

Lemma inv_init (hs : dict) (cfg : jsval) : invariant (init hs cfg).
Proof.
  constructor; simpl; auto.
  - intros k Hk Hlt. lia.
  - intros k Hk _ o H. exact H.
  - split; constructor.
  - intros k Hk. eexists. reflexivity.
Qed.

Lemma inv_finish (err : option error) (s : state) :
  invariant s -> no_userhooks_error err ->
  invariant (with_stage Finished (with_log (CallerCb err :: log s) s)).
Proof.
  intros Hinv Herr.
  apply (inv_callback "" err s); try reflexivity; auto.
  - right. now left.
  - eapply adds_one; [reflexivity|reflexivity].
  - intros n Hn. discriminate.
Qed.

Lemma inv_advance_load (id : string) (rest : list string) (s : state) :
  invariant s -> todo s = id :: rest ->
  invariant (state_of ((modify (with_todo rest) ;;
                        tell (Log "silly" ("Loading hook: " ++ id)) ;;
                        loadHook id)%loader s)).
Proof.
  intros Hinv Htodo.
  destruct (inv_todo s Hinv) as [E|(Hp & Hn & Hres)]; [congruence|].
  rewrite Htodo in Hn. inversion Hn as [|? ? Hid Hrest]; subst.
  set (s1 := with_log (Log "silly" ("Loading hook: " ++ id) :: log s) (with_todo rest s)).
  assert (H3 : reach (stage s) = 3).
  { destruct (stage s); simpl in Hp; try contradiction; reflexivity. }
  assert (H1 : invariant s1).
  { destruct Hinv as [Ht He Ho Hr Hf _ Hline Hseq].
    assert (Hres1 : forall k, k < 3 -> resolved k (log s1)).
    { intros k Hk. apply (resolved_app k 3 [_]); auto; [lia|]. now repeat constructor. }
    constructor;
      cbn [log stage todo timers with_log with_todo s1 ordered] in *.
    - exact Ht.
    - constructor; [exact I|exact He].
    - split; [exact Ho|]. intros i Hi. discriminate.
    - intros k Hk. destruct (stage s); try contradiction; [now apply Hres1|exact I].
    - intros k Hk. destruct (stage s); try contradiction; exact I.
    - right. split; [exact Hp|]. split; [exact Hrest|exact Hres1].
    - exact Hline.
    - intros k Hk. apply (in_sequence_callback "" _ None [_]); auto.
      now repeat constructor. }
  change (invariant (state_of (loadHook id s1))).
  apply (inv_batch (load_event id) 3 s1); auto.
  - apply loadHook_batch. auto.
  - intros e He. split; [|eapply safe_load; eauto].
    apply level_load in He. unfold rank in He. now rewrite Hid in He.
  - right. split; [reflexivity|]. split; [exact H3|].
    intros k Hk. apply (resolved_app k 3 [_]); auto; [lia|]. now repeat constructor.
  - intros Hlt. lia.
Qed.

Lemma inv_bootTask (n : nat) (s : state) :
  invariant s -> stage s = Task n -> n < 3 ->
  invariant (state_of (bootTask w (boot n) (with_stage (Await n) s))).
Proof.
  intros Hinv Es Hn.
  pose proof (inv_await n s Hinv Es) as H0.
  set (s0 := with_stage (Await n) s) in *.
  destruct (bootTask_effect w (boot n) s0) as [[_ ->]|Hb].
  - destruct (hook_cb_callback (boot n) None s0) as (Ht & Hti & Hm & Hin & Ha).
    apply (inv_callback (boot n) None s0); auto.
    + now rewrite Hti.
    + exact I.
    + intros m Hm' _ Em _.
      rewrite task_of_boot in Hm' by exact Hn. inversion Hm'; subst m.
      assert (Hno : forall o, ~ In (Call o (boot n))
                                 (log (state_of (hook_cb (boot n) None s0)))).
      { intros o Hcall. destruct Ha as (evs & Hl & Hevs). rewrite Hl in Hcall.
        apply in_app_or in Hcall as [Hcall|Hcall].
        - rewrite Forall_forall in Hevs. exact (Hevs _ Hcall).
        - pose proof (inv_fresh s Hinv n Hn) as Hf. rewrite Es in Hf.
          exact (Hf (le_n n) o Hcall). }
      split; [exact Hin|]. split.
      * intros Hload. exfalso. exact (Hno _ Hload).
      * intros o Hcall. exfalso. exact (Hno _ Hcall).
  - apply (inv_batch _ n s0 _ H0 Hb); [|now left|].
    + intros e [He|He].
      * split; [|eapply safe_quiet; eauto].
        apply level_quiet in He. now rewrite rank_boot in He.
      * split; [|eapply safe_load; eauto].
        apply level_load in He. now rewrite rank_boot in He.
    + intros _.
      assert (Hf : fresh n (log s0)).
      { pose proof (inv_fresh s Hinv n Hn) as Hf. rewrite Es in Hf. exact (Hf (le_n n)). }
      destruct (truthy (read (hooks s0) (boot n))) eqn:Et.
      * destruct (bootTask_flights w (boot n) s0 Et) as (_ & _ & evs & Hl & H).
        rewrite Hl.
        destruct (bootTask w (boot n) s0) as [[] s1|h s1].
        -- destruct H as (Hc & _). apply (in_sequence_first n evs _ []); auto.
           now rewrite app_nil_r.
        -- destruct H as (_ & rest & Hc). now apply (in_sequence_first n evs _ rest).
      * rewrite bootTask_unfold, Et.
        destruct (hook_cb_callback (boot n) None s0) as (_ & _ & _ & _ & evs & Hl & Hevs).
        rewrite Hl. apply (in_sequence_callback (boot n) _ None); auto.
        exact (inv_calls s0 H0 n Hn).
Qed.

Lemma inv_run_task (n : nat) (s : state) :
  invariant s -> stage s = Task n -> todo s = [] ->
  invariant (state_of (run_task w n s)).
Proof.
  intros Hinv Es Htodo.
  destruct n as [|[|[|[|[|[|[|[|n]]]]]]]].
  - apply (inv_bootTask 0 s); auto.
  - apply (inv_bootTask 1 s); auto.
  - apply (inv_bootTask 2 s); auto.
  - apply (inv_staged _ 3 s _ Hinv Es (le_n 3) (validate_effect s)).
    intros p <-. right. exists 4. split; [reflexivity|lia].
  - refine (inv_staged _ 4 s _ Hinv Es _ (prepare_effect w s) _); [lia|].
    intros p <-. right. exists 5. split; [reflexivity|lia].
  - refine (inv_staged _ 5 s _ Hinv Es _ (defaults_effect w s) _); [lia|].
    intros p <-. right. exists 6. split; [reflexivity|lia].
  - refine (inv_staged _ 6 s _ Hinv Es _ (configureAll_effect w s) _); [lia|].
    intros p [->| ->]; [right; exists 7; split; [reflexivity|lia]|now left].
  - destruct (loadAll_effect s) as (Hti & [(Ho & Est & Htd & Hl)|(Htd & Hl & k & Est)]).
    + simpl run_task.
      assert (Hall : forall k, k < 3 -> resolved k (log s)).
      { intros k Hk. pose proof (inv_resolved s Hinv k Hk) as H.
        rewrite Es in H. apply H. lia. }
      destruct Hinv as [Ht He Hor Hr Hf Htd0 Hline Hseq].
      constructor; rewrite ?Hti, ?Hl, ?Est, ?Htd; auto.
      * constructor; [exact I|exact He].
      * split; [exact Hor|]. intros i Hi. discriminate.
      * apply (lined_up_callback _ "" None [CallerCb None]); [now repeat constructor|].
        apply (lined_up_le (reach (stage s))); [apply reach_le|exact Hline].
      * intros k0 Hk0. apply (in_sequence_callback "" _ None [CallerCb None]); auto.
        now repeat constructor.
    + simpl run_task.
      assert (Hall : forall k, k < 3 -> resolved k (log s)).
      { intros k0 Hk. pose proof (inv_resolved s Hinv k0 Hk) as H.
        rewrite Es in H. apply H. lia. }
      destruct Hinv as [Ht He Hor Hr Hf Htd0 Hline Hseq].
      constructor; rewrite ?Hti, ?Hl, ?Est, ?Htd; auto.
      * right. split; [exact I|]. split; [|exact Hall].
        apply Forall_forall. intros id Hid. eapply others_nonboot; eauto.
      * apply (lined_up_le (reach (stage s))); [apply reach_le|exact Hline].
  - simpl run_task. apply (inv_finish None s Hinv I).
Qed.

(** *** The loads in flight and the deferred callbacks *)

Lemma launched_ext (id : string) (evs l : list event) :
  launched id l -> launched id (evs ++ l).
Proof.
  intros [H1 H2]. split; [apply in_or_app; now right|].
  intros Hb o. apply in_or_app. right. now apply H2.
Qed.

Lemma pending_ext (s s' : state) (evs : list event) :
  pending s -> log s' = evs ++ log s ->
  incl (inflight s') (inflight s) -> incl (ticks s') (ticks s) -> pending s'.
Proof.
  intros [Hf Ht] Hl Hi Hti. constructor.
  - intros id h Hin. rewrite Hl. apply launched_ext. apply (Hf id h). now apply Hi.
  - intros id Hin. rewrite Hl. destruct (Ht id (Hti _ Hin)) as [H1 H2].
    split; [now apply launched_ext|apply in_or_app; now right].
Qed.

Lemma pending_same (s s' : state) (evs : list event) :
  pending s -> log s' = evs ++ log s ->
  inflight s' = inflight s -> ticks s' = ticks s -> pending s'.
Proof.
  intros H Hl Hi Ht. apply (pending_ext s s' evs H Hl).
  - rewrite Hi. apply incl_refl.
  - rewrite Ht. apply incl_refl.
Qed.

Lemma pending_tell (e : event) (s : state) :
  pending s -> pending (with_log (e :: log s) s).
Proof. intros H. apply (pending_same s _ [e] H); reflexivity. Qed.

Ltac pending_leaf :=
  let s0 := fresh "s" in
  let H0 := fresh "H" in
  intros s0 H0;
  first [ apply pending_tell; exact H0
        | apply (pending_same s0 _ [] H0); reflexivity ].

Lemma prepareHook_pending (id : string) : keeps pending (prepareHook w id).
Proof. unfold prepareHook. repeat keeps_step pending_leaf. Qed.

Lemma applyDefaults_pending (id : string) : keeps pending (applyDefaults w id).
Proof. unfold applyDefaults. repeat keeps_step pending_leaf. Qed.

Lemma configure_pending (id : string) : keeps pending (configure w id).
Proof. unfold configure. repeat keeps_step pending_leaf. Qed.

Lemma hook_cb_pending (id : string) (err : option error) : keeps pending (hook_cb id err).
Proof. unfold hook_cb. repeat keeps_step pending_leaf. Qed.

Lemma is_bootstrap_boot (n : nat) : n < 3 -> is_bootstrap (boot n) = true.
Proof. intros H. destruct n as [|[|[|n]]]; try reflexivity. lia. Qed.

Lemma pending_flight (s s' : state) (id : string) (h : option nat) (evs : list event) :
  pending s -> log s' = evs ++ log s -> ticks s' = ticks s ->
  inflight s' = inflight s ++ [(id, h)] -> launched id (log s') -> pending s'.
Proof.
  intros [Hf Ht] Hl Hti Hi Hnew. constructor.
  - intros id' h' Hin. rewrite Hi in Hin. apply in_app_or in Hin as [Hin|Hin].
    + rewrite Hl. apply launched_ext. now apply (Hf id' h').
    + destruct Hin as [E|[]]. inversion E; subst. exact Hnew.
  - intros id' Hin. rewrite Hti in Hin. rewrite Hl.
    destruct (Ht id' Hin) as [H1 H2].
    split; [now apply launched_ext|apply in_or_app; now right].
Qed.

Lemma loadHook_pending (id : string) :
  is_bootstrap id = false -> keeps pending (loadHook id).
Proof.
  intros Hb s Hs.
  destruct (loadHook_result id s) as (Ht & evs & _ & H).
  destruct (loadHook id s) as [[] s'|h s']; cbn [state_of] in *.
  - destruct H as (h & Hi & Hl).
    apply (pending_flight s s' id h (Call OpLoad id :: evs) Hs Hl Ht Hi).
    split; [rewrite Hl; now left|]. intros E. congruence.
  - destruct H as (Hi & Hl). now apply (pending_same s s' evs).
Qed.

Lemma in_calls (o : op) (id : string) (l : list event) :
  In (o, id) (calls l) -> In (Call o id) l.
Proof.
  induction l as [|e r IH]; [intros []|].
  change (e :: r) with ([e] ++ r). rewrite calls_app. intros H.
  apply in_app_or in H as [H|H].
  - left. destruct e; simpl in H; try contradiction.
    destruct H as [H|[]]. now inversion H.
  - right. now apply IH.
Qed.

Lemma bootTask_pending (id : string) : keeps pending (bootTask w id).
Proof.
  intros s Hs. destruct (truthy (read (hooks s) id)) eqn:Et.
  - destruct (bootTask_flights w id s Et) as (_ & Ht & evs & Hl & H).
    destruct (bootTask w id s) as [[] s'|h s']; cbn [state_of] in *.
    + destruct H as (Hc & h & Hi).
      apply (pending_flight s s' id h evs Hs Hl Ht Hi).
      assert (Hall : forall o, In (Call o id) (log s')).
      { intros o. rewrite Hl. apply in_or_app. left. apply in_rev.
        apply in_calls. rewrite Hc. destruct o; simpl; tauto. }
      split; [apply Hall|]. intros _. exact Hall.
    + now apply (pending_same s s' evs).
  - rewrite bootTask_unfold, Et. now apply hook_cb_pending.
Qed.

Lemma run_task_pending (n : nat) : keeps pending (run_task w n).
Proof.
  destruct n as [|[|[|[|[|[|[|[|n]]]]]]]]; cbn [run_task];
    try (apply keeps_bind; [apply keeps_modify; pending_leaf|intros _];
         apply bootTask_pending).
  - unfold validate. repeat keeps_step pending_leaf.
  - unfold prepare. apply keeps_bind; [apply keeps_get|]. intros s0.
    apply keeps_bind.
    + apply keeps_for_each. intros id. apply prepareHook_pending.
    + intros _. apply keeps_modify. pending_leaf.
  - unfold defaults. apply keeps_bind; [apply keeps_get|]. intros s0.
    apply keeps_bind.
    + apply keeps_for_each. intros id. apply applyDefaults_pending.
    + intros _. apply keeps_modify. pending_leaf.
  - unfold configureAll. apply keeps_bind; [apply keeps_get|]. intros s0.
    apply keeps_bind.
    + apply keeps_for_each. intros id. apply keeps_try_catch;
        [apply configure_pending|].
      intros e. repeat keeps_step pending_leaf.
    + intros _. repeat keeps_step pending_leaf.
  - unfold loadAll. repeat keeps_step pending_leaf.
  - repeat keeps_step pending_leaf.
Qed.

Lemma take_inflight_In (id : string) (l rest : list (string * option nat))
    (h : option nat) :
  take_inflight id l = Some (h, rest) -> In (id, h) l /\ incl rest l.
Proof.
  revert rest. induction l as [|[id' h'] r IH]; intros rest; simpl; [discriminate|].
  destruct (String.eqb_spec id id') as [->|Hne].
  - intros E. inversion E; subst. split; [now left|apply incl_tl, incl_refl].
  - destruct (take_inflight id r) as [[h1 r1]|]; [|discriminate].
    intros E. inversion E; subst. destruct (IH r1 eq_refl) as [H1 H2].
    split; [now right|]. intros x [<-|Hx]; [now left|right; now apply H2].
Qed.

Lemma pending_settle (r : result unit) : pending (state_of r) -> pending (settle r).
Proof. destruct r; intros [? ?]; constructor; assumption. Qed.

Lemma completed_same (c : completion) (rest : list (string * option nat)) (s : state) :
  let s1 := completed c rest s in
  timers s1 = timers s /\ log s1 = log s /\ stage s1 = stage s /\ todo s1 = todo s /\
  ticks s1 = ticks s /\ inflight s1 = rest /\ called s1 = called s /\
  hookTimeouts s1 = hookTimeouts s /\ halted s1 = halted s.
Proof. cbv zeta. unfold completed. destruct (c_config c); repeat split. Qed.

(** The loads in flight were called, and the deferred callbacks are
    those of hooks announced as loaded, after every step. *)
Lemma exec_pending (l : label) (s s' : state) :
  pending s -> invariant s -> exec w l s = Some s' -> pending s'.
Proof.
  intros Hs Hinv. unfold exec. destruct (halted s); [discriminate|].
  destruct l as [|h|id c|].
  - destruct (todo s) as [|id rest] eqn:Htodo.
    + destruct (stage s) as [n| | |]; try discriminate.
      intros H. inversion H. apply pending_settle. now apply run_task_pending.
    + intros H. inversion H. apply pending_settle.
      set (s1 := with_log (Log "silly" ("Loading hook: " ++ id) :: log s)
                   (with_todo rest s)).
      change (pending (state_of (loadHook id s1))).
      apply loadHook_pending.
      * destruct (inv_todo s Hinv) as [E|(_ & Hn & _)]; [congruence|].
        rewrite Htodo in Hn. inversion Hn; subst. now apply task_of_bootstrap.
      * apply (pending_same s s1 [Log "silly" ("Loading hook: " ++ id)] Hs); reflexivity.
  - destruct (nth_error (timers s) h) as [t|]; [|discriminate].
    destruct (t_status t); try discriminate.
    intros H. inversion H. apply pending_settle.
    set (s1 := with_timers (fire h (timers s)) s).
    change (pending (state_of (tooLong (t_owner t) (t_interval t) s1))).
    assert (P1 : pending s1) by (apply (pending_same s s1 [] Hs); reflexivity).
    unfold tooLong, bind, get.
    destruct (config_key _ _); [|exact P1]. now apply hook_cb_pending.
  - destruct (take_inflight id (inflight s)) as [[h rest]|] eqn:Et; [|discriminate].
    apply take_inflight_In in Et as [Hin Hrest].
    intros H. inversion H. apply pending_settle.
    change (pending (state_of (loaded id h (c_err c) (completed c rest s)))).
    rewrite loaded_unfold.
    set (s1 := completed c rest s).
    destruct (completed_same c rest s) as (_ & El1 & _ & _ & Eti1 & Ei1 & _).
    fold s1 in El1, Eti1, Ei1.
    assert (P1 : pending s1).
    { apply (pending_ext s s1 [] Hs El1).
      - now rewrite Ei1.
      - rewrite Eti1. apply incl_refl. }
    destruct (after_completion_same id h (c_err c) s1)
      as (_ & _ & _ & Ei2 & Eti2 & _ & _ & _ & _ & El2 & _).
    set (s2 := after_completion id h (c_err c) s1) in *.
    assert (P2 : pending s2) by now apply (pending_same s1 s2 _ P1 El2).
    destruct (truthy (c_err c)) eqn:Eerr; [now apply hook_cb_pending|].
    cbn [state_of]. constructor; cbn [inflight ticks log with_ticks].
    + apply (pend_flights s2 P2).
    + intros id' Hin'. apply in_app_or in Hin' as [Hin'|[<-|[]]].
      * apply (pend_ticks s2 P2). exact Hin'.
      * rewrite El2, El1. split.
        -- apply launched_ext. exact (pend_flights s Hs id h Hin).
        -- apply in_or_app. left. unfold announcement. rewrite Eerr. now left.
  - destruct (todo s); [|discriminate].
    destruct (ticks s) as [|id rest] eqn:Eti; [discriminate|].
    intros H. inversion H. apply pending_settle.
    change (pending (state_of (hook_cb id None (with_ticks rest s)))).
    apply hook_cb_pending. apply (pending_ext s _ [] Hs); try reflexivity.
    + apply incl_refl.
    + cbn [ticks with_ticks]. rewrite Eti. apply incl_tl, incl_refl.
Qed.

(** Every step keeps the invariant. *)
Lemma exec_invariant (l : label) (s s' : state) :
  invariant s -> pending s -> exec w l s = Some s' -> invariant s'.
Proof.
  intros Hinv Hpend. unfold exec.
  destruct (halted s); [discriminate|].
  destruct l as [|h|id c|].
  - destruct (todo s) as [|id rest] eqn:Htodo.
    + destruct (stage s) as [n| | |] eqn:Es; try discriminate.
      intros H. inversion H. apply inv_settle. now apply inv_run_task.
    + intros H. inversion H. apply inv_settle. now apply inv_advance_load.
  - destruct (nth_error (timers s) h) as [t|] eqn:Eh; [|discriminate].
    destruct (t_status t); try discriminate.
    intros H. inversion H. apply inv_settle.
    set (s1 := with_timers (fire h (timers s)) s).
    change (invariant (state_of (tooLong (t_owner t) (t_interval t) s1))).
    destruct (tooLong_effect (t_owner t) (t_interval t) s1)
      as (key & Htd & Hti & Hm & Ha).
    apply (inv_callback (t_owner t) (Some (HookTimeout (t_owner t) key (t_interval t))) s);
      auto.
    + rewrite Hti. apply owners_fire.
    + simpl. pose proof (inv_timers s Hinv) as Ht. rewrite Forall_forall in Ht.
      apply Ht. eapply nth_error_In; eauto.
    + intros n _ Hx. discriminate.
  - destruct (take_inflight id (inflight s)) as [[h rest]|]; [|discriminate].
    intros H. inversion H. apply inv_settle.
    change (invariant (state_of (loaded id h (c_err c) (completed c rest s)))).
    rewrite loaded_unfold.
    set (s1 := completed c rest s).
    destruct (completed_same c rest s) as (Et & El & Est & Etd & _).
    fold s1 in Et, El, Est, Etd.
    assert (P1 : invariant s1) by (apply (inv_ext s s1); auto; now rewrite Et).
    destruct (after_completion_same id h (c_err c) s1)
      as (Est2 & Etd2 & _ & _ & _ & _ & _ & _ & _ & El2 & Eo2).
    set (s2 := after_completion id h (c_err c) s1) in *.
    assert (P2 : invariant s2).
    { apply (inv_callback id (outcome (c_err c)) s1); auto.
      - now left.
      - exists (announcement id (c_err c)). split; [exact El2|].
        unfold announcement.
        destruct (truthy (c_err c)), (negb (id =? "userhooks")%string);
          repeat constructor.
      - unfold outcome. destruct (truthy (c_err c)); exact I.
      - intros n _ _ E E'. rewrite Est2, E in E'. discriminate. }
    destruct (truthy (c_err c)).
    + destruct (hook_cb_callback id (Some (Raised (c_err c))) s2)
        as (Htd3 & Hti3 & Hm & _ & Ha).
      apply (inv_callback id (Some (Raised (c_err c))) s2); auto.
      * now rewrite Hti3.
      * exact I.
      * intros n _ Hx. discriminate.
    + cbn [state_of]. apply (inv_ext s2); auto.
  - destruct (todo s) eqn:Htodo; [|discriminate].
    destruct (ticks s) as [|id rest] eqn:Eti; [discriminate|].
    intros H. inversion H. apply inv_settle.
    set (s1 := with_ticks rest s).
    change (invariant (state_of (hook_cb id None s1))).
    assert (P1 : invariant s1) by (apply (inv_ext s s1); auto).
    destruct (hook_cb_callback id None s1) as (Htd3 & Hti3 & Hm & Hin & Ha).
    apply (inv_callback id None s1); auto.
    + now rewrite Hti3.
    + exact I.
    + intros n Hn _ _ _. apply task_of_eq in Hn as [-> Hn].
      destruct (pend_ticks s Hpend (boot n)) as [[_ Hall] Hld];
        [rewrite Eti; now left|].
      destruct Ha as (evs & Hl & _).
      assert (Hold : forall e, In e (log s) -> In e (log (state_of (hook_cb (boot n) None s1)))).
      { intros e He. rewrite Hl. apply in_or_app. now right. }
      split; [exact Hin|]. split.
      * intros _. now apply Hold.
      * intros o _ o'. apply Hold. apply Hall. now apply is_bootstrap_boot.
Qed.

Lemma pending_init (hs : dict) (cfg : jsval) : pending (init hs cfg).
Proof. constructor; simpl; intros; contradiction. Qed.

Lemma run_steady (ls : list label) (s s' : state) :
  invariant s -> pending s -> run w ls s = Some s' -> invariant s' /\ pending s'.
Proof.
  revert s. induction ls as [|l r IH]; intros s Hinv Hp; simpl.
  - intros H. inversion H. subst. now split.
  - destruct (exec w l s) as [s1|] eqn:E; [|discriminate].
    apply IH.
    + eapply exec_invariant; eauto.
    + eapply exec_pending; eauto.
Qed.

Lemma run_invariant (ls : list label) (s s' : state) :
  invariant s -> pending s -> run w ls s = Some s' -> invariant s'.
Proof. intros Hi Hp Hr. exact (proj1 (run_steady ls s s' Hi Hp Hr)). Qed.

End Invariant.

(* ===================================================================== *)
(** ** The timeout guard *)
(* ===================================================================== *)

Section TimeoutGuard.

Variable w : world.

Lemma hook_cb_first (id : string) (err : option error) (s : state) :
  existsb (String.eqb id) (called s) = false ->
  exists s' evs,
    hook_cb id err s = Ok tt s' /\
    called s' = id :: called s /\ inflight s' = inflight s /\
    halted s' = halted s /\
    log s' = evs ++ Cb id err :: log s /\
    Forall (fun e => e = CallerCb err) evs.
Proof.
  intros Hc. unfold hook_cb, bind, tell, modify, get, hooksReady, caller_cb, ret.
  cbn [called stage with_log with_called]. rewrite Hc.
  destruct (task_of id) as [n|], (stage s) as [m|m|k|];
    try (eexists; exists []; repeat split; constructor).
  - destruct (Nat.eqb n m); [destruct err as [e|]|].
    + eexists; exists [CallerCb (Some e)]. repeat split. now repeat constructor.
    + eexists; exists []. repeat split. constructor.
    + eexists; exists []. repeat split. constructor.
  - destruct err as [e|]; [|destruct (Nat.leb k 1)].
    + eexists; exists [CallerCb (Some e)]. repeat split. now repeat constructor.
    + eexists; exists [CallerCb None]. repeat split. now repeat constructor.
    + eexists; exists []. repeat split. constructor.
Qed.

Lemma hook_cb_again (id : string) (err : option error) (s : state) :
  existsb (String.eqb id) (called s) = true ->
  hook_cb id err s = Halt (Uncaught AlreadyCalled) (with_log (Cb id err :: log s) s).
Proof.
  intros Hc. unfold hook_cb, bind, tell, modify, get.
  cbn [called with_log]. now rewrite Hc.
Qed.

(** For a hook other than [userhooks], a loadHook that gets as far as
    calling [load] has set a timer with the resolved interval, tracked
    it in [hookTimeouts], and left the call in flight under that timer. *)
Lemma loadHook_arms_timer (id : string) (s s' : state) :
  id <> "userhooks" ->
  loadHook id s = Ok tt s' ->
  exists interval,
    timeoutInterval (config s) (read (hooks s) id) id = Some interval /\
    timers s' = timers s ++ [{| t_owner := id; t_interval := interval;
                                t_status := Pending |}] /\
    hookTimeouts s' = hookTimeouts s ++ [List.length (timers s)] /\
    inflight s' = inflight s ++ [(id, Some (List.length (timers s)))] /\
    log s' = Call OpLoad id :: SetTimeout (List.length (timers s)) id interval :: log s.
Proof.
  intros Hid. unfold loadHook, bind, get, ret, throw, tell, modify, getp.
  destruct (timeoutInterval (config s) (read (hooks s) id) id) as [iv|];
    [|discriminate].
  apply String.eqb_neq in Hid. rewrite Hid. simpl negb. cbv iota.
  cbn [hooks with_log with_timers with_hookTimeouts].
  destruct (get_prop (read (hooks s) id) "load") as [ld|]; [|discriminate].
  destruct ld; try discriminate.
  intros H. inversion H. exists iv. repeat split.
Qed.

End TimeoutGuard.

(** C1.  The registry [{foo: factory}] with [_hookTimeout] 50, the
    [load] of [foo] called and not called back, its timer pending.  The
    timer fires: the callback made for [foo] is invoked with a timeout
    error that carries the id and the interval, and the series reports
    it to the caller.  The [load] of [foo] then calls back: the
    completion is not ignored, the hook is logged and announced as
    loaded, and on the next tick the callback made for [foo] is invoked
    a second time, upon which async throws.  Had the [load] called back
    first, the timer would have been cleared and could not fire. *)
Theorem late_completion_calls_back_twice :
  let run ls := Samples.final Samples.app (Samples.advance 9 ++ ls)
                  [("foo", Samples.factory)] Samples.fifty in
  let timeout := Some (HookTimeout "foo" "foo" (JNum 50)) in
  let timed_out := run [TimerFires 0] in
  let completed_late := run [TimerFires 0; LoadCalls "foo" Samples.done] in
  let next_tick := run [TimerFires 0; LoadCalls "foo" Samples.done; Tick] in
  let completed_first := run [LoadCalls "foo" Samples.done] in
  map t_status (timers (run [])) = [Pending] /\
  trace timed_out = trace (run []) ++ [Cb "foo" timeout; CallerCb timeout] /\
  halted timed_out = None /\
  trace completed_late =
    trace timed_out ++ [ Log "verbose" "foo hook loaded successfully.";
                         Emit "hook:foo:loaded" ] /\
  ticks completed_late = ["foo"] /\
  trace next_tick = trace completed_late ++ [Cb "foo" None] /\
  halted next_tick = Some (Uncaught AlreadyCalled) /\
  ~ completion_ignored_after_timeout (trace next_tick) "foo" /\
  map t_status (timers completed_first) = [Cleared] /\
  exec Samples.app (TimerFires 0) completed_first = None.
Proof.
  cbv zeta. repeat apply conj; try (vm_compute; reflexivity).
  set (s := Samples.final _ _ _ _).
  assert (E : trace s =
    [ Cb "moduleloader" None; Cb "userconfig" None; Cb "userhooks" None;
      Call OpPrepare "foo"; Prepared "foo"; Call OpDefaults "foo";
      Call OpConfigure "foo"; Log "silly" "Loading hook: foo";
      SetTimeout 0 "foo" (JNum 50); Call OpLoad "foo" ]
    ++ Cb "foo" (Some (HookTimeout "foo" "foo" (JNum 50)))
    :: [ CallerCb (Some (HookTimeout "foo" "foo" (JNum 50)));
         Log "verbose" "foo hook loaded successfully.";
         Emit "hook:foo:loaded"; Cb "foo" None ])
    by (vm_compute; reflexivity).
  intros H. destruct (H _ _ _ E) as [Hno _].
  - now exists "foo", (JNum 50).
  - apply Hno. unfold loaded_event. right. right. left. reflexivity.
Qed.

Section Cleanup.

Lemma settled_clear_same (h : nat) (ts : list timer) : settled (clear h ts) h.
Proof.
  unfold settled, clear. intros t.
  destruct (nth_error ts h) as [t0|] eqn:E; [|congruence].
  destruct (t_status t0) eqn:Est.
  - assert (Hlen : List.length (firstn h ts) = h).
    { apply firstn_length_le. apply Nat.lt_le_incl. apply nth_error_Some. congruence. }
    rewrite nth_error_app2 by lia. rewrite Hlen, Nat.sub_diag. simpl.
    intros H. inversion H. simpl. discriminate.
  - rewrite E. intros H. inversion H; subst. congruence.
  - rewrite E. intros H. inversion H; subst. congruence.
Qed.

Lemma settled_clear_other (h x : nat) (ts : list timer) :
  settled ts x -> settled (clear h ts) x.
Proof.
  unfold settled, clear. intros Hx t.
  destruct (nth_error ts h) as [t0|] eqn:E; [|apply Hx].
  destruct (t_status t0) eqn:Est; try apply Hx.
  destruct (Nat.eq_dec x h) as [->|Hne].
  - intros _. exfalso. apply (Hx t0 E). exact Est.
  - assert (Hlen : List.length (firstn h ts) = h).
    { apply firstn_length_le. apply Nat.lt_le_incl. apply nth_error_Some. congruence. }
    intros H. apply (Hx t). rewrite (nth_error_split ts h t0 E).
    destruct (Nat.lt_ge_cases x h) as [Hlt|Hge].
    + rewrite nth_error_app1 in H |- * by lia. exact H.
    + rewrite nth_error_app2 in H |- * by lia. rewrite Hlen in *.
      destruct (x - h) as [|d] eqn:Ed; [lia|]. exact H.
Qed.

Lemma clear_all_settles (hs : list nat) (s s1 : state) :
  for_each hs clearTimeout s = Ok tt s1 ->
  (forall x, In x hs -> settled (timers s1) x) /\
  (forall x, settled (timers s) x -> settled (timers s1) x).
Proof.
  revert s. induction hs as [|h r IH]; intros s; simpl.
  - intros H. inversion H. subst. split; [contradiction|auto].
  - unfold bind at 1. unfold clearTimeout at 1, modify.
    intros H. destruct (IH _ H) as [Hin Hkeep]. simpl in Hkeep. split.
    + intros x [->|Hx]; [|now apply Hin].
      apply Hkeep. apply settled_clear_same.
    + intros x Hx. apply Hkeep. now apply settled_clear_other.
Qed.

(** When a load reports an error, no timer tracked in [hookTimeouts] is
    pending afterwards, whichever hook it was set for: none of them can
    fire any more. *)
Lemma load_failure_clears_all (id : string) (h : option nat) (err : jsval) (s : state) :
  truthy err = true ->
  forall x, In x (hookTimeouts s) ->
    settled (timers (state_of (loaded id h err s))) x.
Proof.
  intros Herr x Hx.
  remember (state_of (loaded id h err s)) as s' eqn:Hs'.
  unfold loaded in Hs'. unfold bind at 1 in Hs'.
  assert (Hown : exists s0,
    (if negb (id =? "userhooks")%string
     then match h with Some h0 => clearTimeout h0 | None => ret tt end
     else ret tt) s = Ok tt s0 /\ hookTimeouts s0 = hookTimeouts s).
  { destruct (negb (id =? "userhooks")%string); [destruct h as [h0|]|];
      eexists; split; reflexivity. }
  destruct Hown as (s0 & E0 & Hh0). rewrite E0, Herr in Hs'.
  unfold bind at 1 in Hs'. unfold get in Hs'. unfold bind at 1 in Hs'.
  destruct (clear_all_ok (hookTimeouts s0) s0) as (s1 & E1 & _).
  rewrite E1 in Hs'.
  destruct (clear_all_settles _ _ _ E1) as [Hall _].
  assert (Hx1 : settled (timers s1) x) by (apply Hall; now rewrite Hh0).
  assert (H2 : exists s2,
     (if negb (id =? "userhooks")%string
      then tell (Log "error" ("A hook (`" ++ id ++ "`) failed to load!"))
      else ret tt) s1 = Ok tt s2 /\ timers s2 = timers s1).
  { destruct (negb (id =? "userhooks")%string); eexists; split; reflexivity. }
  destruct H2 as (s2 & E2 & Ht2).
  unfold bind at 1 in Hs'. rewrite E2 in Hs'.
  unfold bind at 1 in Hs'. unfold tell at 1, modify in Hs'.
  match type of Hs' with
  | _ = state_of (hook_cb _ _ ?s3) =>
      destruct (hook_cb_callback id (Some (Raised err)) s3) as (_ & Hti & _)
  end.
  cbv zeta in Hti. rewrite <- Hs' in Hti. rewrite Hti. simpl. now rewrite Ht2.
Qed.

(** C3.  The registry [{a: factory, b: factory}], both loads called and
    neither called back.  When the timer of [a] fires, the timer of [b]
    stays pending, and it fires in turn with a timeout error for [b].
    When instead the load of [a] reports an error, both timers are
    cleared and the timer of [b] cannot fire. *)
Theorem timeout_leaves_sibling_timer_pending :
  let run ls := Samples.final Samples.app (Samples.both_loading ++ ls)
                  Samples.two_hooks (JObj []) in
  let timed_out := run [TimerFires 0] in
  let then_b := run [TimerFires 0; TimerFires 1] in
  let load_failed := run [LoadCalls "a" Samples.failed] in
  map t_status (timers (run [])) = [Pending; Pending] /\
  trace timed_out =
    trace (run []) ++ [ Cb "a" (Some (HookTimeout "a" "a" (JNum 20000)));
                        CallerCb (Some (HookTimeout "a" "a" (JNum 20000))) ] /\
  hookTimeouts timed_out = [0; 1] /\
  map t_status (timers timed_out) = [Fired; Pending] /\
  trace then_b =
    trace timed_out ++ [ Cb "b" (Some (HookTimeout "b" "b" (JNum 20000))) ] /\
  trace load_failed =
    trace (run []) ++ [ Log "error" "A hook (`a`) failed to load!";
                        Emit "hook:a:error";
                        Cb "a" (Some (Raised (JStr "boom")));
                        CallerCb (Some (Raised (JStr "boom"))) ] /\
  map t_status (timers load_failed) = [Cleared; Cleared] /\
  exec Samples.app (TimerFires 1) load_failed = None.
Proof. cbv zeta. repeat apply conj; vm_compute; reflexivity. Qed.

End Cleanup.

Section Disabling.

Variable w : world.

(** What prepareHook does when the definition of [id] is [false] or
    ['false'], or the definition of its prefix is [false] at that
    moment: it deletes [id] and returns. *)
Lemma prepareHook_disabled (id : string) (s : state) :
  is_false (read (hooks s) id) || is_false_string (read (hooks s) id)
    || is_false (read (hooks s) (split_head id)) = true ->
  prepareHook w id s =
    Ok tt (with_hooks (remove id (hooks s))
             (with_log (Call OpPrepare id :: log s) s)) /\
  lookup id (remove id (hooks s)) = None.
Proof.
  intros H. split.
  - unfold prepareHook, bind, tell, modify, get. cbn [hooks with_log].
    now rewrite H.
  - rewrite lookup_remove. now rewrite String.eqb_refl.
Qed.

(** prepareHook(id) writes the registry at [id] and nowhere else. *)
Lemma prepareHook_hooks (id : string) (s : state) :
  let s' := state_of (prepareHook w id s) in
  hooks s' = hooks s \/ hooks s' = remove id (hooks s) \/
  exists v, hooks s' = assign id v (hooks s).
Proof.
  unfold prepareHook, bind, tell, modify, get, caller_cb, getp, setp, returned,
    ret, throw, process_exit.
  cbn [hooks with_log].
  destruct (is_false (read (hooks s) id) || is_false_string (read (hooks s) id)
            || is_false (read (hooks s) (split_head id))); [right; now left|].
  destruct (truthy (read (hooks s) "userconfig")
            && negb (truthy (read (hooks s) "moduleloader"))); [now left|].
  destruct (isObject (read (hooks s) id) && negb (isArray (read (hooks s) id))
            && negb (isFunction (read (hooks s) id))).
  - destruct (get_prop (read (hooks s) id) "index") as [hp|]; [|now left].
    destruct hp; try (now left).
    destruct (call_factory w fn) as [def|]; [|now left].
    destruct (set_prop def "identity" _) as [d1|]; [|now left].
    destruct (get_prop d1 "identity") as [i|]; [|now left].
    destruct (set_prop d1 "configKey" _) as [d2|]; [|now left].
    destruct (new_Hook w d2) as [hk|]; [|now left].
    right; right. eexists. reflexivity.
  - destruct (read (hooks s) id); try (now left).
    destruct (call_factory w fn) as [def|]; [|now left].
    destruct (set_prop def "identity" _) as [d1|]; [|now left].
    destruct (get_prop d1 "identity") as [i|]; [|now left].
    destruct (set_prop d1 "configKey" _) as [d2|]; [|now left].
    destruct (new_Hook w d2) as [hk|]; [|now left].
    right; right. eexists. reflexivity.
Qed.

Lemma prepareHook_other (id x : string) (s : state) :
  x <> id ->
  lookup id (hooks (state_of (prepareHook w x s))) = lookup id (hooks s) /\
  (In (Prepared id) (log (state_of (prepareHook w x s))) -> In (Prepared id) (log s)).
Proof.
  intros Hne. split.
  - apply String.eqb_neq in Hne.
    destruct (prepareHook_hooks x s) as [H|[H|(v & H)]]; cbv zeta in H; rewrite H.
    + reflexivity.
    + rewrite lookup_remove. now rewrite String.eqb_sym, Hne.
    + rewrite lookup_assign. now rewrite String.eqb_sym, Hne.
  - destruct (prepareHook_quiet w x s) as [_ (evs & Hl & Hevs)]. rewrite Hl.
    intros Hin. apply in_app_or in Hin as [Hin|Hin]; [|exact Hin].
    rewrite Forall_forall in Hevs. apply Hevs in Hin. simpl in Hin. congruence.
Qed.

Lemma prepare_loop_other (id : string) (l : list string) (s s' : state) :
  ~ In id l ->
  for_each l (prepareHook w) s = Ok tt s' ->
  lookup id (hooks s') = lookup id (hooks s) /\
  (In (Prepared id) (log s') -> In (Prepared id) (log s)).
Proof.
  revert s. induction l as [|x r IH]; intros s Hnot; simpl.
  - intros H. inversion H. subst. auto.
  - unfold bind at 1. destruct (prepareHook w x s) as [[] s1|] eqn:E; [|discriminate].
    intros H. destruct (IH s1) as [Hl Hp]; [simpl in Hnot; tauto|exact H|].
    destruct (prepareHook_other id x s) as [Hl1 Hp1]; [simpl in Hnot; intuition|].
    rewrite E in Hl1, Hp1. simpl in Hl1, Hp1. split; [congruence|auto].
Qed.

Lemma prepare_loop_drops (id : string) (l : list string) (s s1 : state) :
  In id l -> NoDup l ->
  is_false (read (hooks s) id) || is_false_string (read (hooks s) id) = true ->
  for_each l (prepareHook w) s = Ok tt s1 ->
  lookup id (hooks s1) = None /\
  (In (Prepared id) (log s1) -> In (Prepared id) (log s)).
Proof.
  revert s. induction l as [|x r IH]; intros s Hin Hnd Hdis Hloop; [contradiction|].
  inversion Hnd as [|? ? Hx Hr]; subst.
  simpl in Hloop. unfold bind at 1 in Hloop.
  destruct (prepareHook w x s) as [[] s0|] eqn:E; [|discriminate].
  destruct (String.eqb_spec x id) as [->|Hne].
  - assert (Hd : is_false (read (hooks s) id) || is_false_string (read (hooks s) id)
                 || is_false (read (hooks s) (split_head id)) = true)
      by (rewrite Hdis; reflexivity).
    destruct (prepareHook_disabled id s Hd) as [E' Hgone].
    rewrite E' in E. inversion E. subst s0.
    destruct (prepare_loop_other id r _ s1 Hx Hloop) as [Hl1 Hp1].
    split; [now rewrite Hl1|].
    intros H. apply Hp1 in H. simpl in H. destruct H as [H|H]; [discriminate|exact H].
  - destruct (prepareHook_other id x s Hne) as [Hl0 Hp0].
    rewrite E in Hl0, Hp0. simpl in Hl0, Hp0.
    destruct (IH s0) as [Hl1 Hp1]; auto.
    + destruct Hin as [->|Hin]; [contradiction|exact Hin].
    + unfold read. rewrite Hl0. exact Hdis.
Qed.

(** In the prepare stage, a hook other than the bootstrap ones whose
    own definition is [false] or ['false'] is deleted from the registry
    and no Hook is made for it; the stages after this one, which go over
    the keys the registry has when they start, do not find it. *)
Lemma prepare_drops_disabled (id : string) (s s' : state) :
  NoDup (keys (hooks s)) ->
  In id (others s) ->
  is_false (read (hooks s) id) || is_false_string (read (hooks s) id) = true ->
  prepare w s = Ok tt s' ->
  lookup id (hooks s') = None /\
  ~ In id (others s') /\
  (In (Prepared id) (log s') -> In (Prepared id) (log s)).
Proof.
  intros Hnd Hin Hdis Hrun.
  assert (Hloop : exists s1, for_each (others s) (prepareHook w) s = Ok tt s1 /\
                             hooks s' = hooks s1 /\ log s' = log s1).
  { unfold prepare in Hrun. unfold bind at 1 in Hrun. unfold get in Hrun.
    unfold bind at 1 in Hrun.
    destruct (for_each (others s) (prepareHook w) s) as [[] s1|]; [|discriminate].
    inversion Hrun. exists s1. repeat split. }
  destruct Hloop as (s1 & Hloop & Hh & Hl).
  assert (Hnd' : NoDup (others s)) by (apply NoDup_filter; exact Hnd).
  destruct (prepare_loop_drops id _ s s1 Hin Hnd' Hdis Hloop) as [Hgone Hprep].
  rewrite Hh, Hl. repeat split; auto.
  intros Hkey. unfold others, without_bootstrap in Hkey.
  apply filter_In in Hkey as [Hkey _]. rewrite Hh in Hkey.
  apply lookup_in_keys in Hkey. contradiction.
Qed.

End Disabling.

(** C4.  The registry [{foo: false, 'foo.bar': factory}], in that order
    of keys.  The prepare stage deletes [foo] first; when it comes to
    [foo.bar] the definition of the prefix is gone, not [false], and
    [foo.bar] is prepared, given its defaults, configured and loaded.
    With the two keys in the other order both ids are deleted. *)
Theorem disabled_prefix_deleted_first :
  let hs := [("foo", JBool false); ("foo.bar", Samples.factory)] in
  let s := Samples.final Samples.app
             (Samples.advance 9 ++ [LoadCalls "foo.bar" Samples.done; Tick])
             hs (JObj []) in
  let s' := Samples.final Samples.app (Samples.advance 8)
              [("foo.bar", Samples.factory); ("foo", JBool false)] (JObj []) in
  is_false (read hs (split_head "foo.bar")) = true /\
  trace s =
    [ Cb "moduleloader" None; Cb "userconfig" None; Cb "userhooks" None;
      Call OpPrepare "foo"; Call OpPrepare "foo.bar"; Prepared "foo.bar";
      Call OpDefaults "foo.bar"; Call OpConfigure "foo.bar";
      Log "silly" "Loading hook: foo.bar";
      SetTimeout 0 "foo.bar" (JNum 20000); Call OpLoad "foo.bar";
      Log "verbose" "foo.bar hook loaded successfully.";
      Emit "hook:foo.bar:loaded"; Cb "foo.bar" None; CallerCb None ] /\
  hooks s = [("foo.bar", Samples.hook "foo.bar" (JObj []))] /\
  trace s' =
    [ Cb "moduleloader" None; Cb "userconfig" None; Cb "userhooks" None;
      Call OpPrepare "foo.bar"; Call OpPrepare "foo"; CallerCb None ] /\
  hooks s' = [].
Proof. cbv zeta. repeat apply conj; vm_compute; reflexivity. Qed.

(* ===================================================================== *)
(** ** Properties of every run *)
(* ===================================================================== *)

Section Runs.

Variable w : world.

Lemma ordered_suffix (a b : list event) : ordered (a ++ b) -> ordered b.
Proof.
  induction a as [|e a IH]; [auto|]. simpl. intros [H _]. now apply IH.
Qed.

Lemma in_calls_of (id : string) (o : op) (l : list event) :
  In (o, id) (calls_of id l) <-> In (Call o id) l.
Proof.
  unfold calls_of, calls. rewrite filter_In, in_flat_map. split.
  - intros [(e & He & Hin) _]. destruct e; simpl in Hin; try contradiction.
    destruct Hin as [Hin|[]]. now inversion Hin; subst.
  - intros Hin. split; [|apply String.eqb_refl].
    exists (Call o id). split; [exact Hin|now left].
Qed.

(** The first calls of the sequence, if they are all of them or none,
    are the whole sequence or nothing. *)
Lemma sequence_all_or_none (id : string) (p rest : list (op * string)) :
  p ++ rest = sequence_of id ->
  (forall o, In (o, id) p -> forall o', In (o', id) p) ->
  p = [] \/ p = sequence_of id.
Proof.
  intros E Hall. destruct p as [|c p]; [now left|]. right.
  assert (Hc : c = (OpPrepare, id)) by (inversion E; reflexivity).
  assert (Hload : In (OpLoad, id) (c :: p)).
  { apply (Hall OpPrepare). left. exact Hc. }
  unfold sequence_of in *.
  destruct p as [|c1 [|c2 [|c3 [|c4 p]]]]; simpl in E; inversion E; subst;
    try reflexivity; simpl in Hload;
    repeat (destruct Hload as [Hload|Hload]; [discriminate|]);
    contradiction.
Qed.

Lemma trace_split (s : state) (pre post : list event) (e : event) :
  trace s = pre ++ e :: post -> log s = rev post ++ e :: rev pre.
Proof.
  intros Htr. unfold trace in Htr. apply (f_equal (@rev event)) in Htr.
  rewrite rev_involutive, rev_app_distr in Htr. simpl in Htr.
  now rewrite <- app_assoc in Htr.
Qed.

(** C7.  In every run:
    - the hooks are touched (prepareHook, applyDefaults, configure,
      setting the timer, calling [load]) in the order of their ranks:
      [moduleloader], then [userconfig], then [userhooks], then the
      other hooks, and nothing is done to a hook once something has been
      done to a hook of a later rank;
    - whatever is done to a hook comes after the callback of every
      bootstrap task before it was invoked without an error; if the
      [load] of that bootstrap hook had been called, the hook had been
      announced as loaded by then; and by then that bootstrap hook had
      gone through prepareHook, applyDefaults, configure and load, in
      that order and once each, or through none of them;
    - the calls made for a bootstrap hook are at any time the first ones
      of that sequence;
    - the task of the series numbered [k < 3] is the bootstrap task of
      the [k]-th bootstrap id;
    - a bootstrap task whose id is not in the registry does nothing but
      invoke its callback, which lets the next task start;
    - a bootstrap task whose id is in the registry, when it returns, has
      made the four calls for its hook, in order, and nothing else is
      called; the [load] is then in flight. *)
Theorem bootstrap_in_order
    (hs : dict) (cfg : jsval) (ls : list label) (s : state)
    (Hrun : run w ls (init hs cfg) = Some s) :
  (forall pre e post id e' id',
     trace s = pre ++ e :: post -> touches e = Some id ->
     In e' post -> touches e' = Some id' -> rank id <= rank id') /\
  (forall pre e post id,
     trace s = pre ++ e :: post -> touches e = Some id ->
     forall k, k < rank id ->
       In (Cb (boot k) None) pre /\
       (In (Call OpLoad (boot k)) pre -> In (loaded_event (boot k)) pre) /\
       (calls_of (boot k) pre = [] \/
        calls_of (boot k) pre = sequence_of (boot k))) /\
  (forall k, k < 3 ->
     exists rest, calls_of (boot k) (trace s) ++ rest = sequence_of (boot k)) /\
  (forall s0 k,
     k < 3 -> stage s0 = Task k -> todo s0 = [] -> halted s0 = None ->
     exec w Advance s0 =
       Some (settle (bootTask w (boot k) (with_stage (Await k) s0)))) /\
  (forall s0 id,
     truthy (read (hooks s0) id) = false ->
     bootTask w id s0 = hook_cb id None s0) /\
  (forall s0 k,
     k < 3 -> stage s0 = Await k ->
     existsb (String.eqb (boot k)) (called s0) = false ->
     hook_cb (boot k) None s0 =
       Ok tt (with_stage (Task (S k))
                (with_called (boot k :: called s0)
                   (with_log (Cb (boot k) None :: log s0) s0)))) /\
  (forall s0 s1 id,
     truthy (read (hooks s0) id) = true ->
     bootTask w id s0 = Ok tt s1 ->
     stage s1 = stage s0 /\
     exists evs h,
       log s1 = evs ++ log s0 /\
       calls (rev evs) = sequence_of id /\
       inflight s1 = inflight s0 ++ [(id, h)]).
Proof.
  pose proof (run_invariant w ls _ s (inv_init hs cfg) (pending_init hs cfg) Hrun)
    as Hinv.
  assert (Hseq : forall k, k < 3 ->
            exists rest, calls_of (boot k) (trace s) ++ rest = sequence_of (boot k)).
  { intros k Hk. exact (inv_calls s Hinv k Hk). }
  split; [|split; [|split; [exact Hseq|split; [|split; [|split]]]]].
  - intros pre e post id e' id' Htr Hid Hin' Hid'.
    destruct (inv_line s Hinv) as [_ Hd].
    rewrite (trace_split s pre post e Htr) in Hd.
    apply in_rev in Hin'. apply in_split in Hin' as (a & b & Hab).
    rewrite Hab in Hd. rewrite <- app_assoc in Hd.
    change (a ++ (e' :: b) ++ e :: rev pre)
      with (a ++ [e'] ++ b ++ [e] ++ rev pre) in Hd.
    rewrite (touch_ranks_app a), (touch_ranks_app [e']), (touch_ranks_app b),
      (touch_ranks_app [e]) in Hd.
    apply descending_app_r in Hd.
    assert (E1 : touch_ranks [e] = [rank id]).
    { unfold touch_ranks. simpl. now rewrite Hid. }
    assert (E2 : touch_ranks [e'] = [rank id']).
    { unfold touch_ranks. simpl. now rewrite Hid'. }
    rewrite E1, E2 in Hd. cbn [app descending] in Hd. destruct Hd as [Hall _].
    rewrite Forall_forall in Hall.
    apply Hall. apply in_or_app. right. now left.
  - intros pre e post id Htr Hid k Hk.
    pose proof (inv_ordered s Hinv) as Hord.
    rewrite (trace_split s pre post e Htr) in Hord. apply ordered_suffix in Hord.
    destruct Hord as [_ H]. destruct (H id Hid k Hk) as (Hcb & Himp & Hall).
    split; [now apply in_rev|]. split.
    + intros Hin. apply in_rev. apply Himp. now apply in_rev in Hin.
    + assert (Hk3 : k < 3) by (pose proof (rank_le id); lia).
      destruct (Hseq k Hk3) as (rest & E). rewrite Htr, calls_of_app, <- app_assoc in E.
      apply (sequence_all_or_none _ _ _ E).
      intros o Ho o'. apply in_calls_of. apply in_rev. apply (Hall o).
      apply in_rev. rewrite rev_involutive. now apply in_calls_of.
  - intros s0 k Hk Es Htd Hh. unfold exec. rewrite Hh, Htd, Es.
    destruct k as [|[|[|k]]]; try reflexivity. lia.
  - intros s0 id Hf. rewrite bootTask_unfold. now rewrite Hf.
  - intros s0 k Hk Es Hc.
    unfold hook_cb, bind, tell, modify, get. cbn [called stage with_log with_called].
    rewrite Hc, (task_of_boot k Hk), Es, Nat.eqb_refl. reflexivity.
  - intros s0 s1 id Ht E.
    destruct (bootTask_flights w id s0 Ht) as (Hst & _ & evs & Hl & H).
    rewrite E in *. cbn [state_of] in *. destruct H as (Hc & h & Hi).
    split; [exact Hst|]. exists evs, h. now repeat split.
Qed.

(** C9.  In every run, no timer is set for [userhooks], no timer of the
    host belongs to it, and no callback receives an error that says
    [userhooks] took too long.  loadHook('userhooks') leaves the timers
    and the array of timeouts as they were. *)
Theorem userhooks_never_times_out
    (hs : dict) (cfg : jsval) (ls : list label) (s : state)
    (Hrun : run w ls (init hs cfg) = Some s) :
  (forall h interval, ~ In (SetTimeout h "userhooks" interval) (trace s)) /\
  (forall t, In t (timers s) -> t_owner t <> "userhooks") /\
  (forall id key interval,
     ~ In (Cb id (Some (HookTimeout "userhooks" key interval))) (trace s)) /\
  (forall key interval,
     ~ In (CallerCb (Some (HookTimeout "userhooks" key interval))) (trace s)) /\
  (forall s0, timers (state_of (loadHook "userhooks" s0)) = timers s0 /\
              hookTimeouts (state_of (loadHook "userhooks" s0)) = hookTimeouts s0).
Proof.
  pose proof (run_invariant w ls _ s (inv_init hs cfg) (pending_init hs cfg) Hrun)
    as Hinv.
  pose proof (inv_events s Hinv) as He. rewrite Forall_forall in He.
  pose proof (inv_timers s Hinv) as Ht. rewrite Forall_forall in Ht.
  split; [|split; [|split; [|split]]].
  - intros h iv Hin. apply in_rev in Hin. apply He in Hin. now apply Hin.
  - intros t Hin. now apply Ht.
  - intros id key iv Hin. apply in_rev in Hin. apply He in Hin. now apply Hin.
  - intros key iv Hin. apply in_rev in Hin. apply He in Hin. now apply Hin.
  - intros s0.
    unfold loadHook, bind, get, ret, throw, tell, modify, getp.
    destruct (timeoutInterval (config s0) (read (hooks s0) "userhooks") "userhooks");
      [|split; reflexivity].
    simpl.
    destruct (get_prop (read (hooks s0) "userhooks") "load") as [[]|];
      split; reflexivity.
Qed.

End Runs.

Lemma bootstrap_in_order_witness :
  let s := Samples.final Samples.app Samples.full_run Samples.full_registry (JObj []) in
  let pre := firstn 9 (trace s) in
  let post := skipn 10 (trace s) in
  run Samples.app Samples.full_run (init Samples.full_registry (JObj [])) = Some s /\
  trace s = pre ++ Call OpPrepare "userconfig" :: post /\
  calls_of "moduleloader" pre = sequence_of "moduleloader" /\
  touch_ranks (trace s) = [0; 0; 0; 0; 0; 0; 1; 1; 1; 1; 1; 1; 2; 2; 2; 2; 2;
                           3; 3; 3; 3; 3; 3] /\
  In (Cb (boot 0) None) pre /\
  (In (Call OpLoad (boot 0)) pre -> In (loaded_event (boot 0)) pre) /\
  (calls_of (boot 0) pre = [] \/ calls_of (boot 0) pre = sequence_of (boot 0)).
Proof.
  cbv zeta.
  split; [vm_compute; reflexivity|].
  split; [vm_compute; reflexivity|].
  split; [vm_compute; reflexivity|].
  split; [vm_compute; reflexivity|].
  refine (proj1 (proj2 (bootstrap_in_order Samples.app Samples.full_registry (JObj [])
                          Samples.full_run
                          (Samples.final Samples.app Samples.full_run
                             Samples.full_registry (JObj [])) _))
            _ (Call OpPrepare "userconfig") _ "userconfig" _ _ 0 _).
  - vm_compute. reflexivity.
  - vm_compute. reflexivity.
  - reflexivity.
  - vm_compute. lia.
Defined.

Lemma userhooks_never_times_out_witness :
  let s := Samples.final Samples.app Samples.full_run Samples.full_registry (JObj []) in
  In (Call OpLoad "userhooks") (trace s) /\
  forall h interval, ~ In (SetTimeout h "userhooks" interval) (trace s).
Proof.
  cbv zeta. split.
  - vm_compute. do 22 right. left. reflexivity.
  - apply (userhooks_never_times_out Samples.app Samples.full_registry (JObj [])
             Samples.full_run).
    vm_compute. reflexivity.
Defined.

(* ===================================================================== *)
(** ** Further properties: the helpers on their own *)
(* ===================================================================== *)

Section MoreTimeout.

(** X1.  For a hook object that is in the registry and a configuration
    that is a dictionary, the timeout interval is always defined and
    always truthy: whatever the configuration says, the timer is never
    set with 0, an empty string, [null] or [undefined].  For a registry
    entry that is [undefined] or [null] there is no interval: reading
    its [configKey] throws. *)
Theorem timeoutInterval_defined_and_truthy (cfg : dict) (hook : jsval) (id : string) :
  match hook with
  | JUndef | JNull => timeoutInterval (JObj cfg) hook id = None
  | _ => exists v, timeoutInterval (JObj cfg) hook id = Some v /\ truthy v = true
  end.
Proof.
  assert (H : forall ck, get_prop hook "configKey" = Some ck ->
            exists v, timeoutInterval (JObj cfg) hook id = Some v /\ truthy v = true).
  { intros ck Hck. unfold timeoutInterval, config_key. rewrite Hck.
    simpl get_prop.
    set (key := to_string (js_or ck (JStr id))).
    assert (Hor : forall own, exists v,
              Some (js_or (js_or own (read cfg "hookTimeout")) (JNum 20000)) = Some v /\
              truthy v = true).
    { intros own. unfold js_or.
      destruct (truthy own) eqn:Ho.
      - rewrite ?Ho. eauto.
      - destruct (truthy (read cfg "hookTimeout")) eqn:Hs.
        + rewrite ?Hs. eauto.
        + eauto. }
    destruct (truthy (read cfg key)) eqn:Hsec.
    - destruct (truthy_get_prop _ "_hookTimeout" Hsec) as [own Hown].
      rewrite Hown. rewrite ?Hsec. apply Hor.
    - rewrite ?Hsec. apply Hor. }
  destruct hook; try reflexivity; eapply H; reflexivity.
Qed.

End MoreTimeout.

Section MorePrepare.

Variable w : world.

Lemma effective_spec (v : jsval) :
  (if isObject v && negb (isArray v) && negb (isFunction v)
   then getp v "index" else ret v) = ret (effective v).
Proof. destruct v; reflexivity. Qed.

(** X2.  When the definition of [id] is not disabled, the registry
    passes the configuration check, and the definition (or its [index]
    member, for a plain object) is not a function, prepareHook logs two
    errors and ends the process with exit code 1.  The registry is left
    as it was and the caller is not called back.  A key that is missing
    from the registry is such a definition. *)
Theorem prepareHook_malformed_exits (id : string) (s : state)
    (Hon : disabled (hooks s) id = false)
    (Hcfg : invalid_configuration (hooks s) = false)
    (Hbad : isFunction (effective (read (hooks s) id)) = false) :
  prepareHook w id s =
    Halt (Exit 1) (with_log (malformed_log id ++ Call OpPrepare id :: log s) s).
Proof.
  unfold prepareHook. unfold bind at 1. unfold tell at 1, modify.
  unfold bind at 1. unfold get. cbn [hooks with_log].
  unfold disabled in Hon. unfold invalid_configuration in Hcfg.
  rewrite Hon, Hcfg. rewrite effective_spec.
  unfold bind at 1. unfold ret at 1.
  destruct (effective (read (hooks s) id)); try discriminate; reflexivity.
Qed.

Lemma keys_assign_present (k : string) (v : jsval) (d : dict) :
  lookup k d <> None -> keys (assign k v d) = keys d.
Proof.
  induction d as [|[k0 v0] r IH]; simpl; [congruence|].
  destruct (String.eqb_spec k k0) as [->|Hne]; intros H; simpl; [reflexivity|].
  now rewrite IH.
Qed.

(** X3.  When prepareHook gets as far as the factory (the definition is
    enabled, the configuration check passes, the definition or its
    [index] is a function) and the factory returns an object, the object
    given to the Hook constructor has [identity] set to what
    [id.toLowerCase()] returns and [configKey] set to the [configKey]
    property of the factory function if that is truthy, to the identity
    otherwise; an [identity] or a [configKey] that the returned object
    declared itself is overwritten.  If the constructor returns a Hook,
    the registry entry of [id] becomes that Hook, in place: the keys of
    the registry and their order do not change, and no error is
    reported.  If the constructor throws, prepareHook throws what it
    threw and leaves the registry as it was. *)
Theorem prepareHook_stamps_definition
    (id : string) (s : state) (fn : nat) (props def : dict)
    (Hon : disabled (hooks s) id = false)
    (Hcfg : invalid_configuration (hooks s) = false)
    (Hfun : effective (read (hooks s) id) = JFun fn props)
    (Hdef : call_factory w fn = inl (JObj def)) :
  read (stamped w id props def) "identity" = JStr (toLowerCase w id) /\
  read (stamped w id props def) "configKey"
    = js_or (read props "configKey") (JStr (toLowerCase w id)) /\
  (truthy (JStr (toLowerCase w id)) = true ->
   truthy (read (stamped w id props def) "configKey") = true) /\
  match new_Hook w (JObj (stamped w id props def)) with
  | inl hook =>
      let s' := with_log (Prepared id :: Call OpPrepare id :: log s)
                  (with_hooks (assign id hook (hooks s)) s) in
      prepareHook w id s = Ok tt s' /\
      keys (hooks s') = keys (hooks s)
  | inr e =>
      prepareHook w id s =
        Halt (Uncaught (Raised e)) (with_log (Call OpPrepare id :: log s) s)
  end.
Proof.
  assert (Hpresent : lookup id (hooks s) <> None).
  { intros Hnone. unfold read in Hfun. rewrite Hnone in Hfun. discriminate. }
  assert (Hck : read (stamped w id props def) "configKey"
                = js_or (read props "configKey") (JStr (toLowerCase w id))).
  { unfold stamped, read. now rewrite lookup_assign, String.eqb_refl. }
  assert (E : prepareHook w id s =
              (hook <- returned (new_Hook w (JObj (stamped w id props def))) ;;
               modify (fun s => with_hooks (assign id hook (hooks s)) s) ;;
               tell (Prepared id))%loader
                (with_log (Call OpPrepare id :: log s) s)).
  { unfold prepareHook. unfold bind at 1. unfold tell at 1, modify at 1.
    unfold bind at 1. unfold get. cbn [hooks with_log].
    unfold disabled in Hon. unfold invalid_configuration in Hcfg.
    rewrite Hon, Hcfg. rewrite effective_spec.
    unfold bind at 1. unfold ret at 1. rewrite Hfun. cbv iota beta.
    unfold bind at 1. rewrite Hdef. unfold returned at 1, ret at 1.
    unfold bind at 1. unfold setp at 1. cbn [set_prop]. unfold ret at 1.
    unfold bind at 1. unfold getp at 1. cbn [get_prop].
    assert (Hid : read (assign "identity" (JStr (toLowerCase w id)) def) "identity"
                  = JStr (toLowerCase w id)).
    { unfold read. now rewrite lookup_assign. }
    rewrite Hid. unfold ret at 1.
    unfold bind at 1. unfold setp at 1. cbn [set_prop]. unfold ret at 1.
    reflexivity. }
  split; [|split; [exact Hck|split]].
  - unfold stamped, read. rewrite !lookup_assign. reflexivity.
  - intros Hne. rewrite Hck. unfold js_or.
    destruct (truthy (read props "configKey")) eqn:Et; [exact Et|exact Hne].
  - rewrite E. unfold bind, returned, ret, throw, modify, tell.
    destruct (new_Hook w (JObj (stamped w id props def))) as [hook|e].
    + cbv zeta. split; [reflexivity|].
      cbn [hooks with_log with_hooks]. now apply keys_assign_present.
    + reflexivity.
Qed.

End MorePrepare.

Lemma prepareHook_malformed_exits_witness :
  prepareHook Samples.app "ghost" (init [("foo", Samples.factory)] (JObj []))
  = Halt (Exit 1)
      (with_log (malformed_log "ghost" ++ [Call OpPrepare "ghost"])
         (init [("foo", Samples.factory)] (JObj []))).
Proof.
  apply (prepareHook_malformed_exits Samples.app "ghost"
           (init [("foo", Samples.factory)] (JObj []))); reflexivity.
Defined.

Lemma prepareHook_stamps_definition_witness :
  let s0 := init [("Foo", JObj [("index", JFun 1 [("configKey", JStr "bar")])])]
                 (JObj []) in
  hooks (state_of (prepareHook Samples.app "Foo" s0))
  = [("Foo", JObj [("defaults", JObj []); ("configure", JFun 100 []);
                   ("load", JFun 101 []); ("identity", JStr "foo");
                   ("configKey", JStr "bar")])].
Proof.
  cbv zeta.
  assert (H := proj2 (proj2 (proj2
             (prepareHook_stamps_definition Samples.app "Foo"
                (init [("Foo", JObj [("index", JFun 1 [("configKey", JStr "bar")])])]
                      (JObj []))
                1 [("configKey", JStr "bar")]
                [("defaults", JObj []); ("configure", JFun 100 []);
                 ("load", JFun 101 [])]
                eq_refl eq_refl eq_refl eq_refl)))).
  cbn [new_Hook Samples.app] in H. destruct H as [H _].
  rewrite H. reflexivity.
Defined.

Section MoreValidate.

Lemma for_each_tell_ok (evs : list event) (s : state) :
  for_each evs tell s = Ok tt (with_log (rev evs ++ log s) s).
Proof.
  revert s. induction evs as [|e r IH]; intros s; simpl.
  - now destruct s.
  - unfold bind at 1. unfold tell at 1, modify. rewrite IH.
    cbn [log with_log]. rewrite <- app_assoc. reflexivity.
Qed.

Lemma for_each_map {A B} (f : A -> B) (g : B -> M unit) (l : list A) :
  for_each l (fun x => g (f x)) = for_each (map f l) g.
Proof. induction l as [|x r IH]; simpl; [reflexivity|]. now rewrite IH. Qed.

(** X4.  The validate task never fails and always lets the series go
    on to the prepare stage.  A [controllers] entry that is truthy is
    deleted, with six debug lines logged, so that no later stage finds
    it; every other entry of the registry, the configuration and the
    timers are left alone.  A [controllers] entry that is falsy is left
    in the registry for the prepare stage, and nothing is logged. *)
Theorem validate_drops_controllers (s : state) :
  exists s',
    validate s = Ok tt s' /\
    stage s' = Task 4 /\
    config s' = config s /\ timers s' = timers s /\
    (forall id, id <> "controllers" -> lookup id (hooks s') = lookup id (hooks s)) /\
    truthy (read (hooks s') "controllers") = false /\
    (if truthy (read (hooks s) "controllers")
     then ~ In "controllers" (others s') /\ log s' = controllers_log ++ log s
     else hooks s' = hooks s /\ log s' = log s).
Proof.
  unfold validate. unfold bind at 1. unfold get. unfold bind at 1.
  destruct (truthy (read (hooks s) "controllers")) eqn:Et.
  - unfold bind at 1.
    rewrite (for_each_map (Log "debug") tell), for_each_tell_ok.
    unfold modify. cbn [hooks log with_log with_hooks].
    eexists. split; [reflexivity|].
    cbn [stage config timers hooks log with_stage with_hooks with_log].
    assert (Hgone : lookup "controllers" (remove "controllers" (hooks s)) = None).
    { rewrite lookup_remove. reflexivity. }
    repeat apply conj; try reflexivity.
    + intros id Hid. rewrite lookup_remove.
      apply String.eqb_neq in Hid. now rewrite Hid.
    + unfold read. now rewrite Hgone.
    + unfold others, without_bootstrap. intros Hin.
      apply filter_In in Hin as [Hin _].
      cbn [hooks with_stage with_hooks with_log] in Hin.
      apply lookup_in_keys in Hin. contradiction.
  - unfold ret, modify. eexists. split; [reflexivity|].
    cbn [stage config timers hooks log with_stage].
    repeat apply conj; try reflexivity. exact Et.
Qed.

End MoreValidate.

(* ===================================================================== *)
(** ** Further properties: the load callback *)
(* ===================================================================== *)

Section MoreLoaded.

Variable w : world.

(** X5.  Each time a [load] calls back, the load callback logs and
    emits exactly one outcome: [hook:<id>:loaded] after a verbose line
    when the error it was given is falsy, [hook:<id>:error] otherwise,
    after an error line unless the hook is [userhooks].  On an error it
    invokes the callback made for the hook at once, with the error,
    which hands it to the caller at most once.  On success it returns
    without invoking anything: the callback made for the hook is
    deferred to the next tick, behind the callbacks deferred before it.
    The host runs the oldest deferred callback, without an error, and
    not while the load loop has ids to go.  The registry and the shared
    configuration are left as they were. *)
Theorem loaded_announces_one_outcome
    (id : string) (h : option nat) (err : jsval) (s : state) :
  let s' := state_of (loaded id h err s) in
  hooks s' = hooks s /\ config s' = config s /\
  (if truthy err then
     (log s' = Cb id (Some (Raised err)) :: announcement id err ++ log s \/
      log s' = CallerCb (Some (Raised err)) :: Cb id (Some (Raised err))
                 :: announcement id err ++ log s) /\
     ticks s' = ticks s
   else
     loaded id h err s = Ok tt s' /\
     log s' = announcement id err ++ log s /\
     ticks s' = ticks s ++ [id] /\
     called s' = called s /\ stage s' = stage s) /\
  (forall s1 id1 rest,
     halted s1 = None -> todo s1 = [] -> ticks s1 = id1 :: rest ->
     exec w Tick s1 = Some (settle (hook_cb id1 None (with_ticks rest s1)))) /\
  (forall s1, todo s1 <> [] -> exec w Tick s1 = None).
Proof.
  cbv zeta. rewrite loaded_unfold.
  destruct (after_completion_same id h err s)
    as (Est & _ & Eca & _ & Eti & Eh & Ec & _ & _ & El & _).
  set (s2 := after_completion id h err s) in *.
  assert (Hboth : hooks (state_of (if truthy err
                                   then hook_cb id (Some (Raised err)) s2
                                   else Ok tt (with_ticks (ticks s ++ [id]) s2)))
                  = hooks s /\
                  config (state_of (if truthy err
                                    then hook_cb id (Some (Raised err)) s2
                                    else Ok tt (with_ticks (ticks s ++ [id]) s2)))
                  = config s).
  { destruct (truthy err); [|split; assumption].
    destruct (hook_cb_report id (Some (Raised err)) s2) as (Hh & Hc & _).
    cbv zeta in Hh, Hc. split; congruence. }
  destruct Hboth as [Hh Hc].
  split; [exact Hh|]. split; [exact Hc|]. split; [|split].
  - destruct (truthy err) eqn:Et.
    + destruct (hook_cb_report id (Some (Raised err)) s2)
        as (_ & _ & _ & _ & _ & _ & Hlog).
      cbv zeta in Hlog. rewrite hook_cb_ticks, Eti. split; [|reflexivity].
      destruct Hlog as [[Hl _]|[Hl _]]; rewrite Hl, El; [now left|now right].
    + cbn [state_of]. repeat split; assumption.
  - intros s1 id1 rest Hlive Htodo Hticks. unfold exec.
    rewrite Hlive, Htodo, Hticks. reflexivity.
  - intros s1 Htodo. unfold exec. destruct (halted s1); [reflexivity|].
    destruct (todo s1); [congruence|reflexivity].
Qed.

Lemma settled_clear_all (hs : list nat) (ts : list timer) :
  (forall x, In x hs -> settled (clear_all hs ts) x) /\
  (forall x, settled ts x -> settled (clear_all hs ts) x).
Proof.
  revert ts. induction hs as [|h r IH]; intros ts; simpl.
  - split; [contradiction|auto].
  - destruct (IH (clear h ts)) as [Hin Hkeep]. split.
    + intros x [->|Hx]; [|now apply Hin].
      apply Hkeep. apply settled_clear_same.
    + intros x Hx. apply Hkeep. now apply settled_clear_other.
Qed.

Lemma settled_cannot_fire (s : state) (h : nat) :
  settled (timers s) h -> exec w (TimerFires h) s = None.
Proof.
  intros Hs. unfold exec. destruct (halted s); [reflexivity|].
  destruct (nth_error (timers s) h) as [t|] eqn:E; [|reflexivity].
  specialize (Hs t E). destruct (t_status t); congruence.
Qed.

Lemma exec_LoadCalls (id : string) (c : completion) (s s' : state)
    (h : option nat) (rest : list (string * option nat)) :
  take_inflight id (inflight s) = Some (h, rest) ->
  exec w (LoadCalls id c) s = Some s' ->
  let s2 := after_completion id h (c_err c) (completed c rest s) in
  s' = settle (if truthy (c_err c)
               then hook_cb id (Some (Raised (c_err c))) s2
               else Ok tt (with_ticks (ticks s2 ++ [id]) s2)).
Proof.
  intros Hfl. unfold exec. destruct (halted s); [discriminate|]. rewrite Hfl.
  intros H. inversion H. unfold bind at 1. unfold modify at 1.
  fold (completed c rest s). now rewrite loaded_unfold.
Qed.

Lemma timers_settle (r : result unit) : timers (settle r) = timers (state_of r).
Proof. now destruct r. Qed.

(** X6.  When the [load] of a hook other than [userhooks] calls back,
    with or without an error, the timer that guards the call is cleared
    before anything else: from then on that timer cannot fire, so a hook
    that has called back is never reported as taking too long. *)
Theorem completion_cancels_own_timer
    (id : string) (c : completion) (s s' : state) (h : nat)
    (rest : list (string * option nat))
    (Hid : id <> "userhooks")
    (Hflight : take_inflight id (inflight s) = Some (Some h, rest))
    (Hstep : exec w (LoadCalls id c) s = Some s') :
  exec w (TimerFires h) s' = None.
Proof.
  apply settled_cannot_fire.
  rewrite (exec_LoadCalls id c s s' (Some h) rest Hflight Hstep), timers_settle.
  assert (Hown : settled (own_cleared id (Some h) (timers (completed c rest s))) h).
  { unfold own_cleared. apply String.eqb_neq in Hid. rewrite Hid. simpl.
    apply settled_clear_same. }
  cbv zeta.
  set (s2 := after_completion id (Some h) (c_err c) (completed c rest s)).
  assert (H2 : settled (timers s2) h).
  { unfold s2, after_completion. cbn [timers with_log with_timers].
    destruct (truthy (c_err c)); [now apply settled_clear_all|exact Hown]. }
  destruct (truthy (c_err c)).
  - destruct (hook_cb_report id (Some (Raised (c_err c))) s2) as (_ & _ & Ht & _).
    cbv zeta in Ht. now rewrite Ht.
  - exact H2.
Qed.

End MoreLoaded.

Lemma completion_cancels_own_timer_witness :
  exists s', exec Samples.app (LoadCalls "foo" Samples.done) Samples.foo_loading = Some s' /\
             exec Samples.app (TimerFires 0) s' = None.
Proof.
  eexists. split; [vm_compute; reflexivity|].
  apply (completion_cancels_own_timer Samples.app "foo" Samples.done
           Samples.foo_loading _ 0 []).
  - discriminate.
  - vm_compute. reflexivity.
  - vm_compute. reflexivity.
Defined.

(* ===================================================================== *)
(** ** Further properties: the timers of a run *)
(* ===================================================================== *)

Section Timers.

Variable w : world.

Lemma length_clear (h : nat) (ts : list timer) :
  List.length (clear h ts) = List.length ts.
Proof.
  rewrite <- (length_map t_owner (clear h ts)), owners_clear. apply length_map.
Qed.

Lemma length_fire (h : nat) (ts : list timer) :
  List.length (fire h ts) = List.length ts.
Proof.
  rewrite <- (length_map t_owner (fire h ts)), owners_fire. apply length_map.
Qed.

Lemma length_clear_all (hs : list nat) (ts : list timer) :
  List.length (clear_all hs ts) = List.length ts.
Proof.
  revert ts. induction hs as [|h r IH]; intros ts; simpl; [reflexivity|].
  unfold clear_all in IH. rewrite IH. apply length_clear.
Qed.

Ltac tracked_leaf :=
  intros ? ?; unfold tracked in *;
  cbn [hookTimeouts timers with_hooks with_config with_timers with_hookTimeouts
       with_inflight with_stage with_todo with_called with_ticks with_halted
       with_log] in *;
  rewrite ?length_clear, ?length_fire; assumption.

Lemma prepareHook_tracked (id : string) : keeps tracked (prepareHook w id).
Proof. unfold prepareHook. repeat keeps_step tracked_leaf. Qed.

Lemma applyDefaults_tracked (id : string) : keeps tracked (applyDefaults w id).
Proof. unfold applyDefaults. repeat keeps_step tracked_leaf. Qed.

Lemma configure_tracked (id : string) : keeps tracked (configure w id).
Proof. unfold configure. repeat keeps_step tracked_leaf. Qed.

Lemma hook_cb_tracked (id : string) (err : option error) : keeps tracked (hook_cb id err).
Proof. unfold hook_cb. repeat keeps_step tracked_leaf. Qed.

(** The one place where a timer is made: the handle is pushed on
    [hookTimeouts] at once. *)
Lemma loadHook_tracked (id : string) : keeps tracked (loadHook id).
Proof.
  intros s Hs. unfold loadHook, tracked in *.
  unfold bind, get, ret, throw, tell, modify, getp.
  destruct (timeoutInterval (config s) (read (hooks s) id) id) as [iv|];
    [|exact Hs].
  destruct (negb (id =? "userhooks")%string);
    destruct (get_prop (read (hooks s) id) "load") as [ld|];
    try destruct ld; simpl; try exact Hs;
    rewrite length_app, Hs; simpl; rewrite Nat.add_1_r, seq_S; reflexivity.
Qed.

Lemma tooLong_tracked (id : string) (iv : jsval) : keeps tracked (tooLong id iv).
Proof.
  unfold tooLong. apply keeps_bind; [apply keeps_get|]. intros s0.
  destruct (config_key _ _); [apply hook_cb_tracked|apply keeps_throw].
Qed.

Lemma loaded_tracked (id : string) (h : option nat) (err : jsval) :
  keeps tracked (loaded id h err).
Proof.
  intros s Hs. apply loaded_keeps;
    [intros e; apply hook_cb_tracked|intros t s0 H0; exact H0|].
  unfold tracked, after_completion, own_cleared in *.
  cbn [hookTimeouts timers with_log with_timers].
  rewrite Hs.
  destruct (truthy err), (negb (id =? "userhooks")%string), h;
    rewrite ?length_clear_all, ?length_clear; reflexivity.
Qed.

Lemma bootTask_tracked (id : string) : keeps tracked (bootTask w id).
Proof.
  unfold bootTask. apply keeps_bind; [apply keeps_get|]. intros s0.
  destruct (negb _); [apply hook_cb_tracked|].
  apply keeps_bind; [apply prepareHook_tracked|]. intros _.
  apply keeps_bind; [apply applyDefaults_tracked|]. intros _.
  apply keeps_bind; [apply configure_tracked|]. intros _.
  apply loadHook_tracked.
Qed.

Lemma run_task_tracked (n : nat) : keeps tracked (run_task w n).
Proof.
  destruct n as [|[|[|[|[|[|[|[|n]]]]]]]]; simpl;
    try (apply keeps_bind; [apply keeps_modify; tracked_leaf|intros _; apply bootTask_tracked]).
  - unfold validate. repeat keeps_step tracked_leaf.
  - unfold prepare. apply keeps_bind; [apply keeps_get|]. intros s0.
    apply keeps_bind; [apply keeps_for_each; intros id; apply prepareHook_tracked|].
    intros _. apply keeps_modify. tracked_leaf.
  - unfold defaults. apply keeps_bind; [apply keeps_get|]. intros s0.
    apply keeps_bind; [apply keeps_for_each; intros id; apply applyDefaults_tracked|].
    intros _. apply keeps_modify. tracked_leaf.
  - unfold configureAll. apply keeps_bind; [apply keeps_get|]. intros s0.
    apply keeps_bind.
    + apply keeps_for_each. intros id. apply keeps_try_catch;
        [apply configure_tracked|]. intros e. repeat keeps_step tracked_leaf.
    + intros _. repeat keeps_step tracked_leaf.
  - unfold loadAll. repeat keeps_step tracked_leaf.
  - repeat keeps_step tracked_leaf.
Qed.

Lemma tracked_settle (r : result unit) : tracked (state_of r) -> tracked (settle r).
Proof. destruct r; intros H; exact H. Qed.

Lemma exec_tracked (l : label) (s s' : state) :
  tracked s -> exec w l s = Some s' -> tracked s'.
Proof.
  intros Ht. unfold exec. destruct (halted s); [discriminate|].
  destruct l as [|h|id c|].
  - destruct (todo s) as [|id rest].
    + destruct (stage s) as [n| | |]; try discriminate.
      intros H. inversion H. apply tracked_settle. now apply run_task_tracked.
    + intros H. inversion H. apply tracked_settle.
      revert Ht. generalize s.
      change (keeps tracked (modify (with_todo rest) ;;
                tell (Log "silly" ("Loading hook: " ++ id)) ;; loadHook id)%loader).
      apply keeps_bind; [apply keeps_modify; tracked_leaf|]. intros _.
      apply keeps_bind; [unfold tell; apply keeps_modify; tracked_leaf|]. intros _.
      apply loadHook_tracked.
  - destruct (nth_error (timers s) h) as [t|]; [|discriminate].
    destruct (t_status t); try discriminate.
    intros H. inversion H. apply tracked_settle.
    revert Ht. generalize s.
    change (keeps tracked (modify (fun s => with_timers (fire h (timers s)) s) ;;
              tooLong (t_owner t) (t_interval t))%loader).
    apply keeps_bind; [apply keeps_modify; tracked_leaf|]. intros _.
    apply tooLong_tracked.
  - destruct (take_inflight id (inflight s)) as [[h rest]|]; [|discriminate].
    intros H. inversion H. apply tracked_settle.
    unfold bind at 1. unfold modify at 1. apply loaded_tracked.
    destruct (c_config c); exact Ht.
  - destruct (todo s); [|discriminate].
    destruct (ticks s) as [|id rest]; [discriminate|].
    intros H. inversion H. apply tracked_settle.
    apply tick_keeps;
      [intros e; apply hook_cb_tracked|intros t s0 H0; exact H0|exact Ht].
Qed.

Lemma run_tracked (ls : list label) (s0 s : state) :
  tracked s0 -> run w ls s0 = Some s -> tracked s.
Proof.
  revert s0. induction ls as [|l r IH]; intros s0 H0; simpl.
  - intros E. inversion E. now subst.
  - destruct (exec w l s0) as [s1|] eqn:E; [|discriminate].
    apply IH. eapply exec_tracked; eauto.
Qed.

(** X7.  At every point of every run on a fresh application,
    [hookTimeouts] holds the handle of every timer that was set, in the
    order they were set, and nothing else: each [setTimeout] of loadHook
    is followed by the push, and nothing is ever taken off the array. *)
Theorem hookTimeouts_tracks_every_timer
    (hs : dict) (cfg : jsval) (ls : list label) (s : state)
    (Hrun : run w ls (init hs cfg) = Some s) :
  hookTimeouts s = seq 0 (List.length (timers s)).
Proof. apply (run_tracked ls (init hs cfg)); [reflexivity|exact Hrun]. Qed.

Lemma tracked_all_cleared (s : state) :
  tracked s -> forall ts, List.length ts = List.length (timers s) ->
  forall h, settled (clear_all (hookTimeouts s) ts) h.
Proof.
  intros Ht ts Hlen h. destruct (Nat.lt_ge_cases h (List.length ts)) as [Hlt|Hge].
  - apply (proj1 (settled_clear_all (hookTimeouts s) ts)).
    unfold tracked in Ht. rewrite Ht, <- Hlen. apply in_seq. lia.
  - intros t Hn. exfalso.
    assert (nth_error (clear_all (hookTimeouts s) ts) h = None) as Hnone.
    { apply nth_error_None. now rewrite length_clear_all. }
    congruence.
Qed.

Lemma timers_completed (c : completion) (rest : list (string * option nat))
    (s : state) :
  timers (completed c rest s) = timers s /\
  hookTimeouts (completed c rest s) = hookTimeouts s.
Proof. unfold completed. destruct (c_config c); split; reflexivity. Qed.

(** X8.  When a [load] calls back with an error, at any point of any
    run on a fresh application and for any hook, [userhooks] included,
    every timer is cleared: right after the callback no timer of any
    hook can fire. *)
Theorem load_error_cancels_every_timer
    (hs : dict) (cfg : jsval) (ls : list label) (s s' : state)
    (id : string) (c : completion)
    (Hrun : run w ls (init hs cfg) = Some s)
    (Hstep : exec w (LoadCalls id c) s = Some s')
    (Herr : truthy (c_err c) = true) :
  forall h, exec w (TimerFires h) s' = None.
Proof.
  intros h. apply settled_cannot_fire.
  assert (Ht : tracked s).
  { apply (run_tracked ls (init hs cfg)); [reflexivity|exact Hrun]. }
  destruct (take_inflight id (inflight s)) as [[h0 rest]|] eqn:Hfl.
  2:{ unfold exec in Hstep. rewrite Hfl in Hstep.
      destruct (halted s); discriminate. }
  rewrite (exec_LoadCalls w id c s s' h0 rest Hfl Hstep), timers_settle.
  cbv zeta. rewrite Herr.
  destruct (hook_cb_report id (Some (Raised (c_err c)))
              (after_completion id h0 (c_err c) (completed c rest s)))
    as (_ & _ & Hti & _).
  cbv zeta in Hti. rewrite Hti.
  unfold after_completion. cbn [timers with_log with_timers]. rewrite Herr.
  destruct (timers_completed c rest s) as [Et Eh]. rewrite Et, Eh.
  apply tracked_all_cleared; [exact Ht|].
  unfold own_cleared.
  destruct (negb (id =? "userhooks")%string), h0;
    rewrite ?length_clear; reflexivity.
Qed.

End Timers.

Lemma hookTimeouts_tracks_every_timer_witness :
  let s := Samples.final Samples.app Samples.both_loading Samples.two_hooks (JObj []) in
  hookTimeouts s = [0; 1] /\
  hookTimeouts s = seq 0 (List.length (timers s)).
Proof.
  cbv zeta. split; [vm_compute; reflexivity|].
  apply (hookTimeouts_tracks_every_timer Samples.app Samples.two_hooks (JObj [])
           Samples.both_loading).
  vm_compute. reflexivity.
Defined.

Lemma load_error_cancels_every_timer_witness :
  let s := Samples.final Samples.app Samples.both_loading Samples.two_hooks (JObj []) in
  exists s',
    exec Samples.app (LoadCalls "a" Samples.failed) s = Some s' /\
    forall h, exec Samples.app (TimerFires h) s' = None.
Proof.
  cbv zeta. eexists. split; [vm_compute; reflexivity|].
  apply (load_error_cancels_every_timer Samples.app Samples.two_hooks (JObj [])
           Samples.both_loading
           (Samples.final Samples.app Samples.both_loading Samples.two_hooks (JObj []))
           _ "a" Samples.failed).
  - vm_compute. reflexivity.
  - vm_compute. reflexivity.
  - reflexivity.
Defined.

(* ===================================================================== *)
(** ** Further properties: the configure stage *)
(* ===================================================================== *)

Section MoreConfigure.

Variable w : world.

Lemma reports_app (a b : list event) : reports (a ++ b) = reports a + reports b.
Proof. unfold reports. now rewrite filter_app, length_app. Qed.

Lemma configures_app (a b : list event) :
  configures (a ++ b) = configures a ++ configures b.
Proof. unfold configures. apply flat_map_app. Qed.

Lemma plain_error_report (e : error) : plain_error e -> is_report (CallerCb (Some e)) = true.
Proof. destruct e; simpl; tauto. Qed.

(** [configure] returns or throws; it logs the call and nothing else,
    and writes nothing but the configuration. *)
Lemma configure_outcome (id : string) (s : state) :
  exists s1,
    (configure w id s = Ok tt s1 \/
     exists e, configure w id s = Halt (Uncaught e) s1 /\ plain_error e) /\
    same_hooks_and_timers s s1 /\ stage s1 = stage s /\
    log s1 = Call OpConfigure id :: log s.
Proof.
  unfold configure, bind, tell, modify, get, getp, throw, ret, same_hooks_and_timers.
  cbn [hooks config with_log].
  destruct (get_prop (read (hooks s) id) "configure") as [f|].
  - destruct f;
      try (eexists; split; [right; eexists; split; [reflexivity|exact I]|];
           repeat split).
    destruct (call_configure w fn _).
    + eexists. split; [left; reflexivity|]. repeat split.
    + eexists. split; [right; eexists; split; [reflexivity|exact I]|]. repeat split.
  - eexists. split; [right; eexists; split; [reflexivity|exact I]|]. repeat split.
Qed.

Lemma configure_iteratee_outcome (id : string) (s : state) :
  exists s1, configure_iteratee w id s = Ok tt s1 /\
    same_hooks_and_timers s s1 /\
    ((stage s1 = stage s /\ log s1 = Call OpConfigure id :: log s) \/
     (stage s <> Finished /\ stage s1 = Finished /\
      exists e, plain_error e /\
        log s1 = CallerCb (Some e) :: Call OpConfigure id :: log s)).
Proof.
  destruct (configure_outcome id s) as (s1 & [E|(e & E & He)] & Hsame & Hst & Hlog);
    unfold configure_iteratee, try_catch; rewrite E.
  - exists s1. split; [reflexivity|]. split; [exact Hsame|]. left. now split.
  - unfold bind, get.
    assert (Hgo : exists s2, hooksReady (Some e) s1 = Ok tt s2 /\
              same_hooks_and_timers s s2 /\ stage s2 = Finished /\
              log s2 = CallerCb (Some e) :: Call OpConfigure id :: log s).
    { eexists. split; [reflexivity|]. split; [exact Hsame|].
      split; [reflexivity|]. simpl. now rewrite Hlog. }
    destruct Hgo as (s2 & E2 & Hs2 & Hst2 & Hl2).
    destruct (stage s1) eqn:Es1.
    1-3: exists s2; split; [exact E2|]; split; [exact Hs2|]; right;
         split; [congruence|]; split; [exact Hst2|]; exists e; now split.
    exists s1. split; [reflexivity|]. split; [exact Hsame|]. left.
    split; [congruence|exact Hlog].
Qed.

Lemma same_hooks_and_timers_trans (s1 s2 s3 : state) :
  same_hooks_and_timers s1 s2 -> same_hooks_and_timers s2 s3 ->
  same_hooks_and_timers s1 s3.
Proof.
  intros (A1 & B1 & C1 & D1 & E1) (A2 & B2 & C2 & D2 & E2).
  repeat split; congruence.
Qed.

(** The loop of the configure stage over the ids [l]. *)
Lemma configure_loop (l : list string) (s : state) :
  exists s' evs, for_each l (configure_iteratee w) s = Ok tt s' /\
    same_hooks_and_timers s s' /\
    log s' = evs ++ log s /\ configures (rev evs) = l /\
    ((stage s' = stage s /\ reports evs = 0) \/
     (stage s <> Finished /\ stage s' = Finished /\ one_report evs)).
Proof.
  revert s. induction l as [|id r IH]; intros s.
  - exists s, []. split; [reflexivity|]. split; [repeat split|].
    split; [reflexivity|]. split; [reflexivity|]. left. now split.
  - destruct (configure_iteratee_outcome id s) as (s1 & E1 & Hs1 & H1).
    destruct (IH s1) as (s' & evs & E & Hs & Hlog & Hcf & H).
    simpl. unfold bind at 1. rewrite E1.
    destruct H1 as [[Hst1 Hl1]|(Hne & Hst1 & e & He & Hl1)].
    + exists s', (evs ++ [Call OpConfigure id]).
      split; [exact E|]. split; [eapply same_hooks_and_timers_trans; eauto|].
      split; [rewrite Hlog, Hl1, <- app_assoc; reflexivity|].
      split; [rewrite rev_app_distr; simpl; now rewrite Hcf|].
      destruct H as [[Hst Hr]|(Hne & Hst & pre & post & id' & e & Hev & Hpo & Hpr & He)].
      * left. split; [congruence|]. rewrite reports_app, Hr. reflexivity.
      * right. split; [congruence|]. split; [exact Hst|].
        exists (pre ++ [Call OpConfigure id]), post, id', e.
        split; [rewrite Hev, <- app_assoc; reflexivity|].
        split; [exact Hpo|]. split; [|exact He].
        rewrite reports_app, Hpr. reflexivity.
    + exists s', (evs ++ [CallerCb (Some e); Call OpConfigure id]).
      split; [exact E|]. split; [eapply same_hooks_and_timers_trans; eauto|].
      split; [rewrite Hlog, Hl1, <- app_assoc; reflexivity|].
      split; [rewrite rev_app_distr; simpl; now rewrite Hcf|].
      right. split; [exact Hne|].
      destruct H as [[Hst Hr]|(Hne' & _)]; [|congruence].
      split; [congruence|].
      exists [], evs, id, e. repeat split; auto.
Qed.

Lemma configureAll_outcome (s : state) :
  exists s' evs,
    configureAll w s = Ok tt s' /\
    hooks s' = hooks s /\ timers s' = timers s /\
    log s' = evs ++ log s /\
    configures (rev evs) = others s /\
    ((stage s = Finished /\ stage s' = Finished /\ reports evs = 0) \/
     (stage s <> Finished /\ stage s' = Task 7 /\ reports evs = 0) \/
     (stage s <> Finished /\ stage s' = Finished /\ one_report evs)).
Proof.
  destruct (configure_loop (others s) s) as (s1 & evs & E & Hs & Hlog & Hcf & H).
  unfold configureAll. unfold bind at 1. unfold get at 1.
  unfold bind at 1.
  change (for_each (others s) _ s) with (for_each (others s) (configure_iteratee w) s).
  rewrite E. unfold bind, get.
  destruct Hs as (Hh & Ht & _).
  destruct H as [[Hst Hr]|(Hne & Hst & Hone)].
  - destruct (stage s1) eqn:Es1.
    1-3: eexists; exists evs; split; [reflexivity|]; simpl;
         repeat (split; [assumption|]);
         right; left; repeat split; [congruence|exact Hr].
    exists s1, evs. split; [reflexivity|]. repeat (split; [assumption|]).
    left. repeat split; [congruence|exact Es1|exact Hr].
  - rewrite Hst. exists s1, evs. split; [reflexivity|].
    repeat (split; [assumption|]). right. right. now repeat split.
Qed.



Lemma configureAll_catches_and_goes_on_aux (s : state) :
  exists s' evs,
    configureAll w s = Ok tt s' /\ log s' = evs ++ log s /\
    ((stage s = Finished /\ stage s' = Finished /\ reports evs = 0) \/
     (stage s <> Finished /\ stage s' = Task 7 /\ reports evs = 0) \/
     (stage s <> Finished /\ stage s' = Finished /\ one_report evs)).
Proof.
  destruct (configureAll_outcome s) as (s' & evs & E & _ & _ & Hlog & _ & H).
  exists s', evs. auto.
Qed.

End MoreConfigure.


(* ===================================================================== *)
(** ** Further properties: the caller hears from the series once *)
(* ===================================================================== *)

Section MoreReports.

Variable w : world.

Ltac reported_leaf :=
  intros ? [? ?]; split;
  unfold reports in *;
  cbn [log stage with_hooks with_config with_timers with_hookTimeouts
       with_inflight with_stage with_todo with_called with_ticks with_halted
       with_log] in *;
  simpl; assumption.

Ltac unreported_leaf :=
  intros ? ?; unfold unreported, reports in *;
  cbn [log stage with_hooks with_config with_timers with_hookTimeouts
       with_inflight with_stage with_todo with_called with_ticks with_halted
       with_log] in *;
  simpl; assumption.

Lemma prepareHook_reported (n : nat) (p : phase) (id : string) :
  keeps (reported n p) (prepareHook w id).
Proof. unfold prepareHook. repeat keeps_step reported_leaf. Qed.

Lemma applyDefaults_reported (n : nat) (p : phase) (id : string) :
  keeps (reported n p) (applyDefaults w id).
Proof. unfold applyDefaults. repeat keeps_step reported_leaf. Qed.

Lemma configure_reported (n : nat) (p : phase) (id : string) :
  keeps (reported n p) (configure w id).
Proof. unfold configure. repeat keeps_step reported_leaf. Qed.

Lemma loadHook_reported (n : nat) (p : phase) (id : string) :
  keeps (reported n p) (loadHook id).
Proof. unfold loadHook. repeat keeps_step reported_leaf. Qed.

Lemma reported_unreported {A} (m : M A) :
  (forall n p, keeps (reported n p) m) -> keeps unreported m.
Proof. intros H s Hs. now destruct (H 0 (stage s) s (conj Hs eq_refl)). Qed.

Lemma reported_once_of {A} (m : M A) (s : state) :
  (forall n p, keeps (reported n p) m) ->
  reported_once s -> reported_once (state_of (m s)).
Proof.
  intros H Hs. destruct (H (reports (log s)) (stage s) s (conj eq_refl eq_refl))
    as [Hr Hst].
  unfold reported_once in *. now rewrite Hr, Hst.
Qed.

Lemma keeps_at (I : state -> Prop) (m : M unit) (s : state) :
  keeps I m -> I s -> I (state_of (m s)).
Proof. intros H. apply H. Qed.

Lemma unreported_once (s : state) : unreported s -> reported_once s.
Proof. intros H. now left. Qed.

Lemma reports_cons (e : event) (l : list event) :
  reports (e :: l) = (if is_report e then 1 else 0) + reports l.
Proof. unfold reports. simpl. now destruct (is_report e). Qed.

Lemma hook_cb_once (id : string) (err : option error) (s : state) :
  reported_once s -> reported_once (state_of (hook_cb id err s)).
Proof.
  intros Hs.
  destruct (hook_cb_report id err s) as (_ & _ & _ & _ & _ & _ & H).
  cbv zeta in H. unfold reported_once in *.
  destruct H as [[Hl Hst]|(Hl & Hst & Hne)]; rewrite Hl.
  - change (reports (Cb id err :: log s)) with (reports (log s)).
    destruct Hs as [Hz|[H1 Hf]]; [now left|].
    right. split; [exact H1|].
    destruct Hst as [E|[(n & E & _)|(k & E & _)]]; congruence.
  - destruct Hs as [Hz|[_ Hf]]; [|contradiction].
    rewrite !reports_cons, Hz. simpl (is_report (Cb id err)). cbv iota.
    destruct (is_report (CallerCb err)); [right|left]; auto.
Qed.

Lemma hooksReady_once (err : option error) (s : state) :
  unreported s -> reported_once (state_of (hooksReady err s)).
Proof.
  intros Hz. unfold reported_once, unreported in *.
  unfold hooksReady, caller_cb, bind, tell, modify.
  cbn [state_of log stage with_log with_stage].
  rewrite reports_cons, Hz.
  destruct (is_report (CallerCb err)); [right|left]; auto.
Qed.

Lemma bootTask_once (id : string) (s : state) :
  unreported s -> reported_once (state_of (bootTask w id s)).
Proof.
  intros Hz. unfold bootTask. unfold bind at 1. unfold get at 1.
  destruct (negb _).
  - apply hook_cb_once. now left.
  - apply unreported_once. apply keeps_at; [|exact Hz].
    apply keeps_bind; [apply reported_unreported; intros; apply prepareHook_reported|].
    intros _.
    apply keeps_bind; [apply reported_unreported; intros; apply applyDefaults_reported|].
    intros _.
    apply keeps_bind; [apply reported_unreported; intros; apply configure_reported|].
    intros _. apply reported_unreported; intros; apply loadHook_reported.
Qed.

Lemma one_report_count (evs : list event) : one_report evs -> reports evs = 1.
Proof.
  intros (pre & post & id & e & -> & Hpo & Hpr & He).
  rewrite reports_app, Hpo, !reports_cons, (plain_error_report e He), Hpr.
  reflexivity.
Qed.

Lemma run_task_once (n : nat) (s : state) :
  unreported s -> reported_once (state_of (run_task w n s)).
Proof.
  intros Hz.
  destruct n as [|[|[|[|[|[|[|[|n]]]]]]]]; cbn [run_task];
    try (unfold bind at 1; unfold modify at 1; apply bootTask_once; exact Hz).
  - apply unreported_once. apply keeps_at; [|exact Hz]. unfold validate.
    repeat keeps_step unreported_leaf.
  - apply unreported_once. apply keeps_at; [|exact Hz]. unfold prepare.
    apply keeps_bind; [apply keeps_get|]. intros s0.
    apply keeps_bind.
    + apply keeps_for_each. intros id.
      apply reported_unreported; intros; apply prepareHook_reported.
    + intros _. apply keeps_modify. unreported_leaf.
  - apply unreported_once. apply keeps_at; [|exact Hz]. unfold defaults.
    apply keeps_bind; [apply keeps_get|]. intros s0.
    apply keeps_bind.
    + apply keeps_for_each. intros id.
      apply reported_unreported; intros; apply applyDefaults_reported.
    + intros _. apply keeps_modify. unreported_leaf.
  - destruct (configureAll_catches_and_goes_on_aux w s)
      as (s' & evs & E & Hlog & H).
    rewrite E. simpl. unfold reported_once, unreported in *.
    rewrite Hlog, reports_app, Hz.
    destruct H as [(_ & _ & Hr)|[(_ & _ & Hr)|(_ & Hst & Hone)]].
    + left. now rewrite Hr.
    + left. now rewrite Hr.
    + right. split; [|exact Hst]. now rewrite (one_report_count evs Hone).
  - unfold loadAll. unfold bind at 1. unfold get at 1.
    destruct (others s).
    + now apply hooksReady_once.
    + apply unreported_once. exact Hz.
  - now apply hooksReady_once.
Qed.

Lemma reported_once_settle (r : result unit) :
  reported_once (state_of r) -> reported_once (settle r).
Proof. destruct r; intros H; exact H. Qed.

Lemma reports_announcement (id : string) (err : jsval) :
  reports (announcement id err) = 0.
Proof.
  unfold announcement.
  destruct (truthy err), (negb (id =? "userhooks")%string); reflexivity.
Qed.

Lemma exec_once (l : label) (s s' : state) :
  reported_once s -> exec w l s = Some s' -> reported_once s'.
Proof.
  intros Hs. unfold exec. destruct (halted s); [discriminate|].
  destruct l as [|h|id c|].
  - destruct (todo s) as [|id rest].
    + destruct (stage s) as [n| | |] eqn:Est; try discriminate.
      intros H. inversion H. apply reported_once_settle. apply run_task_once.
      destruct Hs as [Hz|[_ Hf]]; [exact Hz|congruence].
    + intros H. inversion H. apply reported_once_settle.
      apply reported_once_of; [|exact Hs].
      intros n p.
      apply keeps_bind; [apply keeps_modify; reported_leaf|]. intros _.
      apply keeps_bind; [unfold tell; apply keeps_modify; reported_leaf|]. intros _.
      apply loadHook_reported.
  - destruct (nth_error (timers s) h) as [t|]; [|discriminate].
    destruct (t_status t); try discriminate.
    intros H. inversion H. apply reported_once_settle.
    unfold bind at 1. unfold modify at 1. unfold tooLong.
    unfold bind at 1. unfold get at 1.
    destruct (config_key _ _); [|exact Hs].
    apply hook_cb_once. exact Hs.
  - destruct (take_inflight id (inflight s)) as [[h rest]|]; [|discriminate].
    intros H. inversion H. apply reported_once_settle.
    unfold bind at 1. unfold modify at 1.
    apply loaded_keeps;
      [intros e s0; apply hook_cb_once|intros t s0 H0; exact H0|].
    unfold reported_once, after_completion in *.
    cbn [log stage with_log with_timers].
    rewrite reports_app, reports_announcement.
    destruct (c_config c); exact Hs.
  - destruct (todo s); [|discriminate].
    destruct (ticks s) as [|id rest]; [discriminate|].
    intros H. inversion H. apply reported_once_settle.
    apply tick_keeps;
      [intros e s0; apply hook_cb_once|intros t s0 H0; exact H0|exact Hs].
Qed.

Lemma run_once (ls : list label) (s0 s : state) :
  reported_once s0 -> run w ls s0 = Some s -> reported_once s.
Proof.
  revert s0. induction ls as [|l r IH]; intros s0 H0; simpl.
  - intros E. inversion E. now subst.
  - destruct (exec w l s0) as [s1|] eqn:E; [|discriminate].
    apply IH. eapply exec_once; eauto.
Qed.

(** X10.  At every point of every run on a fresh application, whatever
    the timers and the hooks do, the series has handed the caller at
    most one result (success, or the error of a hook), and if it has,
    the series is over.  The configuration error that prepareHook hands
    to the caller itself is not counted. *)
Theorem series_reports_at_most_once
    (hs : dict) (cfg : jsval) (ls : list label) (s : state)
    (Hrun : run w ls (init hs cfg) = Some s) :
  reports (log s) = 0 \/ (reports (log s) = 1 /\ stage s = Finished).
Proof. apply (run_once ls (init hs cfg)); [now left|exact Hrun]. Qed.

End MoreReports.

Lemma series_reports_at_most_once_witness :
  let s := Samples.final Samples.app Samples.full_run Samples.full_registry (JObj []) in
  In (CallerCb None) (log s) /\
  (reports (log s) = 0 \/ (reports (log s) = 1 /\ stage s = Finished)).
Proof.
  cbv zeta. split; [vm_compute; now left|].
  apply (series_reports_at_most_once Samples.app Samples.full_registry (JObj [])
           Samples.full_run).
  vm_compute. reflexivity.
Defined.

(* ===================================================================== *)
(** ** Further properties: who writes which registry entry *)
(* ===================================================================== *)

Section MoreRegistry.

Variable w : world.

Lemma keys_remove_incl (k : string) (d : dict) : incl (keys (remove k d)) (keys d).
Proof.
  induction d as [|[k0 v0] r IH]; simpl; [apply incl_refl|].
  destruct (String.eqb k k0); simpl.
  - now apply incl_tl.
  - apply incl_cons; [now left|now apply incl_tl].
Qed.

Lemma read_assign_other (k x : string) (v : jsval) (d : dict) :
  x <> k -> read (assign k v d) x = read d x.
Proof.
  intros Hne. unfold read. rewrite lookup_assign.
  apply String.eqb_neq in Hne. now rewrite Hne.
Qed.

Lemma read_remove_other (k x : string) (d : dict) :
  x <> k -> read (remove k d) x = read d x.
Proof.
  intros Hne. unfold read. rewrite lookup_remove.
  apply String.eqb_neq in Hne. now rewrite Hne.
Qed.

Lemma set_prop_other (v v' x : jsval) (k k' : string) :
  set_prop v k x = Some v' -> k' <> k -> get_prop v' k' = get_prop v k'.
Proof.
  intros H Hne.
  destruct v; simpl in H; inversion H; subst; simpl; try reflexivity;
    now rewrite read_assign_other.
Qed.

Lemma get_prop_present (d : dict) (id k : string) (v : jsval) :
  get_prop (read d id) k = Some v -> lookup id d <> None.
Proof. unfold read. destruct (lookup id d); [discriminate|]. simpl. discriminate. Qed.

Lemma spares_refl (X : string -> Prop) (s : state) : spares X s s.
Proof. split; [apply incl_refl|reflexivity]. Qed.

Lemma spares_trans (X : string -> Prop) (s1 s2 s3 : state) :
  spares X s1 s2 -> spares X s2 s3 -> spares X s1 s3.
Proof.
  intros [I1 R1] [I2 R2]. split.
  - eapply incl_tran; eauto.
  - intros x Hx. rewrite R2, R1; auto.
Qed.

Lemma spares_same (X : string -> Prop) (s s' : state) :
  hooks s' = hooks s -> spares X s s'.
Proof. intros H. unfold spares. rewrite H. split; [apply incl_refl|reflexivity]. Qed.

Lemma spares_remove (X : string -> Prop) (id : string) (s s' : state) :
  ~ X id -> hooks s' = remove id (hooks s) -> spares X s s'.
Proof.
  intros Hid H. unfold spares. rewrite H. split; [apply keys_remove_incl|].
  intros x Hx. apply read_remove_other. intros ->. contradiction.
Qed.

Lemma spares_assign (X : string -> Prop) (id : string) (v : jsval) (s s' : state) :
  ~ X id -> lookup id (hooks s) <> None -> hooks s' = assign id v (hooks s) ->
  spares X s s'.
Proof.
  intros Hid Hp H. unfold spares. rewrite H. split.
  - rewrite keys_assign_present by exact Hp. apply incl_refl.
  - intros x Hx. apply read_assign_other. intros ->. contradiction.
Qed.

(** What prepareHook does to the registry: nothing, or it deletes the
    id, or it replaces the entry the id has. *)
Lemma prepareHook_registry (id : string) (s : state) :
  let s' := state_of (prepareHook w id s) in
  hooks s' = hooks s \/ hooks s' = remove id (hooks s) \/
  (lookup id (hooks s) <> None /\ exists v, hooks s' = assign id v (hooks s)).
Proof.
  unfold prepareHook, bind, tell, modify, get, caller_cb, getp, setp, returned,
    ret, throw, process_exit.
  cbn [hooks with_log].
  destruct (is_false (read (hooks s) id) || is_false_string (read (hooks s) id)
            || is_false (read (hooks s) (split_head id))); [right; now left|].
  destruct (truthy (read (hooks s) "userconfig")
            && negb (truthy (read (hooks s) "moduleloader"))); [now left|].
  assert (Hp : read (hooks s) id <> JUndef -> lookup id (hooks s) <> None).
  { unfold read. destruct (lookup id (hooks s)); congruence. }
  destruct (isObject (read (hooks s) id) && negb (isArray (read (hooks s) id))
            && negb (isFunction (read (hooks s) id))) eqn:Eo.
  - destruct (get_prop (read (hooks s) id) "index") as [hp|] eqn:Ei; [|now left].
    destruct hp; try (now left).
    destruct (call_factory w fn) as [def|]; [|now left].
    destruct (set_prop def "identity" _) as [d1|]; [|now left].
    destruct (get_prop d1 "identity") as [i|]; [|now left].
    destruct (set_prop d1 "configKey" _) as [d2|]; [|now left].
    destruct (new_Hook w d2) as [hk|]; [|now left].
    right; right. split; [|eexists; reflexivity].
    eapply get_prop_present. exact Ei.
  - destruct (read (hooks s) id) eqn:Er; try (now left).
    destruct (call_factory w fn) as [def|]; [|now left].
    destruct (set_prop def "identity" _) as [d1|]; [|now left].
    destruct (get_prop d1 "identity") as [i|]; [|now left].
    destruct (set_prop d1 "configKey" _) as [d2|]; [|now left].
    destruct (new_Hook w d2) as [hk|]; [|now left].
    right; right. split; [|eexists; reflexivity].
    apply Hp. discriminate.
Qed.

Lemma prepareHook_spares (X : string -> Prop) (id : string) :
  ~ X id -> effect (spares X) (prepareHook w id).
Proof.
  intros Hid s.
  destruct (prepareHook_registry id s) as [H|[H|(Hp & v & H)]]; cbv zeta in H.
  - now apply spares_same.
  - now apply (spares_remove X id).
  - now apply (spares_assign X id v).
Qed.

(** What applyDefaults does to the registry: nothing, or it replaces
    the entry the id has by one that differs in [defaults] only. *)
Lemma applyDefaults_registry (id : string) (s : state) :
  let s' := state_of (applyDefaults w id s) in
  hooks s' = hooks s \/
  (lookup id (hooks s) <> None /\
   exists d hook', set_prop (read (hooks s) id) "defaults" d = Some hook' /\
                   hooks s' = assign id hook' (hooks s)).
Proof.
  unfold applyDefaults, bind, tell, modify, get, getp, setp, delp, returned,
    ret, throw.
  cbn [hooks config with_log].
  destruct (get_prop (read (hooks s) id) "defaults") as [hd|] eqn:Ehd; [|now left].
  assert (Hp : lookup id (hooks s) <> None) by (eapply get_prop_present; eauto).
  repeat (cbv beta iota;
          match goal with
          | |- context [match ?x with _ => _ end] =>
              lazymatch x with
              | context [match _ with _ => _ end] => fail
              | _ => destruct x eqn:?
              end
          end);
    cbn [state_of hooks with_hooks with_config with_log];
    first [ now left
          | right; split; [exact Hp|]; eexists; eexists;
            split; [eassumption|reflexivity] ].
Qed.

Lemma applyDefaults_spares (X : string -> Prop) (id : string) :
  ~ X id -> effect (spares X) (applyDefaults w id).
Proof.
  intros Hid s.
  destruct (applyDefaults_registry id s) as [H|(Hp & d & v & _ & H)]; cbv zeta in H.
  - now apply spares_same.
  - now apply (spares_assign X id v).
Qed.

(** X11.  applyDefaults writes the registry at most at the [defaults]
    member of the entry it was called for: the keys of the registry and
    their order, every other entry, and every other member of that
    entry are what they were, and so are the timers and the stage of
    the series. *)
Theorem applyDefaults_rewrites_defaults_only (id : string) (s : state) :
  let s' := state_of (applyDefaults w id s) in
  keys (hooks s') = keys (hooks s) /\
  (forall x, x <> id -> read (hooks s') x = read (hooks s) x) /\
  (forall k, k <> "defaults" ->
     get_prop (read (hooks s') id) k = get_prop (read (hooks s) id) k) /\
  timers s' = timers s /\ stage s' = stage s.
Proof.
  cbv zeta.
  destruct (applyDefaults_quiet w id s) as [(Hst & _ & Hti & _) _].
  destruct (applyDefaults_registry id s) as [H|(Hp & d & v & Hset & H)];
    cbv zeta in H; rewrite H.
  - repeat split; auto.
  - split; [now apply keys_assign_present|].
    split; [intros x Hx; now apply read_assign_other|].
    split; [|split; assumption].
    intros k Hk. replace (read (assign id v (hooks s)) id) with v.
    + eapply set_prop_other; eauto.
    + unfold read. now rewrite lookup_assign, String.eqb_refl.
Qed.

Ltac hooks_leaf :=
  intros ? ?;
  cbn [hooks with_hooks with_config with_timers with_hookTimeouts
       with_inflight with_stage with_todo with_called with_halted with_log];
  assumption.

Lemma same_hooks_spares (X : string -> Prop) {A} (m : M A) :
  (forall h, keeps (fun s => hooks s = h) m) -> effect (spares X) m.
Proof. intros H s. apply spares_same. now apply (H (hooks s) s). Qed.

Lemma configure_hooks (id : string) (h : dict) :
  keeps (fun s => hooks s = h) (configure w id).
Proof. unfold configure. repeat keeps_step hooks_leaf. Qed.

Lemma loadHook_hooks (id : string) (h : dict) :
  keeps (fun s => hooks s = h) (loadHook id).
Proof. unfold loadHook. repeat keeps_step hooks_leaf. Qed.

Lemma hook_cb_hooks (id : string) (err : option error) (h : dict) :
  keeps (fun s => hooks s = h) (hook_cb id err).
Proof. unfold hook_cb. repeat keeps_step hooks_leaf. Qed.

Lemma bootTask_spares (id : string) :
  effect (spares (fun x => x <> id)) (bootTask w id).
Proof.
  assert (Hid : ~ (fun x : string => x <> id) id) by (intros H; now apply H).
  unfold bootTask.
  apply effect_bind; [apply spares_trans|apply effect_get, spares_refl|intros s0].
  destruct (negb _).
  - apply same_hooks_spares. intros h. apply hook_cb_hooks.
  - apply effect_bind; [apply spares_trans|now apply prepareHook_spares|intros _].
    apply effect_bind; [apply spares_trans|now apply applyDefaults_spares|intros _].
    apply effect_bind; [apply spares_trans| |intros _].
    + apply same_hooks_spares. intros h. apply configure_hooks.
    + apply same_hooks_spares. intros h. apply loadHook_hooks.
Qed.

Lemma others_not_bootstrap (s : state) (id : string) :
  In id (others s) -> ~ (is_bootstrap id = true).
Proof.
  unfold others, without_bootstrap. rewrite filter_In. intros [_ H] E.
  rewrite E in H. discriminate.
Qed.

Lemma run_task_spares (n : nat) : effect (spares (out_of_reach n)) (run_task w n).
Proof.
  destruct n as [|[|[|[|[|[|[|[|n]]]]]]]]; cbn [run_task];
    try (apply effect_bind; [apply spares_trans| |intros _];
         [apply same_hooks_spares; intros h; apply keeps_modify; hooks_leaf
         |apply bootTask_spares]).
  - unfold validate.
    apply effect_bind; [apply spares_trans|apply effect_get, spares_refl|intros s0].
    apply effect_bind; [apply spares_trans| |intros _].
    + destruct (truthy _); [|apply effect_ret, spares_refl].
      apply effect_bind; [apply spares_trans| |intros _].
      * apply same_hooks_spares. intros h. repeat keeps_step hooks_leaf.
      * intros s. apply (spares_remove _ "controllers"); [|reflexivity].
        unfold out_of_reach. simpl. discriminate.
    + apply same_hooks_spares. intros h. apply keeps_modify. hooks_leaf.
  - unfold prepare.
    apply effect_bind; [apply spares_trans|apply effect_get, spares_refl|intros s0].
    apply effect_bind; [apply spares_trans| |intros _].
    + apply effect_for_each; [apply spares_refl|apply spares_trans|].
      intros id Hid. apply prepareHook_spares.
      now apply (others_not_bootstrap s0).
    + apply same_hooks_spares. intros h. apply keeps_modify. hooks_leaf.
  - unfold defaults.
    apply effect_bind; [apply spares_trans|apply effect_get, spares_refl|intros s0].
    apply effect_bind; [apply spares_trans| |intros _].
    + apply effect_for_each; [apply spares_refl|apply spares_trans|].
      intros id Hid. apply applyDefaults_spares.
      now apply (others_not_bootstrap s0).
    + apply same_hooks_spares. intros h. apply keeps_modify. hooks_leaf.
  - intros s. destruct (configureAll_outcome w s) as (s' & evs & E & Hh & _).
    rewrite E. now apply spares_same.
  - apply same_hooks_spares. intros h. unfold loadAll. repeat keeps_step hooks_leaf.
  - apply same_hooks_spares. intros h. repeat keeps_step hooks_leaf.
Qed.

(** X12.  No task of the series adds a key to the registry, and each
    task writes only the entries it is there for: a bootstrap task
    leaves the entry of every id but its own as it was, and validate,
    prepare, defaults, configure and load leave the entries of the three
    bootstrap ids as they were. *)
Theorem tasks_write_their_own_hooks (n : nat) (s : state) :
  let s' := state_of (run_task w n s) in
  incl (keys (hooks s')) (keys (hooks s)) /\
  forall x, (if Nat.ltb n 3 then x <> boot n else is_bootstrap x = true) ->
    read (hooks s') x = read (hooks s) x.
Proof. apply run_task_spares. Qed.

End MoreRegistry.

(* ===================================================================== *)
(** ** Further properties: what a report of success means *)
(* ===================================================================== *)

Section MoreSuccess.

Variable w : world.

Lemma nb_loads_app (a b : list event) : nb_loads (a ++ b) = nb_loads a ++ nb_loads b.
Proof. unfold nb_loads. apply flat_map_app. Qed.

Lemma nb_loads_inert (evs : list event) : Forall inert evs -> nb_loads evs = [].
Proof.
  induction 1 as [|e r He _ IH]; [reflexivity|].
  change (e :: r) with ([e] ++ r). rewrite nb_loads_app, IH, app_nil_r.
  destruct e as [o id| | | | | |]; try reflexivity.
  destruct o; try reflexivity. simpl in He |- *. now rewrite He.
Qed.

Lemma success_inert (evs l : list event) :
  Forall inert evs -> In (CallerCb None) (evs ++ l) -> In (CallerCb None) l.
Proof.
  intros H Hin. apply in_app_or in Hin as [Hin|Hin]; [|exact Hin].
  rewrite Forall_forall in H. apply H in Hin. contradiction.
Qed.

Lemma nb_loads_in (id : string) (l : list event) :
  In id (nb_loads l) <-> In (Call OpLoad id) l /\ is_bootstrap id = false.
Proof.
  unfold nb_loads. rewrite in_flat_map. split.
  - intros (e & He & Hin). destruct e as [o id'| | | | | |]; try contradiction.
    destruct o; try contradiction.
    destruct (is_bootstrap id') eqn:Eb; [contradiction|].
    destruct Hin as [->|[]]. now split.
  - intros [Hin Hb]. exists (Call OpLoad id). split; [exact Hin|].
    rewrite Hb. now left.
Qed.

(** *** Before the load stage *)

Lemma before_ext (evs : list event) (s s' : state) :
  before_loads s -> todo s' = todo s -> log s' = evs ++ log s ->
  Forall inert evs -> before_loads s'.
Proof.
  intros (Ht & Hn & Hs) Et El Hi. unfold before_loads. rewrite Et, El.
  split; [exact Ht|]. split.
  - now rewrite nb_loads_app, (nb_loads_inert evs Hi), Hn.
  - intros Hin. apply Hs. eapply success_inert; eauto.
Qed.

Lemma before_tell (e : event) :
  inert e -> forall s, before_loads s -> before_loads (with_log (e :: log s) s).
Proof.
  intros He s Hs. apply (before_ext [e] s); auto; try (now repeat constructor).
Qed.

Ltac before_leaf :=
  first [ apply before_tell; simpl; auto
        | intros ? H; exact H ].

Lemma prepareHook_before (id : string) : keeps before_loads (prepareHook w id).
Proof. unfold prepareHook. repeat keeps_step before_leaf. Qed.

Lemma applyDefaults_before (id : string) : keeps before_loads (applyDefaults w id).
Proof. unfold applyDefaults. repeat keeps_step before_leaf. Qed.

Lemma configure_before (id : string) : keeps before_loads (configure w id).
Proof. unfold configure. repeat keeps_step before_leaf. Qed.

Lemma loadHook_before (id : string) :
  is_bootstrap id = true -> keeps before_loads (loadHook id).
Proof.
  intros Hb s Hs.
  destruct (loadHook_cases id s) as (_ & Ht & _ & evs & Hevs & H).
  cbv zeta in Ht, H.
  assert (Hi : Forall inert evs).
  { eapply Forall_impl; [|exact Hevs]. intros e (h & iv & ->). exact I. }
  destruct H as [[_ Hl]|(h & _ & Hl)].
  - now apply (before_ext evs s).
  - apply (before_ext (Call OpLoad id :: evs) s); auto; try (now repeat constructor).
Qed.

Lemma hook_cb_before (id : string) :
  is_bootstrap id = true -> keeps before_loads (hook_cb id None).
Proof.
  intros Hb s Hs.
  destruct (hook_cb_cases id None s) as (Ht & _ & _ & H). cbv zeta in Ht, H.
  destruct H as [[Hl _]|[[Hl _]|[(_ & _ & Hn & _)|[(e & He & _)|(_ & _ & Hn & _)]]]];
    try congruence.
  - apply (before_ext [Cb id None] s); auto; try (now repeat constructor).
  - apply (before_ext [Cb id None] s); auto; try (now repeat constructor).
Qed.

Lemma bootTask_before (id : string) :
  is_bootstrap id = true -> keeps before_loads (bootTask w id).
Proof.
  intros Hb. unfold bootTask.
  apply keeps_bind; [apply keeps_get|]. intros s0.
  destruct (negb _); [now apply hook_cb_before|].
  apply keeps_bind; [apply prepareHook_before|]. intros _.
  apply keeps_bind; [apply applyDefaults_before|]. intros _.
  apply keeps_bind; [apply configure_before|]. intros _.
  now apply loadHook_before.
Qed.

Lemma early_task_before (n : nat) : n <= 6 -> keeps before_loads (run_task w n).
Proof.
  intros Hn.
  destruct n as [|[|[|[|[|[|[|n]]]]]]]; [..|lia]; cbn [run_task];
    try (apply keeps_bind; [apply keeps_modify; before_leaf|intros _];
         apply bootTask_before; reflexivity).
  - unfold validate. repeat keeps_step before_leaf.
  - unfold prepare. apply keeps_bind; [apply keeps_get|]. intros s0.
    apply keeps_bind; [apply keeps_for_each; intros id; apply prepareHook_before|].
    intros _. apply keeps_modify. before_leaf.
  - unfold defaults. apply keeps_bind; [apply keeps_get|]. intros s0.
    apply keeps_bind; [apply keeps_for_each; intros id; apply applyDefaults_before|].
    intros _. apply keeps_modify. before_leaf.
  - unfold configureAll. apply keeps_bind; [apply keeps_get|]. intros s0.
    apply keeps_bind.
    + apply keeps_for_each. intros id. apply keeps_try_catch;
        [apply configure_before|]. intros e. repeat keeps_step before_leaf.
    + intros _. repeat keeps_step before_leaf.
Qed.

(** *** The course of the load stage *)

Lemma before_on_course (s : state) : before_loads s -> on_course s.
Proof.
  intros (Ht & Hn & Hs). unfold on_course.
  destruct (stage s); try (repeat split; assumption).
  - split; [exact Hs|]. split; [rewrite Ht; constructor|].
    exists []. rewrite Ht, Hn. simpl.
    repeat split; try constructor; try apply incl_nil_l. lia.
  - intros H. contradiction.
Qed.

Lemma no_success_yet (s : state) :
  on_course s -> stage s <> Finished -> ~ In (CallerCb None) (log s).
Proof.
  unfold on_course. destruct (stage s); intros H Hne.
  - apply H.
  - apply H.
  - apply H.
  - congruence.
Qed.

Lemma on_course_ext (evs : list event) (s s' : state) :
  on_course s -> stage s' = stage s -> todo s' = todo s ->
  incl (called s) (called s') -> log s' = evs ++ log s -> Forall inert evs ->
  on_course s'.
Proof.
  intros H Est Et Ec El Hi. unfold on_course in *. rewrite Est.
  assert (Hn : nb_loads (log s') = nb_loads (log s)).
  { now rewrite El, nb_loads_app, (nb_loads_inert evs Hi). }
  assert (Hs : In (CallerCb None) (log s') -> In (CallerCb None) (log s)).
  { rewrite El. now apply success_inert. }
  assert (Hg : forall e, In e (log s) -> In e (log s')).
  { intros e He. rewrite El. apply in_or_app. now right. }
  destruct (stage s).
  - now apply (before_ext evs s).
  - now apply (before_ext evs s).
  - destruct H as (Hno & Htodo & done & Hnd & Hic & Hin & Hcb & Hle).
    split; [tauto|]. split; [now rewrite Et|].
    exists done. rewrite Hn, Et.
    split; [exact Hnd|]. split; [eapply incl_tran; [exact Hic|exact Ec]|].
    split; [exact Hin|]. split; [|exact Hle].
    eapply Forall_impl; [|exact Hcb]. intros id. apply Hg.
  - intros Hsucc. destruct (H (Hs Hsucc)) as (Htd & Hall & Hboot).
    rewrite Et, Hn. repeat split; auto.
Qed.

Lemma on_course_fail (evs : list event) (s s' : state) :
  on_course s -> stage s <> Finished -> stage s' = Finished ->
  log s' = evs ++ log s -> Forall inert evs -> on_course s'.
Proof.
  intros H Hne Est El Hi. pose proof (no_success_yet s H Hne) as Hno.
  unfold on_course. rewrite Est. rewrite El. intros Hs.
  exfalso. apply Hno. eapply success_inert; eauto.
Qed.

(** Adding the hook that has just called back to the ones that are
    done. *)
Lemma done_more (id : string) (done : list string) (s s' : state) (evs : list event) :
  ~ In id (called s) -> In id (called s') -> incl (called s) (called s') ->
  log s' = evs ++ Cb id None :: log s -> nb_loads evs = [] ->
  In id (nb_loads (log s)) ->
  NoDup done -> incl done (called s) -> incl done (nb_loads (log s)) ->
  Forall (fun x => In (Cb x None) (log s)) done ->
  NoDup (id :: done) /\ incl (id :: done) (called s') /\
  incl (id :: done) (nb_loads (log s')) /\
  Forall (fun x => In (Cb x None) (log s')) (id :: done) /\
  nb_loads (log s') = nb_loads (log s).
Proof.
  intros Hnew Hin' Hc El Hev Hid Hnd Hic Hin Hcb.
  assert (Hn : nb_loads (log s') = nb_loads (log s)).
  { rewrite El, nb_loads_app, Hev. reflexivity. }
  rewrite Hn. split; [|split; [|split; [|split; [|reflexivity]]]].
  - constructor; [|exact Hnd]. intros H. apply Hnew. now apply Hic.
  - apply incl_cons; [exact Hin'|]. exact (incl_tran Hic Hc).
  - apply incl_cons; assumption.
  - constructor.
    + rewrite El. apply in_or_app. right. now left.
    + eapply Forall_impl; [|exact Hcb]. intros x Hx. rewrite El.
      apply in_or_app. right. now right.
Qed.

Lemma hook_cb_on_course (id : string) (err : option error) (s : state) :
  on_course s ->
  (forall n, stage s = Loading n -> forall k, k < 3 -> In (Cb (boot k) None) (log s)) ->
  (err = None -> is_bootstrap id = false -> In id (nb_loads (log s))) ->
  on_course (state_of (hook_cb id err s)).
Proof.
  intros Hs Hboot Hid.
  destruct (hook_cb_cases id err s) as (Ht & _ & Hc & H). cbv zeta in Ht, Hc, H.
  destruct H as [[Hl Hst]|[(Hl & n & Hst & Hst')|[C|[D|E]]]].
  - apply (on_course_ext [Cb id err] s); auto. now repeat constructor.
  - apply before_on_course. apply (before_ext [Cb id err] s); auto.
    + unfold on_course in Hs. now rewrite Hst in Hs.
    + now repeat constructor.
  - destruct C as (-> & Hl & Hb & Hnew & Hin' & k & Hst & Hst').
    unfold on_course in *. rewrite Hst in Hs. rewrite Hst'.
    destruct Hs as (Hno & Htodo & done & Hnd & Hic & Hin & Hcb & Hle).
    destruct (done_more id done s _ [] Hnew Hin' Hc Hl eq_refl (Hid eq_refl Hb)
                Hnd Hic Hin Hcb) as (A1 & A2 & A3 & A4 & A5).
    split; [rewrite Hl; intros [H|H]; [discriminate|tauto]|].
    split; [now rewrite Ht|].
    exists (id :: done). rewrite Ht, A5.
    split; [exact A1|]. split; [exact A2|]. split; [now rewrite <- A5|].
    split; [exact A4|]. simpl. lia.
  - destruct D as (e & -> & Hl & Hne & Hst').
    apply (on_course_fail [CallerCb (Some e); Cb id (Some e)] s); auto.
    now repeat constructor.
  - destruct E as (-> & Hl & Hb & Hnew & Hin' & k & Hst & Hk & Hst').
    unfold on_course in *. rewrite Hst in Hs. rewrite Hst'. intros _.
    destruct Hs as (Hno & Htodo & done & Hnd & Hic & Hin & Hcb & Hle).
    destruct (done_more id done s _ [CallerCb None] Hnew Hin' Hc Hl eq_refl
                (Hid eq_refl Hb) Hnd Hic Hin Hcb) as (A1 & A2 & A3 & A4 & A5).
    pose proof (NoDup_incl_length A1 A3) as Hlen. rewrite A5 in Hlen.
    simpl in Hlen.
    split; [|split].
    + rewrite Ht. apply length_zero_iff_nil. lia.
    + assert (Hsub : incl (nb_loads (log s)) (id :: done)).
      { apply NoDup_length_incl; [exact A1|simpl; lia|rewrite <- A5; exact A3]. }
      intros x Hx. rewrite Forall_forall in A4. apply A4.
      apply Hsub. rewrite <- A5. exact Hx.
    + intros k0 Hk0. rewrite Hl. right. right. now apply (Hboot k).
Qed.

Lemma on_course_settle (r : result unit) : on_course (state_of r) -> on_course (settle r).
Proof. destruct r; intros H; exact H. Qed.

Lemma boot_resolved (s : state) :
  invariant s ->
  forall n, stage s = Loading n \/ (stage s = Task n /\ 3 <= n) ->
  forall k, k < 3 -> In (Cb (boot k) None) (log s).
Proof.
  intros Hinv n Hst k Hk. pose proof (inv_resolved s Hinv k Hk) as H.
  destruct Hst as [Hst|[Hst Hn]]; rewrite Hst in H.
  - apply H.
  - apply H. lia.
Qed.

Lemma success_at_once (s : state) :
  before_loads s ->
  (forall k, k < 3 -> In (Cb (boot k) None) (log s)) ->
  on_course (state_of (hooksReady None s)).
Proof.
  intros (Ht & Hn & Hs) Hboot. unfold on_course, hooksReady, caller_cb, bind, tell, modify.
  cbn [state_of stage todo log with_log with_stage]. intros _.
  split; [exact Ht|]. split.
  - change (CallerCb None :: log s) with ([CallerCb None] ++ log s).
    rewrite nb_loads_app, Hn. intros id [].
  - intros k Hk. right. now apply Hboot.
Qed.

Lemma exec_on_course (l : label) (s s' : state) :
  on_course s -> pending s -> invariant s ->
  exec w l s = Some s' -> on_course s'.
Proof.
  intros Hs Hf Hinv. unfold exec. destruct (halted s); [discriminate|].
  destruct l as [|h|id c|].
  - destruct (todo s) as [|id rest] eqn:Htodo.
    + destruct (stage s) as [n| | |] eqn:Est; try discriminate.
      intros H. inversion H.
      apply on_course_settle.
      assert (Hb : before_loads s).
      { unfold on_course in Hs. now rewrite Est in Hs. }
      destruct (Nat.le_gt_cases n 6) as [Hn|Hn].
      * apply before_on_course. now apply early_task_before.
      * assert (Hboot : forall k, k < 3 -> In (Cb (boot k) None) (log s)).
        { apply (boot_resolved s Hinv n). right. split; [exact Est|lia]. }
        destruct n as [|[|[|[|[|[|[|[|n]]]]]]]]; try lia; cbn [run_task].
        -- unfold loadAll. unfold bind at 1. unfold get at 1.
           destruct (others s) as [|id r] eqn:Eo; [now apply success_at_once|].
           unfold on_course, modify.
           cbn [state_of stage todo log called with_todo with_stage].
           destruct Hb as (_ & Hn0 & Hno).
           split; [exact Hno|]. split.
           ++ rewrite <- Eo. apply Forall_forall. intros x Hx.
              apply task_of_bootstrap. eapply others_nonboot; eauto.
           ++ exists []. rewrite Hn0. simpl.
              repeat split; try constructor; try apply incl_nil_l; lia.
        -- now apply success_at_once.
    + intros H. inversion H. clear H.
      set (s1 := with_log (Log "silly" ("Loading hook: " ++ id) :: log s)
                   (with_todo rest s)).
      change (on_course (settle (loadHook id s1))).
      apply on_course_settle.
      destruct (loadHook_cases id s1) as (Hst & Ht & Hc & evs & Hevs & Hcase).
      cbv zeta in Hst, Ht, Hc, Hcase.
      assert (Hi : Forall inert evs).
      { eapply Forall_impl; [|exact Hevs]. intros e (h & iv & ->). exact I. }
      assert (Hn1 : nb_loads (evs ++ log s1) = nb_loads (log s)).
      { rewrite nb_loads_app, (nb_loads_inert evs Hi). reflexivity. }
      unfold on_course in *. rewrite Hst. cbn [stage s1 with_log with_todo].
      destruct (stage s) as [n|n|k|] eqn:Est.
      * destruct Hs as (Ht0 & _). congruence.
      * destruct Hs as (Ht0 & _). congruence.
      * destruct Hs as (Hno & Htd & done & Hnd & Hic & Hin & Hcb & Hle).
        rewrite Htodo in Htd, Hle. inversion Htd as [|? ? Hb Hrest]; subst.
        rewrite Ht, Hc. cbn [todo called s1 with_log with_todo].
        assert (Hg : forall e, In e (log s) -> In e (log (state_of (loadHook id s1)))).
        { intros e He. destruct Hcase as [[_ Hl]|(h & _ & Hl)]; rewrite Hl.
          - apply in_or_app. right. now right.
          - right. apply in_or_app. right. now right. }
        assert (Hno' : ~ In (CallerCb None) (log (state_of (loadHook id s1)))).
        { destruct Hcase as [[_ Hl]|(h & _ & Hl)]; rewrite Hl; intros Hx.
          - apply (success_inert evs) in Hx; [|exact Hi].
            destruct Hx as [Hx|Hx]; [discriminate|tauto].
          - destruct Hx as [Hx|Hx]; [discriminate|].
            apply (success_inert evs) in Hx; [|exact Hi].
            destruct Hx as [Hx|Hx]; [discriminate|tauto]. }
        split; [exact Hno'|]. split; [exact Hrest|].
        exists done. split; [exact Hnd|]. split; [exact Hic|].
        destruct Hcase as [[_ Hl]|(h & _ & Hl)]; rewrite Hl.
        -- rewrite Hn1. split; [exact Hin|]. split.
           ++ eapply Forall_impl; [|exact Hcb]. intros x Hx.
              apply in_or_app. right. now right.
           ++ simpl in Hle. lia.
        -- change (Call OpLoad id :: evs ++ log s1)
             with ([Call OpLoad id] ++ evs ++ log s1).
           rewrite nb_loads_app, Hn1. simpl. rewrite Hb. simpl. split.
           ++ now apply incl_tl.
           ++ split.
              ** eapply Forall_impl; [|exact Hcb]. intros x Hx.
                 right. apply in_or_app. right. now right.
              ** simpl in Hle. lia.
      * intros Hsucc. exfalso.
        assert (Hold : In (CallerCb None) (log s)).
        { destruct Hcase as [[_ Hl]|(h & _ & Hl)]; rewrite Hl in Hsucc.
          - apply (success_inert evs) in Hsucc; [|exact Hi].
            destruct Hsucc as [Hx|Hx]; [discriminate|exact Hx].
          - destruct Hsucc as [Hx|Hx]; [discriminate|].
            apply (success_inert evs) in Hx; [|exact Hi].
            destruct Hx as [Hx|Hx]; [discriminate|exact Hx]. }
        destruct (Hs Hold) as (Ht0 & _). congruence.
  - destruct (nth_error (timers s) h) as [t|]; [|discriminate].
    destruct (t_status t); try discriminate.
    intros H. inversion H. clear H.
    set (s1 := with_timers (fire h (timers s)) s).
    assert (Hs1 : on_course s1) by exact Hs.
    change (on_course (settle (tooLong (t_owner t) (t_interval t) s1))).
    unfold tooLong. unfold bind, get.
    destruct (config_key _ _); [|assumption].
    apply on_course_settle. apply hook_cb_on_course; auto.
    + intros n Hst. apply (boot_resolved s Hinv n). now left.
    + discriminate.
  - destruct (take_inflight id (inflight s)) as [[h rest]|] eqn:Hfl; [|discriminate].
    intros H. inversion H. clear H.
    destruct (take_inflight_In id _ rest h Hfl) as [Hin Hrest].
    change (on_course (settle (loaded id h (c_err c) (completed c rest s)))).
    rewrite loaded_unfold.
    set (s2 := after_completion id h (c_err c) (completed c rest s)).
    assert (E2 : stage s2 = stage s /\ todo s2 = todo s /\ called s2 = called s /\
                 log s2 = announcement id (c_err c) ++ log s /\
                 inflight s2 = rest).
    { unfold s2, after_completion, completed. destruct (c_config c); repeat split. }
    destruct E2 as (Est & Et & Ec & El & Ei).
    assert (Hann : Forall inert (announcement id (c_err c))).
    { unfold announcement.
      destruct (truthy (c_err c)), (negb (id =? "userhooks")%string);
        repeat constructor. }
    assert (Hs2 : on_course s2).
    { apply (on_course_ext (announcement id (c_err c)) s); auto;
        rewrite Ec; apply incl_refl. }
    apply on_course_settle.
    destruct (truthy (c_err c)); [|exact Hs2].
    apply hook_cb_on_course; auto.
    + intros n Hst k Hk. rewrite El. apply in_or_app. right.
      apply (boot_resolved s Hinv n); [left; congruence|exact Hk].
    + discriminate.
  - destruct (todo s) eqn:Htodo; [|discriminate].
    destruct (ticks s) as [|id rest] eqn:Eti; [discriminate|].
    intros H. inversion H. clear H.
    set (s1 := with_ticks rest s).
    change (on_course (settle (hook_cb id None s1))).
    apply on_course_settle. apply hook_cb_on_course.
    + exact Hs.
    + intros n Hst. apply (boot_resolved s Hinv n). now left.
    + intros _ Hb. apply nb_loads_in. split; [|exact Hb].
      destruct (pend_ticks s Hf id) as [[Hld _] _]; [rewrite Eti; now left|].
      exact Hld.
Qed.

Lemma run_on_course (ls : list label) (s0 s : state) :
  on_course s0 -> pending s0 -> invariant s0 ->
  run w ls s0 = Some s -> on_course s /\ invariant s.
Proof.
  revert s0. induction ls as [|l r IH]; intros s0 H0 F0 I0; simpl.
  - intros E. inversion E. subst. now split.
  - destruct (exec w l s0) as [s1|] eqn:E; [|discriminate].
    apply IH.
    + eapply exec_on_course; eauto.
    + eapply exec_pending; eauto.
    + eapply exec_invariant; eauto.
Qed.

(** X13.  Whenever the series has reported success to the caller, at
    any point of any run on a fresh application: the series is over, no
    hook is left to load, and every hook whose [load] was called, among
    the bootstrap hooks and the others, has had its callback invoked
    without an error.  No timeout, late completion or error of another
    hook can make the series report success while a load it has called
    is still outstanding. *)
Theorem success_means_every_load_called_back
    (hs : dict) (cfg : jsval) (ls : list label) (s : state)
    (Hrun : run w ls (init hs cfg) = Some s)
    (Hok : In (CallerCb None) (log s)) :
  stage s = Finished /\ todo s = [] /\
  forall id, In (Call OpLoad id) (log s) -> In (Cb id None) (log s).
Proof.
  destruct (run_on_course ls (init hs cfg) s) as [Hc Hinv]; auto.
  - apply before_on_course. repeat split. intros [].
  - apply pending_init.
  - apply inv_init.
  - assert (Hst : stage s = Finished).
    { destruct (stage s) eqn:E; try reflexivity; exfalso;
        apply (no_success_yet s Hc); congruence. }
    split; [exact Hst|]. unfold on_course in Hc. rewrite Hst in Hc.
    destruct (Hc Hok) as (Ht & Hall & Hboot). split; [exact Ht|].
    intros id Hid. destruct (is_bootstrap id) eqn:Eb.
    + unfold is_bootstrap, bootstrap in Eb. simpl in Eb.
      destruct (String.eqb_spec id "moduleloader") as [->|_];
        [apply (Hboot 0); lia|].
      destruct (String.eqb_spec id "userconfig") as [->|_];
        [apply (Hboot 1); lia|].
      destruct (String.eqb_spec id "userhooks") as [->|_];
        [apply (Hboot 2); lia|discriminate].
    + apply Hall. apply nb_loads_in. now split.
Qed.

End MoreSuccess.

Lemma success_means_every_load_called_back_witness :
  let s := Samples.final Samples.app Samples.full_run Samples.full_registry (JObj []) in
  In (Call OpLoad "a") (log s) /\
  stage s = Finished /\ todo s = [] /\
  forall id, In (Call OpLoad id) (log s) -> In (Cb id None) (log s).
Proof.
  cbv zeta. split; [vm_compute; tauto|].
  apply (success_means_every_load_called_back Samples.app Samples.full_registry
           (JObj []) Samples.full_run).
  - vm_compute. reflexivity.
  - vm_compute. now left.
Defined.

(* ===================================================================== *)
(** ** Further properties: no hook is loaded twice *)
(* ===================================================================== *)

Section MoreOnce.

Variable w : world.

Lemma keys_assign_absent (k : string) (v : jsval) (d : dict) :
  lookup k d = None -> keys (assign k v d) = keys d ++ [k].
Proof.
  induction d as [|[k0 v0] r IH]; simpl; [reflexivity|].
  destruct (String.eqb k k0); [discriminate|]. intros H. simpl. now rewrite IH.
Qed.

Lemma NoDup_keys_assign (k : string) (v : jsval) (d : dict) :
  NoDup (keys d) -> NoDup (keys (assign k v d)).
Proof.
  intros H. destruct (lookup k d) eqn:E.
  - rewrite keys_assign_present; [exact H|congruence].
  - rewrite keys_assign_absent by exact E.
    apply NoDup_app; [exact H|repeat constructor; intros []|].
    intros a Ha [<-|[]]. apply lookup_in_keys in Ha. congruence.
Qed.

Lemma NoDup_keys_remove (k : string) (d : dict) :
  NoDup (keys d) -> NoDup (keys (remove k d)).
Proof.
  induction d as [|[k0 v0] r IH]; simpl; [auto|].
  intros H. inversion H as [|? ? Hk Hr]; subst.
  destruct (String.eqb k k0); [now apply IH|].
  simpl. constructor; [|now apply IH].
  intros Hin. apply Hk. now apply (keys_remove_incl k r).
Qed.

Lemma unique_assign (k : string) (v : jsval) (s : state) :
  unique_keys s -> unique_keys (with_hooks (assign k v (hooks s)) s).
Proof. apply NoDup_keys_assign. Qed.

Lemma unique_remove (k : string) (s : state) :
  unique_keys s -> unique_keys (with_hooks (remove k (hooks s)) s).
Proof. apply NoDup_keys_remove. Qed.

Ltac unique_leaf :=
  first [ intros ?; apply unique_assign
        | intros ?; apply unique_remove
        | intros ? H; exact H ].

Lemma prepareHook_unique (id : string) : keeps unique_keys (prepareHook w id).
Proof. unfold prepareHook. repeat keeps_step unique_leaf. Qed.

Lemma applyDefaults_unique (id : string) : keeps unique_keys (applyDefaults w id).
Proof. unfold applyDefaults. repeat keeps_step unique_leaf. Qed.

Lemma configure_unique (id : string) : keeps unique_keys (configure w id).
Proof. unfold configure. repeat keeps_step unique_leaf. Qed.

Lemma loadHook_unique (id : string) : keeps unique_keys (loadHook id).
Proof. unfold loadHook. repeat keeps_step unique_leaf. Qed.

Lemma hook_cb_unique (id : string) (err : option error) :
  keeps unique_keys (hook_cb id err).
Proof. unfold hook_cb. repeat keeps_step unique_leaf. Qed.

Lemma run_task_unique (n : nat) : keeps unique_keys (run_task w n).
Proof.
  assert (Hboot : forall id, keeps unique_keys (bootTask w id)).
  { intros id. unfold bootTask.
    apply keeps_bind; [apply keeps_get|]. intros s0.
    destruct (negb _); [apply hook_cb_unique|].
    apply keeps_bind; [apply prepareHook_unique|]. intros _.
    apply keeps_bind; [apply applyDefaults_unique|]. intros _.
    apply keeps_bind; [apply configure_unique|]. intros _.
    apply loadHook_unique. }
  destruct n as [|[|[|[|[|[|[|[|n]]]]]]]]; cbn [run_task];
    try (apply keeps_bind; [apply keeps_modify; unique_leaf|intros _; apply Hboot]).
  - unfold validate. repeat keeps_step unique_leaf.
  - unfold prepare. apply keeps_bind; [apply keeps_get|]. intros s0.
    apply keeps_bind; [apply keeps_for_each; intros id; apply prepareHook_unique|].
    intros _. apply keeps_modify. unique_leaf.
  - unfold defaults. apply keeps_bind; [apply keeps_get|]. intros s0.
    apply keeps_bind; [apply keeps_for_each; intros id; apply applyDefaults_unique|].
    intros _. apply keeps_modify. unique_leaf.
  - unfold configureAll. apply keeps_bind; [apply keeps_get|]. intros s0.
    apply keeps_bind.
    + apply keeps_for_each. intros id. apply keeps_try_catch;
        [apply configure_unique|]. intros e. repeat keeps_step unique_leaf.
    + intros _. repeat keeps_step unique_leaf.
  - unfold loadAll. repeat keeps_step unique_leaf.
  - repeat keeps_step unique_leaf.
Qed.

Lemma unique_settle (r : result unit) : unique_keys (state_of r) -> unique_keys (settle r).
Proof. destruct r; intros H; exact H. Qed.

Lemma unique_completed (c : completion) (rest : list (string * option nat))
    (s : state) :
  unique_keys s -> unique_keys (completed c rest s).
Proof.
  intros H. unfold unique_keys, completed in *.
  assert (Hf : forall l d, NoDup (keys d) ->
            NoDup (keys (fold_left (fun d kv => assign (fst kv) (snd kv) d) l d))).
  { intros l. induction l as [|[k v] r IH]; intros d Hd; simpl; [exact Hd|].
    apply IH. now apply NoDup_keys_assign. }
  destruct (c_config c); cbn [hooks with_inflight with_hooks with_config];
    apply Hf; exact H.
Qed.

Lemma exec_unique (l : label) (s s' : state) :
  unique_keys s -> exec w l s = Some s' -> unique_keys s'.
Proof.
  intros Hu. unfold exec. destruct (halted s); [discriminate|].
  destruct l as [|h|id c|].
  - destruct (todo s) as [|id rest].
    + destruct (stage s) as [n| | |]; try discriminate.
      intros H. inversion H. apply unique_settle. now apply run_task_unique.
    + intros H. inversion H. apply unique_settle.
      apply (loadHook_unique id). exact Hu.
  - destruct (nth_error (timers s) h) as [t|]; [|discriminate].
    destruct (t_status t); try discriminate.
    intros H. inversion H. apply unique_settle.
    unfold bind at 1. unfold modify at 1. unfold tooLong, bind, get.
    destruct (config_key _ _); [|exact Hu].
    apply hook_cb_unique. exact Hu.
  - destruct (take_inflight id (inflight s)) as [[h rest]|]; [|discriminate].
    intros H. inversion H. apply unique_settle.
    change (unique_keys (state_of (loaded id h (c_err c) (completed c rest s)))).
    apply loaded_keeps;
      [intros e; apply hook_cb_unique|intros t s0 H0; exact H0|].
    apply (unique_completed c rest s Hu).
  - destruct (todo s); [|discriminate].
    destruct (ticks s) as [|id rest]; [discriminate|].
    intros H. inversion H. apply unique_settle.
    apply tick_keeps;
      [intros e; apply hook_cb_unique|intros t s0 H0; exact H0|exact Hu].
Qed.

(** *** Which loads have been called *)

Lemma loads_app (a b : list event) : loads (a ++ b) = loads a ++ loads b.
Proof. unfold loads. apply flat_map_app. Qed.

Lemma loads_in (id : string) (l : list event) :
  In id (loads l) <-> In (Call OpLoad id) l.
Proof.
  unfold loads. rewrite in_flat_map. split.
  - intros (e & He & Hin). destruct e as [o id'| | | | | |]; try contradiction.
    destruct o; try contradiction. destruct Hin as [->|[]]. exact He.
  - intros Hin. exists (Call OpLoad id). split; [exact Hin|now left].
Qed.

Ltac loaded_leaf :=
  intros ? [H1 H2]; split; [simpl; exact H1|exact H2].

Lemma prepareHook_loaded (L T : list string) (id : string) :
  keeps (loaded_as L T) (prepareHook w id).
Proof. unfold prepareHook. repeat keeps_step loaded_leaf. Qed.

Lemma applyDefaults_loaded (L T : list string) (id : string) :
  keeps (loaded_as L T) (applyDefaults w id).
Proof. unfold applyDefaults. repeat keeps_step loaded_leaf. Qed.

Lemma configure_loaded (L T : list string) (id : string) :
  keeps (loaded_as L T) (configure w id).
Proof. unfold configure. repeat keeps_step loaded_leaf. Qed.

Lemma hook_cb_loaded (L T : list string) (id : string) (err : option error) :
  keeps (loaded_as L T) (hook_cb id err).
Proof. unfold hook_cb. repeat keeps_step loaded_leaf. Qed.

Lemma loadHook_loads (id : string) (s : state) :
  let s' := state_of (loadHook id s) in
  todo s' = todo s /\
  (loads (log s') = loads (log s) \/ loads (log s') = id :: loads (log s)).
Proof.
  destruct (loadHook_cases id s) as (_ & Ht & _ & evs & Hevs & H).
  cbv zeta in *. split; [exact Ht|].
  assert (He : loads evs = []).
  { clear - Hevs. induction Hevs as [|e r (h & iv & ->) _ IH]; [reflexivity|].
    simpl. exact IH. }
  destruct H as [[_ Hl]|(h & _ & Hl)]; rewrite Hl.
  - left. now rewrite loads_app, He.
  - right. change (Call OpLoad id :: evs ++ log s)
      with ([Call OpLoad id] ++ evs ++ log s).
    now rewrite !loads_app, He.
Qed.

Lemma keeps_then (I J : state -> Prop) {A B} (m : M A) (k : A -> M B) :
  keeps I m -> (forall s, I s -> J s) ->
  (forall a s, I s -> J (state_of (k a s))) ->
  forall s, I s -> J (state_of (bind m k s)).
Proof.
  intros Hm HIJ Hk s Hs. unfold bind. specialize (Hm s Hs).
  destruct (m s); simpl in *; auto.
Qed.

Lemma bootTask_loads (id : string) (s : state) :
  let s' := state_of (bootTask w id s) in
  todo s' = todo s /\
  (loads (log s') = loads (log s) \/ loads (log s') = id :: loads (log s)).
Proof.
  cbv zeta.
  assert (E : bootTask w id s =
              if negb (truthy (read (hooks s) id)) then hook_cb id None s
              else (prepareHook w id ;; applyDefaults w id ;; configure w id ;;
                    loadHook id)%loader s).
  { unfold bootTask. unfold bind at 1. unfold get.
    now destruct (negb (truthy (read (hooks s) id))). }
  rewrite E. clear E.
  set (L := loads (log s)). set (T := todo s).
  assert (Hs : loaded_as L T s) by (split; reflexivity).
  assert (Hout : forall s0, loaded_as L T s0 ->
            todo s0 = T /\ (loads (log s0) = L \/ loads (log s0) = id :: L)).
  { intros s0 [H1 H2]. split; [exact H2|now left]. }
  destruct (negb _).
  - apply Hout. now apply hook_cb_loaded.
  - assert (Hall : forall s0, loaded_as L T s0 ->
              todo (state_of ((prepareHook w id ;; applyDefaults w id ;;
                               configure w id ;; loadHook id)%loader s0)) = T /\
              (loads (log (state_of ((prepareHook w id ;; applyDefaults w id ;;
                               configure w id ;; loadHook id)%loader s0))) = L \/
               loads (log (state_of ((prepareHook w id ;; applyDefaults w id ;;
                               configure w id ;; loadHook id)%loader s0))) = id :: L));
      [|now apply Hall].
    clear - Hout.
    apply (keeps_then (loaded_as L T)
             (fun s' => todo s' = T /\
                        (loads (log s') = L \/ loads (log s') = id :: L)));
      [apply prepareHook_loaded|exact Hout|].
    intros _.
    apply (keeps_then (loaded_as L T)
             (fun s' => todo s' = T /\
                        (loads (log s') = L \/ loads (log s') = id :: L)));
      [apply applyDefaults_loaded|exact Hout|].
    intros _.
    apply (keeps_then (loaded_as L T)
             (fun s' => todo s' = T /\
                        (loads (log s') = L \/ loads (log s') = id :: L)));
      [apply configure_loaded|exact Hout|].
    intros _ s1 [H1 H2].
    destruct (loadHook_loads id s1) as [Ht Hl]. cbv zeta in Ht, Hl.
    rewrite Ht, H1 in *. split; [exact H2|exact Hl].
Qed.

Lemma quiet_task_loaded (L T : list string) (n : nat) :
  3 <= n -> n <> 7 -> keeps (loaded_as L T) (run_task w n).
Proof.
  intros Hn H7.
  destruct n as [|[|[|[|[|[|[|[|n]]]]]]]]; try lia; cbn [run_task].
  - unfold validate. repeat keeps_step loaded_leaf.
  - unfold prepare. apply keeps_bind; [apply keeps_get|]. intros s0.
    apply keeps_bind; [apply keeps_for_each; intros id; apply prepareHook_loaded|].
    intros _. apply keeps_modify. loaded_leaf.
  - unfold defaults. apply keeps_bind; [apply keeps_get|]. intros s0.
    apply keeps_bind; [apply keeps_for_each; intros id; apply applyDefaults_loaded|].
    intros _. apply keeps_modify. loaded_leaf.
  - unfold configureAll. apply keeps_bind; [apply keeps_get|]. intros s0.
    apply keeps_bind.
    + apply keeps_for_each. intros id. apply keeps_try_catch;
        [apply configure_loaded|]. intros e. repeat keeps_step loaded_leaf.
    + intros _. repeat keeps_step loaded_leaf.
  - repeat keeps_step loaded_leaf.
Qed.

Lemma NoDup_move (a : string) (l1 l2 : list string) :
  NoDup (a :: l1 ++ l2) -> NoDup (l1 ++ a :: l2).
Proof.
  induction l1 as [|x r IH]; simpl; [auto|].
  intros H. inversion H as [|? ? Ha Hr]; subst.
  inversion Hr as [|? ? Hx Hr']; subst.
  constructor.
  - intros Hin. apply in_app_or in Hin as [Hin|[->|Hin]].
    + apply Hx. apply in_or_app. now left.
    + apply Ha. now left.
    + apply Hx. apply in_or_app. now right.
  - apply IH. constructor; [|exact Hr'].
    intros Hin. apply Ha. now right.
Qed.

Lemma no_reload_settle (r : result unit) : no_reload (state_of r) -> no_reload (settle r).
Proof. destruct r; intros H; exact H. Qed.

Lemma no_reload_same (s s' : state) :
  no_reload s -> loaded_as (loads (log s)) (todo s) s' -> no_reload s'.
Proof. intros H [H1 H2]. unfold no_reload. now rewrite H1, H2. Qed.

Lemma exec_no_reload (l : label) (s s' : state) :
  no_reload s -> unique_keys s -> on_course s -> invariant s ->
  exec w l s = Some s' -> no_reload s'.
Proof.
  intros Hn Hu Hc Hinv. unfold exec. destruct (halted s); [discriminate|].
  destruct l as [|h|id c|].
  - destruct (todo s) as [|id rest] eqn:Htodo.
    + destruct (stage s) as [n| | |] eqn:Est; try discriminate.
      intros H. inversion H. clear H. apply no_reload_settle.
      assert (Hb : before_loads s).
      { unfold on_course in Hc. now rewrite Est in Hc. }
      destruct (Nat.lt_ge_cases n 3) as [Hlt|Hge].
      * assert (Hfresh : ~ In (boot n) (loads (log s))).
        { rewrite loads_in. pose proof (inv_fresh s Hinv n Hlt) as Hf.
          rewrite Est in Hf. now apply Hf. }
        assert (Hgo : forall s1, todo s1 = todo s -> log s1 = log s ->
                  no_reload (state_of (bootTask w (boot n) s1))).
        { intros s1 Ht Hl.
          destruct (bootTask_loads (boot n) s1) as [Ht' Hl']. cbv zeta in Ht', Hl'.
          unfold no_reload in *. rewrite Ht', Ht, Htodo. simpl.
          rewrite Htodo in Hn. simpl in Hn. rewrite Hl in Hl'.
          destruct Hl' as [E|E]; rewrite E; [exact Hn|].
          constructor; assumption. }
        destruct n as [|[|[|n]]]; try lia; cbn [run_task];
          unfold bind at 1; unfold modify at 1; apply Hgo; reflexivity.
      * destruct (Nat.eq_dec n 7) as [->|H7].
        -- cbn [run_task]. unfold loadAll. unfold bind at 1. unfold get at 1.
           destruct (others s) as [|id r] eqn:Eo.
           ++ apply (no_reload_same s); [exact Hn|]. split; reflexivity.
           ++ unfold no_reload, modify.
              cbn [state_of todo log with_todo with_stage]. rewrite <- Eo.
              apply NoDup_app.
              ** unfold others, without_bootstrap. now apply NoDup_filter.
              ** unfold no_reload in Hn. now rewrite Htodo in Hn.
              ** intros a Ha Hl. apply others_nonboot in Ha.
                 apply task_of_bootstrap in Ha.
                 destruct Hb as (_ & Hnb & _).
                 assert (Hin : In a (nb_loads (log s))).
                 { apply nb_loads_in. split; [now apply loads_in|exact Ha]. }
                 rewrite Hnb in Hin. contradiction.
        -- apply (no_reload_same s); [exact Hn|].
           apply quiet_task_loaded; auto. split; reflexivity.
    + intros H. inversion H. clear H. apply no_reload_settle.
      set (s1 := with_log (Log "silly" ("Loading hook: " ++ id) :: log s)
                   (with_todo rest s)).
      change (no_reload (state_of (loadHook id s1))).
      destruct (loadHook_loads id s1) as [Ht Hl]. cbv zeta in Ht, Hl.
      unfold no_reload in *. rewrite Ht. cbn [todo s1 with_log with_todo].
      rewrite Htodo in Hn. simpl in Hn.
      change (loads (log s1)) with (loads (log s)) in Hl.
      destruct Hl as [E|E]; rewrite E.
      * now inversion Hn.
      * now apply NoDup_move.
  - destruct (nth_error (timers s) h) as [t|]; [|discriminate].
    destruct (t_status t); try discriminate.
    intros H. inversion H. clear H. apply no_reload_settle.
    apply (no_reload_same s); [exact Hn|].
    set (s1 := with_timers (fire h (timers s)) s).
    change (loaded_as (loads (log s)) (todo s)
              (state_of (tooLong (t_owner t) (t_interval t) s1))).
    unfold tooLong, bind, get.
    destruct (config_key _ _); [|split; reflexivity].
    apply hook_cb_loaded. split; reflexivity.
  - destruct (take_inflight id (inflight s)) as [[h rest]|]; [|discriminate].
    intros H. inversion H. clear H. apply no_reload_settle.
    apply (no_reload_same s); [exact Hn|].
    change (loaded_as (loads (log s)) (todo s)
              (state_of (loaded id h (c_err c) (completed c rest s)))).
    apply loaded_keeps;
      [intros e; apply hook_cb_loaded|intros t s0 H0; exact H0|].
    unfold loaded_as, after_completion, completed.
    cbn [log todo with_log with_timers with_inflight with_hooks].
    assert (Ha : loads (announcement id (c_err c)) = []).
    { unfold announcement.
      destruct (truthy (c_err c)), (negb (id =? "userhooks")%string); reflexivity. }
    rewrite loads_app, Ha. destruct (c_config c); split; reflexivity.
  - destruct (todo s) eqn:Htodo; [|discriminate].
    destruct (ticks s) as [|id rest]; [discriminate|].
    intros H. inversion H. clear H. apply no_reload_settle.
    apply (no_reload_same s); [exact Hn|]. rewrite Htodo.
    apply tick_keeps;
      [intros e; apply hook_cb_loaded|intros t s0 H0; exact H0|].
    split; [reflexivity|exact Htodo].
Qed.

Lemma run_no_reload (ls : list label) (s0 s : state) :
  no_reload s0 -> unique_keys s0 -> on_course s0 -> pending s0 ->
  invariant s0 -> run w ls s0 = Some s -> no_reload s.
Proof.
  revert s0. induction ls as [|l r IH]; intros s0 N0 U0 C0 F0 I0; simpl.
  - intros E. inversion E. now subst.
  - destruct (exec w l s0) as [s1|] eqn:E; [|discriminate].
    apply IH.
    + eapply exec_no_reload; eauto.
    + eapply exec_unique; eauto.
    + eapply exec_on_course; eauto.
    + eapply exec_pending; eauto.
    + eapply exec_invariant; eauto.
Qed.

(** X14.  On a registry whose keys are distinct, as the keys of a
    JavaScript object are, no hook's [load] is called twice in a run,
    whatever the timers and the hooks do and whatever hooks a [load]
    adds to the registry meanwhile; and no hook that the load stage has
    still to start has had its [load] called. *)
Theorem no_hook_is_loaded_twice
    (hs : dict) (cfg : jsval) (ls : list label) (s : state)
    (Hkeys : NoDup (keys hs))
    (Hrun : run w ls (init hs cfg) = Some s) :
  NoDup (todo s ++ loads (log s)).
Proof.
  apply (run_no_reload ls (init hs cfg)); auto.
  - constructor.
  - apply before_on_course. repeat split. intros [].
  - apply pending_init.
  - apply inv_init.
Qed.

End MoreOnce.

Lemma no_hook_is_loaded_twice_witness :
  let s := Samples.final Samples.app Samples.full_run Samples.full_registry (JObj []) in
  loads (log s) = ["a"; "userhooks"; "userconfig"; "moduleloader"] /\
  NoDup (todo s ++ loads (log s)).
Proof.
  cbv zeta. split; [vm_compute; reflexivity|].
  apply (no_hook_is_loaded_twice Samples.app Samples.full_registry (JObj [])
           Samples.full_run).
  - unfold Samples.full_registry. simpl.
    repeat constructor; simpl; intuition discriminate.
  - vm_compute. reflexivity.
Defined.

(* ===================================================================== *)
(** ** Further properties: the stages do not interleave *)
(* ===================================================================== *)

Section MoreStages.

Variable w : world.

Lemma stage_ranks_app (a b : list event) :
  stage_ranks (a ++ b) = stage_ranks a ++ stage_ranks b.
Proof. unfold stage_ranks. apply flat_map_app. Qed.

Lemma stage_ranks_le (l : list event) : Forall (fun r => r <= 7) (stage_ranks l).
Proof.
  induction l as [|e r IH]; [constructor|].
  change (e :: r) with ([e] ++ r). rewrite stage_ranks_app.
  apply Forall_app. split; [|exact IH].
  destruct e as [o id| | | | | |]; simpl; try constructor.
  destruct (is_bootstrap id); simpl; [constructor|].
  constructor; [destruct o; simpl; lia|constructor].
Qed.

Lemma in_step_ext (n : nat) (evs : list event) (s s' : state) :
  in_step n s -> log s' = evs ++ log s ->
  Forall (fun r => r = n) (stage_ranks evs) -> in_step n s'.
Proof.
  intros [H1 H2] El He. unfold in_step. rewrite El, stage_ranks_app.
  now apply descending_more.
Qed.

Lemma in_step_tell (n : nat) (e : event) :
  Forall (fun r => r = n) (stage_ranks [e]) ->
  forall s, in_step n s -> in_step n (with_log (e :: log s) s).
Proof. intros He s Hs. now apply (in_step_ext n [e] s). Qed.

Lemma in_step_le (n m : nat) (s : state) : n <= m -> in_step n s -> in_step m s.
Proof.
  intros Hle [H1 H2]. split; [|exact H2].
  eapply Forall_impl; [|exact H1]. intros r Hr. simpl in Hr. lia.
Qed.

Lemma in_step_min (n : nat) (s : state) : in_step n s -> in_step (Nat.min n 7) s.
Proof.
  intros [H1 H2]. split; [|exact H2].
  pose proof (stage_ranks_le (log s)) as H7.
  rewrite Forall_forall in *. intros r Hr.
  specialize (H1 r Hr). specialize (H7 r Hr). simpl in *. lia.
Qed.

Ltac step_leaf H :=
  first [ apply in_step_tell; simpl;
          try (destruct (is_bootstrap _) eqn:?); simpl;
          repeat constructor; destruct H; congruence
        | intros ? H'; exact H' ].

Lemma prepareHook_in_step (n : nat) (id : string) :
  is_bootstrap id = true \/ n = 4 -> keeps (in_step n) (prepareHook w id).
Proof. intros H. unfold prepareHook. repeat keeps_step ltac:(step_leaf H). Qed.

Lemma applyDefaults_in_step (n : nat) (id : string) :
  is_bootstrap id = true \/ n = 5 -> keeps (in_step n) (applyDefaults w id).
Proof. intros H. unfold applyDefaults. repeat keeps_step ltac:(step_leaf H). Qed.

Lemma configure_in_step (n : nat) (id : string) :
  is_bootstrap id = true \/ n = 6 -> keeps (in_step n) (configure w id).
Proof. intros H. unfold configure. repeat keeps_step ltac:(step_leaf H). Qed.

Lemma hook_cb_in_step (n : nat) (id : string) (err : option error) :
  keeps (in_step n) (hook_cb id err).
Proof.
  assert (H : True \/ True) by now left.
  unfold hook_cb. repeat keeps_step ltac:(step_leaf H).
Qed.

Lemma loadHook_in_step (n : nat) (id : string) :
  is_bootstrap id = true \/ n = 7 -> keeps (in_step n) (loadHook id).
Proof.
  intros H s Hs.
  destruct (loadHook_cases id s) as (_ & _ & _ & evs & Hevs & Hc). cbv zeta in Hc.
  assert (He : stage_ranks evs = []).
  { clear - Hevs. induction Hevs as [|e r (h & iv & ->) _ IH]; [reflexivity|].
    simpl. exact IH. }
  destruct Hc as [[_ Hl]|(h & _ & Hl)].
  - apply (in_step_ext n evs s); auto. rewrite He. constructor.
  - apply (in_step_ext n (Call OpLoad id :: evs) s); auto.
    change (Call OpLoad id :: evs) with ([Call OpLoad id] ++ evs).
    rewrite stage_ranks_app, He, app_nil_r. simpl.
    destruct (is_bootstrap id) eqn:Eb; simpl; [constructor|].
    destruct H as [H|H]; [discriminate|]. subst. repeat constructor.
Qed.

Lemma bootTask_in_step (n : nat) (id : string) :
  is_bootstrap id = true -> keeps (in_step n) (bootTask w id).
Proof.
  intros Hb. unfold bootTask.
  apply keeps_bind; [apply keeps_get|]. intros s0.
  destruct (negb _); [apply hook_cb_in_step|].
  apply keeps_bind; [apply prepareHook_in_step; now left|]. intros _.
  apply keeps_bind; [apply applyDefaults_in_step; now left|]. intros _.
  apply keeps_bind; [apply configure_in_step; now left|]. intros _.
  apply loadHook_in_step. now left.
Qed.

Lemma run_task_in_step (n : nat) : keeps (in_step (Nat.min n 7)) (run_task w n).
Proof.
  assert (H : True \/ True) by now left.
  destruct n as [|[|[|[|[|[|[|[|n]]]]]]]]; cbn [run_task];
    try (apply keeps_bind; [apply keeps_modify; step_leaf H|intros _];
         apply bootTask_in_step; reflexivity).
  - unfold validate. repeat keeps_step ltac:(step_leaf H).
  - unfold prepare. apply keeps_bind; [apply keeps_get|]. intros s0.
    apply keeps_bind.
    + apply keeps_for_each. intros id. apply prepareHook_in_step. now right.
    + intros _. apply keeps_modify. step_leaf H.
  - unfold defaults. apply keeps_bind; [apply keeps_get|]. intros s0.
    apply keeps_bind.
    + apply keeps_for_each. intros id. apply applyDefaults_in_step. now right.
    + intros _. apply keeps_modify. step_leaf H.
  - unfold configureAll. apply keeps_bind; [apply keeps_get|]. intros s0.
    apply keeps_bind.
    + apply keeps_for_each. intros id. apply keeps_try_catch;
        [apply configure_in_step; now right|].
      intros e. repeat keeps_step ltac:(step_leaf H).
    + intros _. repeat keeps_step ltac:(step_leaf H).
  - unfold loadAll. repeat keeps_step ltac:(step_leaf H).
  - repeat keeps_step ltac:(step_leaf H).
Qed.

(** The series never goes back. *)
Lemma hook_cb_bound (id : string) (err : option error) (s : state) :
  bound (stage s) <= bound (stage (state_of (hook_cb id err s))).
Proof.
  destruct (hook_cb_cases id err s) as (_ & _ & _ & H). cbv zeta in H.
  destruct H as [[_ E]|[(_ & n & E & E')|[(_ & _ & _ & _ & _ & k & E & E')
                |[(e & _ & _ & _ & E')|(_ & _ & _ & _ & _ & k & E & _ & E')]]]].
  - rewrite E. lia.
  - rewrite E, E'. simpl. lia.
  - rewrite E, E'. simpl. lia.
  - rewrite E'. destruct (stage s); simpl; lia.
  - rewrite E, E'. simpl. lia.
Qed.

Lemma run_task_bound (n : nat) (s : state) :
  stage s = Task n ->
  bound (stage s) <= bound (stage (state_of (run_task w n s))).
Proof.
  intros Est. rewrite Est.
  assert (Hboot : forall id s1, stage s1 = Await n ->
            bound (Task n) <= bound (stage (state_of (bootTask w id s1)))).
  { intros id s1 E1.
    destruct (bootTask_effect w id s1) as [[_ E]|(E & _)].
    - rewrite E. pose proof (hook_cb_bound id None s1) as Hb.
      rewrite E1 in Hb. exact Hb.
    - rewrite E, E1. simpl. lia. }
  destruct n as [|[|[|[|[|[|[|[|n]]]]]]]]; cbn [run_task];
    try (unfold bind at 1; unfold modify at 1; apply Hboot; reflexivity).
  - destruct (validate_effect s) as ([E|E] & _);
      [rewrite E, Est|rewrite <- E]; simpl; lia.
  - destruct (prepare_effect w s) as ([E|E] & _);
      [rewrite E, Est|rewrite <- E]; simpl; lia.
  - destruct (defaults_effect w s) as ([E|E] & _);
      [rewrite E, Est|rewrite <- E]; simpl; lia.
  - destruct (configureAll_effect w s) as ([E|[E|E]] & _);
      rewrite E; try rewrite Est; simpl; lia.
  - destruct (loadAll_effect s) as (_ & [(_ & E & _)|(_ & _ & k & E)]);
      rewrite E; simpl; lia.
  - simpl. lia.
Qed.

Lemma in_step_settle (n : nat) (r : result unit) :
  in_step (bound (stage (state_of r))) (state_of r) ->
  in_step (bound (stage (settle r))) (settle r).
Proof. destruct r; intros H; exact H. Qed.

Lemma exec_in_step (l : label) (s s' : state) :
  in_step (bound (stage s)) s -> invariant s ->
  exec w l s = Some s' -> in_step (bound (stage s')) s'.
Proof.
  intros Hs Hinv. unfold exec. destruct (halted s); [discriminate|].
  destruct l as [|h|id c|].
  - destruct (todo s) as [|id rest] eqn:Htodo.
    + destruct (stage s) as [n| | |] eqn:Est; try discriminate.
      intros H. inversion H. clear H. apply (in_step_settle 0).
      apply (in_step_le (bound (Task n))).
      * rewrite <- Est. apply run_task_bound. exact Est.
      * apply run_task_in_step. exact Hs.
    + intros H. inversion H. clear H. apply (in_step_settle 0).
      set (s1 := with_log (Log "silly" ("Loading hook: " ++ id) :: log s)
                   (with_todo rest s)).
      change (in_step (bound (stage (state_of (loadHook id s1))))
                (state_of (loadHook id s1))).
      destruct (loadHook_cases id s1) as (Est & _). cbv zeta in Est.
      rewrite Est. cbn [stage s1 with_log with_todo].
      assert (H7 : bound (stage s) = 7).
      { destruct (inv_todo s Hinv) as [E|(Hp & _)]; [congruence|].
        destruct (stage s); simpl in Hp; try contradiction; reflexivity. }
      rewrite H7 in *. apply loadHook_in_step; [now right|].
      apply (in_step_ext 7 [Log "silly" ("Loading hook: " ++ id)] s); auto;
        constructor.
  - destruct (nth_error (timers s) h) as [t|]; [|discriminate].
    destruct (t_status t); try discriminate.
    intros H. inversion H. clear H. apply (in_step_settle 0).
    set (s1 := with_timers (fire h (timers s)) s).
    change (in_step (bound (stage (state_of (tooLong (t_owner t) (t_interval t) s1))))
              (state_of (tooLong (t_owner t) (t_interval t) s1))).
    unfold tooLong, bind, get.
    destruct (config_key _ _); [|exact Hs].
    apply (in_step_le (bound (stage s1))); [apply hook_cb_bound|].
    apply hook_cb_in_step. exact Hs.
  - destruct (take_inflight id (inflight s)) as [[h rest]|]; [|discriminate].
    intros H. inversion H. clear H. apply (in_step_settle 0).
    change (in_step
              (bound (stage (state_of (loaded id h (c_err c) (completed c rest s)))))
              (state_of (loaded id h (c_err c) (completed c rest s)))).
    rewrite loaded_unfold.
    set (s2 := after_completion id h (c_err c) (completed c rest s)).
    assert (E2 : stage s2 = stage s /\
                 log s2 = announcement id (c_err c) ++ log s).
    { unfold s2, after_completion, completed. destruct (c_config c); split; reflexivity. }
    destruct E2 as (Est & El).
    assert (H2 : in_step (bound (stage s2)) s2).
    { rewrite Est.
      apply (in_step_ext _ (announcement id (c_err c)) s); auto.
      unfold announcement.
      destruct (truthy (c_err c)), (negb (id =? "userhooks")%string);
        try constructor. }
    destruct (truthy (c_err c)); [|exact H2].
    apply (in_step_le (bound (stage s2))); [apply hook_cb_bound|].
    now apply hook_cb_in_step.
  - destruct (todo s); [|discriminate].
    destruct (ticks s) as [|id rest]; [discriminate|].
    intros H. inversion H. clear H. apply (in_step_settle 0).
    set (s1 := with_ticks rest s).
    change (in_step (bound (stage (state_of (hook_cb id None s1))))
              (state_of (hook_cb id None s1))).
    apply (in_step_le (bound (stage s1))); [apply hook_cb_bound|].
    apply hook_cb_in_step. exact Hs.
Qed.

Lemma run_in_step (ls : list label) (s0 s : state) :
  in_step (bound (stage s0)) s0 -> invariant s0 -> pending s0 ->
  run w ls s0 = Some s -> in_step (bound (stage s)) s.
Proof.
  revert s0. induction ls as [|l r IH]; intros s0 H0 I0 P0; simpl.
  - intros E. inversion E. now subst.
  - destruct (exec w l s0) as [s1|] eqn:E; [|discriminate].
    apply IH.
    + eapply exec_in_step; eauto.
    + eapply exec_invariant; eauto.
    + eapply exec_pending; eauto.
Qed.

(** X15.  In every run on a fresh application, the calls made for the
    hooks other than the bootstrap ones come stage by stage: once the
    defaults of one hook have been applied no hook is prepared any more,
    once one [configure] has been called no defaults are applied, and
    once one [load] has been called no [configure] is.  On the log,
    newest first: a call that stands after another belongs to the same
    stage or to an earlier one. *)
Theorem stages_never_interleave
    (hs : dict) (cfg : jsval) (ls : list label) (s : state)
    (Hrun : run w ls (init hs cfg) = Some s) :
  descending (stage_ranks (log s)) /\
  forall a b c o1 id1 o2 id2,
    log s = a ++ Call o2 id2 :: b ++ Call o1 id1 :: c ->
    is_bootstrap id1 = false -> is_bootstrap id2 = false ->
    op_rank o1 <= op_rank o2.
Proof.
  assert (Hd : descending (stage_ranks (log s))).
  { apply (run_in_step ls (init hs cfg) s);
      [|apply inv_init|apply pending_init|exact Hrun].
    split; constructor. }
  split; [exact Hd|].
  intros a b c o1 id1 o2 id2 El H1 H2. rewrite El in Hd.
  rewrite stage_ranks_app in Hd. apply descending_app_r in Hd.
  change (Call o2 id2 :: b ++ Call o1 id1 :: c)
    with ([Call o2 id2] ++ b ++ [Call o1 id1] ++ c) in Hd.
  rewrite (stage_ranks_app [Call o2 id2]), (stage_ranks_app b),
    (stage_ranks_app [Call o1 id1]) in Hd.
  assert (E1 : stage_ranks [Call o1 id1] = [op_rank o1]).
  { unfold stage_ranks. simpl. now rewrite H1. }
  assert (E2 : stage_ranks [Call o2 id2] = [op_rank o2]).
  { unfold stage_ranks. simpl. now rewrite H2. }
  rewrite E1, E2 in Hd. cbn [app descending] in Hd. destruct Hd as [Hall _].
  rewrite Forall_forall in Hall.
  apply Hall. apply in_or_app. right. now left.
Qed.

End MoreStages.

Lemma stages_never_interleave_witness :
  let s := Samples.final Samples.app Samples.full_run Samples.full_registry (JObj []) in
  stage_ranks (log s) = [7; 6; 5; 4] /\ descending (stage_ranks (log s)).
Proof.
  cbv zeta. split; [vm_compute; reflexivity|].
  refine (proj1 (stages_never_interleave Samples.app Samples.full_registry (JObj [])
                   Samples.full_run
                   (Samples.final Samples.app Samples.full_run Samples.full_registry
                      (JObj [])) _)).
  vm_compute. reflexivity.
Defined.
